(** * Task manager: storage facade, deadline evaluator and task view

    A shallow embedding of [services/storageService.ts] (the storage and
    authentication facade over [localStorage]) and of the data logic of
    [App.tsx] ([checkDeadlines] and [filteredAndSortedTasks]), with the
    record types of [types.ts].

    The three [localStorage] entries are modelled by what the code can
    observe of them; asynchronous operations become state-passing functions
    (the artificial [delay] has no effect on the data). *)

From Stdlib Require Import ZArith Lia.
From stdpp Require Import base option list strings gmap pretty sorting.

Set Default Proof Using "Type".

(** ** types.ts *)

Inductive TaskStatus := Pending | Done.

Inductive Provider := Credentials | Google | Github.

(** [Notification.type] *)
Inductive NotificationType := Upcoming | Overdue.

Inductive SortOption := DeadlineAsc | DeadlineDesc | CreatedDesc | CreatedAsc.

Inductive FilterOption := FilterAll | FilterPending | FilterDone.

#[global] Instance TaskStatus_eq_dec : EqDecision TaskStatus.
Proof. solve_decision. Defined.
#[global] Instance Provider_eq_dec : EqDecision Provider.
Proof. solve_decision. Defined.
#[global] Instance NotificationType_eq_dec : EqDecision NotificationType.
Proof. solve_decision. Defined.

Record User := mkUser {
  u_id : string;
  u_name : string;
  u_email : string;
  u_avatar : option string;
  u_provider : Provider
}.

(** [finishedTime?: string | null]: [None] is an absent field, [Some None]
    is [null]. *)
Record Task := mkTask {
  t_id : string;
  t_userId : string;
  t_text : string;
  t_description : option string;
  t_deadline : string;
  t_status : TaskStatus;
  t_finishedTime : option (option string);
  t_createdAt : string
}.

Record Notification := mkNotification {
  n_id : string;
  n_userId : string;
  n_taskId : string;
  n_message : string;
  n_type : NotificationType;
  n_isRead : bool;
  n_createdAt : string;
  n_emailSent : bool
}.

(** The object [register] pushes on the users list: the public fields plus
    [username] and the plaintext [password]. *)
Record Account := mkAccount {
  a_id : string;
  a_username : string;
  a_password : string;
  a_name : string;
  a_email : string;
  a_avatar : string;
  a_provider : Provider
}.

(** ** localStorage *)

(** What one storage key holds, as far as the readers tell it apart. *)
Inductive Entry (A : Type) :=
  | Unset                 (* getItem gives null or the empty string *)
  | Unparsable            (* JSON.parse(raw) throws *)
  | NonArray              (* JSON.parse(raw) succeeds, Array.isArray fails *)
  | Rows (rows : list A). (* JSON.parse(raw) is this array *)
Arguments Unset {A}.
Arguments Unparsable {A}.
Arguments NonArray {A}.
Arguments Rows {A} rows.

Inductive Json (A : Type) :=
  | JArray (rows : list A)
  | JOther.
Arguments JArray {A} rows.
Arguments JOther {A}.

(** [raw ? JSON.parse(raw) : []]; [None] when [JSON.parse] throws. *)
Definition parseOrEmpty {A} (e : Entry A) : option (Json A) :=
  match e with
  | Unset => Some (JArray [])
  | Unparsable => None
  | NonArray => Some JOther
  | Rows rows => Some (JArray rows)
  end.

Record Storage := mkStorage {
  tasks_db : Entry Task;                  (* tm_tasks_db_v1 *)
  users_db : Entry Account;               (* tm_users_db_v1 *)
  notifications_db : Entry Notification   (* tm_notifications_db_v1 *)
}.

Definition setTasks (e : Entry Task) (st : Storage) : Storage :=
  mkStorage e (users_db st) (notifications_db st).
Definition setUsers (e : Entry Account) (st : Storage) : Storage :=
  mkStorage (tasks_db st) e (notifications_db st).
Definition setNotifications (e : Entry Notification) (st : Storage) : Storage :=
  mkStorage (tasks_db st) (users_db st) e.

(** The rows a reader sees in an entry: none unless it parses to an array. *)
Definition rowsOf {A} (e : Entry A) : list A :=
  match parseOrEmpty e with
  | Some (JArray rows) => rows
  | _ => []
  end.

(** ** storageService: tasks *)

Definition getTasks (userId : string) (st : Storage) : list Task :=
  match parseOrEmpty (tasks_db st) with
  | Some (JArray allTasks) => filter (λ t, t_userId t = userId) allTasks
  | Some JOther => []
  | None => []
  end.

(** [allTasks.findIndex(t => t.id === task.id)], then assignment or push. *)
Definition upsert (task : Task) (allTasks : list Task) : list Task :=
  match list_find (λ t, t_id t = t_id task) allTasks with
  | Some (existingIndex, _) => <[existingIndex := task]> allTasks
  | None => allTasks ++ [task]
  end.

Definition saveTask (task : Task) (st : Storage) : Task * Storage :=
  let allTasks :=
    match parseOrEmpty (tasks_db st) with
    | Some (JArray rows) => rows
    | Some JOther => []
    | None => []
    end in
  (task, setTasks (Rows (upsert task allTasks)) st).

Definition deleteTask (taskId : string) (st : Storage) : Storage :=
  match parseOrEmpty (tasks_db st) with
  | Some (JArray allTasks) =>
      setTasks (Rows (filter (λ t, t_id t ≠ taskId) allTasks)) st
  | Some JOther => st
  | None => st
  end.

Definition deleteAllTasks (userId : string) (st : Storage) : Storage :=
  match parseOrEmpty (tasks_db st) with
  | Some (JArray allTasks) =>
      setTasks (Rows (filter (λ t, t_userId t ≠ userId) allTasks)) st
  | Some JOther => st
  | None => st
  end.

Definition storedTasks (st : Storage) : list Task := rowsOf (tasks_db st).

(** ** The JavaScript runtime *)

(** [s.includes(sub)] *)
Fixpoint includes (s sub : string) : bool :=
  String.prefix sub s ||
  match s with
  | EmptyString => false
  | String _ s' => includes s' sub
  end.

(** A stable sort by insertion: an element moves in front of its neighbour
    only when [compareFn] puts it strictly before. For a comparison that is
    a difference of keys this is the order that [Array.prototype.sort] must
    produce. *)
Section Sort.
Context {A : Type} (compareFn : A → A → Z).

Fixpoint insertSorted (x : A) (l : list A) : list A :=
  match l with
  | [] => [x]
  | y :: l' =>
      if (compareFn x y <=? 0)%Z then x :: y :: l' else y :: insertSorted x l'
  end.

Definition sortWith (l : list A) : list A := foldr insertSorted [] l.
End Sort.

(** Numbers that can be NaN: [None]. Subtraction gives NaN when an operand
    is NaN, and [x < z] is false when [x] is NaN. *)
Definition minus (x y : option Z) : option Z :=
  match x, y with
  | Some a, Some b => Some (a - b)%Z
  | _, _ => None
  end.

Definition lessThan (x : option Z) (z : Z) : bool :=
  match x with
  | Some a => (a <? z)%Z
  | None => false
  end.

(** What the code takes from the platform.
    - [getTime s] is [new Date(s).getTime()]: [deadline] and [createdAt] are
      plain strings, and a string that is no date gives NaN.
    - [toLowerCase] is [String.prototype.toLowerCase].
    - [randomUUID] and [nowISOString] are the two sources of fresh values
      used when a task or a notification is built, indexed by the number of
      values drawn.
    - [overQuota st] tells that [st] is more than the storage can hold: a
      [setItem] that would make the storage [st] throws and leaves the
      storage as it was. [addNotification] writes inside its [try] block,
      so the error is swallowed there and the call resolves. ([saveTask]
      and [register] write outside any [try]: a throwing write rejects
      their promise, and they are modelled for the calls that complete.
      The other writes that sit in a [try] store an array no longer than
      the one that was read.) What does not fit does not fit either with
      more notifications in the array, nor when the id and the creation
      time of the last one are drawn again: the ids drawn all have one
      length, and so have the times.
    - [jsSort] is [Array.prototype.sort] on an array without holes or
      [undefined] elements, given the comparison function, whose NaN
      results the sort reads as 0. The
      sort returns a permutation; it looks at the elements only through
      the comparison; and when the comparison is a difference of keys on
      the elements of the array, the result is the stable sort by that
      key. For other comparisons the order depends on the engine. *)
Class Runtime := {
  getTime : string → option Z;
  toLowerCase : string → string;
  randomUUID : nat → string;
  nowISOString : nat → string;
  overQuota : Storage → bool;
  overQuota_grows :
    ∀ (st : Storage) (l l2 : list Notification) (k k' : nat) (n : Notification),
      overQuota
        (setNotifications
           (Rows (l ++ [mkNotification (randomUUID k) (n_userId n) (n_taskId n)
                          (n_message n) (n_type n) (n_isRead n) (nowISOString k)
                          (n_emailSent n)])) st) = true →
      overQuota
        (setNotifications
           (Rows (l ++ l2 ++ [mkNotification (randomUUID k') (n_userId n) (n_taskId n)
                                (n_message n) (n_type n) (n_isRead n) (nowISOString k')
                                (n_emailSent n)])) st) = true;
  jsSort : ∀ {A : Type}, (A → A → option Z) → list A → list A;
  jsSort_permutation :
    ∀ (A : Type) (compareFn : A → A → option Z) (l : list A),
      jsSort compareFn l ≡ₚ l;
  jsSort_keyed :
    ∀ (A : Type) (compareFn : A → A → option Z) (key : A → Z) (l : list A),
      (∀ a b, a ∈ l → b ∈ l → compareFn a b = Some (key a - key b)%Z) →
      jsSort compareFn l = sortWith (λ a b, (key a - key b)%Z) l;
  jsSort_natural :
    ∀ (A B : Type) (g : A → B) (cmpA : A → A → option Z)
      (cmpB : B → B → option Z) (l : list A),
      (∀ a b, cmpB (g a) (g b) = cmpA a b) →
      jsSort cmpB (map g l) = map g (jsSort cmpA l)
}.

(** ** storageService: notifications *)

Section Notifications.
Context `{Runtime}.

Definition newestFirst (a b : Notification) : option Z :=
  minus (getTime (n_createdAt b)) (getTime (n_createdAt a)).

Definition getNotifications (userId : string) (st : Storage) : list Notification :=
  match parseOrEmpty (notifications_db st) with
  | Some (JArray all) =>
      jsSort newestFirst (filter (λ n, n_userId n = userId) all)
  | Some JOther => []
  | None => []
  end.
End Notifications.

(** The test of [addNotification]'s [find]. *)
Definition sameTriple (notification n : Notification) : Prop :=
  n_taskId n = n_taskId notification ∧ n_type n = n_type notification
  ∧ n_userId n = n_userId notification.

#[global] Instance sameTriple_dec a b : Decision (sameTriple a b).
Proof. unfold sameTriple. apply _. Defined.

(** The whole body sits in [try]: a [JSON.parse] that throws and a
    [setItem] that throws are both caught and logged, and the call
    resolves with the storage as it was. *)
Definition addNotification `{Runtime} (notification : Notification) (st : Storage)
    : Storage :=
  match parseOrEmpty (notifications_db st) with
  | Some all =>
      let safeAll := match all with JArray rows => rows | JOther => [] end in
      match list_find (sameTriple notification) safeAll with
      | Some _ => st
      | None =>
          let written := setNotifications (Rows (safeAll ++ [notification])) st in
          if overQuota written then st else written
      end
  | None => st
  end.

Definition setRead (n : Notification) : Notification :=
  mkNotification (n_id n) (n_userId n) (n_taskId n) (n_message n) (n_type n)
    true (n_createdAt n) (n_emailSent n).

Definition markNotificationRead (notificationId : string) (st : Storage) : Storage :=
  match parseOrEmpty (notifications_db st) with
  | Some (JArray all) =>
      match list_find (λ n, n_id n = notificationId) all with
      | Some (idx, n) => setNotifications (Rows (<[idx := setRead n]> all)) st
      | None => st
      end
  | Some JOther => st
  | None => st
  end.

Definition markAllNotificationsRead (userId : string) (st : Storage) : Storage :=
  match parseOrEmpty (notifications_db st) with
  | Some (JArray all) =>
      setNotifications
        (Rows (map (λ n, if decide (n_userId n = userId) then setRead n else n) all)) st
  | Some JOther => st
  | None => st
  end.

Definition storedNotifications (st : Storage) : list Notification :=
  rowsOf (notifications_db st).

(** ** storageService: authentication *)

(** The two messages thrown by [register] and [login]. *)
Inductive AuthError := UsernameTaken | InvalidCredentials.

Definition errorMessage (e : AuthError) : string :=
  match e with
  | UsernameTaken => "Tên đăng nhập đã tồn tại"
  | InvalidCredentials => "Tên đăng nhập hoặc mật khẩu không đúng"
  end.

(** How a promise of the service settles. *)
Inductive Settled (A : Type) :=
  | Resolved (a : A)
  | Rejected (e : AuthError).
Arguments Resolved {A} a.
Arguments Rejected {A} e.

Definition getSafeUsers (st : Storage) : list Account :=
  match parseOrEmpty (users_db st) with
  | Some (JArray parsed) => parsed
  | Some JOther => []
  | None => []
  end.

(** [register]; [now] is the value of [Date.now()]. *)
Definition register (now : Z) (username password : string) (st : Storage)
    : Settled User * Storage :=
  let users := getSafeUsers st in
  match list_find (λ u, a_username u = username) users with
  | Some _ => (Rejected UsernameTaken, st)
  | None =>
      let newUser :=
        {| a_id := "user_cred_" +:+ pretty now;
           a_username := username;
           a_password := password;
           a_name := username;
           a_email := username +:+ "@example.com";
           a_avatar := "https://ui-avatars.com/api/?name=" +:+ username
                        +:+ "&background=random&color=fff&background=6366f1";
           a_provider := Credentials |} in
      (Resolved {| u_id := a_id newUser; u_name := a_name newUser;
                   u_email := a_email newUser; u_avatar := Some (a_avatar newUser);
                   u_provider := Credentials |},
       setUsers (Rows (users ++ [newUser])) st)
  end.

(** [credentials?: {username: string, password?: string}] *)
Record LoginCredentials := mkLoginCredentials {
  cr_username : string;
  cr_password : option string
}.

(** [u.username === credentials?.username && u.password === credentials?.password] *)
Definition credentialsMatch (credentials : option LoginCredentials) (u : Account) : Prop :=
  Some (a_username u) = cr_username <$> credentials
  ∧ Some (a_password u) = credentials ≫= cr_password.

#[global] Instance credentialsMatch_dec c u : Decision (credentialsMatch c u).
Proof. unfold credentialsMatch. apply _. Defined.

Definition googleUser : User :=
  {| u_id := "user_google_123"; u_name := "Alex Google"; u_email := "alex@gmail.com";
     u_avatar := Some "https://picsum.photos/seed/google/200"; u_provider := Google |}.

Definition githubUser : User :=
  {| u_id := "user_github_456"; u_name := "Dev Github"; u_email := "dev@github.com";
     u_avatar := Some "https://picsum.photos/seed/github/200"; u_provider := Github |}.

(** The object [login] builds from the record it found. *)
Definition publicUser (found : Account) : User :=
  {| u_id := a_id found; u_name := a_name found; u_email := a_email found;
     u_avatar := Some (a_avatar found); u_provider := Credentials |}.

Definition login (provider : string) (credentials : option LoginCredentials)
    (st : Storage) : Settled User :=
  if decide (provider = "google") then Resolved googleUser
  else if decide (provider = "github") then Resolved githubUser
  else
    let users := getSafeUsers st in
    match list_find (credentialsMatch credentials) users with
    | None => Rejected InvalidCredentials
    | Some (_, found) => Resolved (publicUser found)
    end.

(** ** App: the deadline evaluator *)

(** The component state the evaluator reads. *)
Record App := mkApp {
  user : option User;
  tasks : list Task;
  notifications : list Notification
}.

(** What lies outside the component: the storage, the console and the number
    of fresh values drawn so far. *)
Record World := mkWorld {
  storage : Storage;
  console : list string;
  draws : nat
}.

(** The state of one pass over the tasks. *)
Record Scan := mkScan {
  world : World;
  hasNewNotification : bool
}.

Definition oneDay : Z := 24 * 60 * 60 * 1000.

Definition quote : string := String (Ascii.ascii_of_nat 34) EmptyString.

Section Evaluator.
Context `{Runtime}.

(** The head of the loop body: the [continue] on done tasks and the choice
    of [type] and [message] from [diff]. *)
Definition classify (now : Z) (task : Task) : option (NotificationType * string) :=
  if decide (t_status task = Done) then None
  else
    let diff := minus (getTime (t_deadline task)) (Some now) in
    if lessThan diff 0 then
      Some (Overdue, "Công việc " +:+ quote +:+ t_text task +:+ quote +:+ " đã quá hạn!")
    else if lessThan diff oneDay then
      Some (Upcoming, "Công việc " +:+ quote +:+ t_text task +:+ quote
                        +:+ " sắp đến hạn (dưới 24h).")
    else None.

(** [notifications.some(n => n.taskId === task.id && n.type === type)] *)
Definition alreadyNotified (notifications : list Notification) (task : Task)
    (type : NotificationType) : Prop :=
  Exists (λ n, n_taskId n = t_id task ∧ n_type n = type) notifications.

Definition checkTask (u : User) (now : Z) (notifications : list Notification)
    (s : Scan) (task : Task) : Scan :=
  match classify now task with
  | None => s
  | Some (type, message) =>
      if decide (alreadyNotified notifications task type) then s
      else
        let w := world s in
        let newNotification :=
          {| n_id := randomUUID (draws w);
             n_userId := u_id u;
             n_taskId := t_id task;
             n_message := message;
             n_type := type;
             n_isRead := false;
             n_createdAt := nowISOString (draws w);
             n_emailSent := true |} in
        {| world :=
             {| storage := addNotification newNotification (storage w);
                console := console w ++
                  ["[EMAIL MOCK] Sending email to " +:+ u_email u +:+ ": " +:+ message];
                draws := S (draws w) |};
           hasNewNotification := true |}
  end.

Definition setAppNotifications (l : list Notification) (app : App) : App :=
  mkApp (user app) (tasks app) l.

Definition checkDeadlines (now : Z) (app : App) (w : World) : App * World :=
  match user app with
  | None => (app, w)
  | Some u =>
      let s := foldl (checkTask u now (notifications app)) (mkScan w false) (tasks app) in
      if hasNewNotification s then
        (setAppNotifications (getNotifications (u_id u) (storage (world s))) app, world s)
      else (app, world s)
  end.

(** The notification part of [loadData]: the list is read again from the
    storage. *)
Definition reloadNotifications (app : App) (w : World) : App :=
  match user app with
  | None => app
  | Some u => setAppNotifications (getNotifications (u_id u) (storage w)) app
  end.
End Evaluator.

(** ** App: the derived task view *)

(** Arrays are objects: the component holds a reference to its task array,
    spreading and [filter] allocate a new array, [sort] writes into the
    array it is called on. *)
Abbreviation Ref := positive.
Abbreviation Heap := (gmap positive (list Task)).

Definition Js (A : Type) : Type := Heap → A * Heap.

#[global] Instance Js_ret : MRet Js := λ A a h, (a, h).
#[global] Instance Js_bind : MBind Js := λ A B k m h, let '(a, h') := m h in k a h'.

Definition readArray (r : Ref) : Js (list Task) := λ h, (default [] (h !! r), h).
Definition newArray (l : list Task) : Js Ref :=
  λ h, let r := fresh (dom h) in (r, <[r := l]> h).
Definition writeArray (r : Ref) (l : list Task) : Js unit := λ h, (tt, <[r := l]> h).

(** [[...a]] *)
Definition spread (a : Ref) : Js Ref := l ← readArray a; newArray l.

(** [a.filter(p)] *)
Definition arrayFilter (p : Task → bool) (a : Ref) : Js Ref :=
  l ← readArray a; newArray (filter (λ t, p t = true) l).

(** [a.sort(compareFn)] *)
Definition arraySort `{Runtime} (compareFn : Task → Task → option Z) (a : Ref) : Js Ref :=
  l ← readArray a; _ ← writeArray a (jsSort compareFn l); mret a.

Section View.
Context `{Runtime}.

(** The search callback, [lower] being [searchQuery.toLowerCase()]; an
    absent or empty description is falsy. *)
Definition searchMatches (lower : string) (t : Task) : bool :=
  includes (toLowerCase (t_text t)) lower ||
  match t_description t with
  | None => false
  | Some description =>
      if decide (description = EmptyString) then false
      else includes (toLowerCase description) lower
  end.

Definition hasStatus (s : TaskStatus) (t : Task) : bool :=
  bool_decide (t_status t = s).

Definition compareTasks (sortBy : SortOption) (a b : Task) : option Z :=
  match sortBy with
  | DeadlineAsc => minus (getTime (t_deadline a)) (getTime (t_deadline b))
  | DeadlineDesc => minus (getTime (t_deadline b)) (getTime (t_deadline a))
  | CreatedAsc => minus (getTime (t_createdAt a)) (getTime (t_createdAt b))
  | CreatedDesc => minus (getTime (t_createdAt b)) (getTime (t_createdAt a))
  end.

Definition filteredAndSortedTasks (tasks : Ref) (searchQuery : string)
    (filter : FilterOption) (sortBy : SortOption) : Js Ref :=
  result ← spread tasks;
  result ← (if decide (searchQuery = EmptyString) then mret result
            else arrayFilter (searchMatches (toLowerCase searchQuery)) result);
  result ← (match filter with
            | FilterPending => arrayFilter (hasStatus Pending) result
            | FilterDone => arrayFilter (hasStatus Done) result
            | FilterAll => mret result
            end);
  arraySort (compareTasks sortBy) result.
End View.

(** ** Sequences of facade calls *)

Inductive Operation :=
  | GetTasks (userId : string)
  | SaveTask (task : Task)
  | DeleteTask (taskId : string)
  | DeleteAllTasks (userId : string)
  | GetNotifications (userId : string)
  | AddNotification (notification : Notification)
  | MarkNotificationRead (notificationId : string)
  | MarkAllNotificationsRead (userId : string)
  | Register (now : Z) (username password : string)
  | Login (provider : string) (credentials : option LoginCredentials).

(** The storage after one call. *)
Definition perform `{Runtime} (st : Storage) (op : Operation) : Storage :=
  match op with
  | GetTasks _ => st
  | SaveTask task => (saveTask task st).2
  | DeleteTask taskId => deleteTask taskId st
  | DeleteAllTasks userId => deleteAllTasks userId st
  | GetNotifications _ => st
  | AddNotification notification => addNotification notification st
  | MarkNotificationRead notificationId => markNotificationRead notificationId st
  | MarkAllNotificationsRead userId => markAllNotificationsRead userId st
  | Register now username password => (register now username password st).2
  | Login _ _ => st
  end.

Definition performAll `{Runtime} (st : Storage) (ops : list Operation) : Storage :=
  foldl perform st ops.

(** ** Array.prototype.sort in V8

    V8 sorts an array of fewer than 64 elements as a single run
    ([ComputeMinRunLength] gives the length of the array): [CountAndMakeRun]
    takes the longest prefix that is non-descending or strictly descending
    and reverses it in the second case, then [BinaryInsertionSort] inserts
    the remaining elements one by one. No merge takes place. *)

Section V8Sort.
Context {A : Type} (compareFn : A → A → option Z).

(** [sortState.Compare]: the number [compareFn] gives, NaN read as 0. *)
Definition order (x y : A) : Z := default 0%Z (compareFn x y).

(** The [while (left < right)] loop of [BinaryInsertionSort], on the
    sorted part [work] of the array; [fuel] bounds the number of turns. *)
Fixpoint binarySearch (fuel : nat) (work : list A) (pivot : A) (left right : nat)
    : nat :=
  match fuel with
  | 0 => left
  | S fuel' =>
      if decide (left < right) then
        let mid := left + Nat.div2 (right - left) in
        match work !! mid with
        | Some x =>
            if (order pivot x <? 0)%Z then binarySearch fuel' work pivot left mid
            else binarySearch fuel' work pivot (mid + 1) right
        | None => left
        end
      else left
  end.

(** One turn of the [for] loop of [BinaryInsertionSort]: [pivot] is moved
    to index [left] of the sorted part. *)
Definition binaryInsert (work : list A) (pivot : A) : list A :=
  let left := binarySearch (length work) work pivot 0 (length work) in
  take left work ++ pivot :: drop left work.

(** The [for] loop of [CountAndMakeRun]: how many elements of [l] continue
    the run that ends with [previousElement]. *)
Fixpoint continueRun (isDescending : bool) (previousElement : A) (l : list A) : nat :=
  match l with
  | [] => 0
  | currentElement :: l' =>
      let o := order currentElement previousElement in
      if (if isDescending then (0 <=? o)%Z else (o <? 0)%Z) then 0
      else S (continueRun isDescending currentElement l')
  end.

(** The run, reversed when it is descending, and the elements after it. *)
Definition countAndMakeRun (l : list A) : list A * list A :=
  match l with
  | elementHigh :: elementLow :: l' =>
      let isDescending := (order elementLow elementHigh <? 0)%Z in
      let runLength := 2 + continueRun isDescending elementLow l' in
      (if isDescending then reverse (take runLength l) else take runLength l,
       drop runLength l)
  | _ => (l, [])
  end.

Definition shortArraySort (l : list A) : list A :=
  let '(run, rest) := countAndMakeRun l in foldl binaryInsert run rest.
End V8Sort.

(** Arrays of 64 elements and more go through the merges of V8, which are
    not embedded; the stable insertion sort stands for them. *)
Definition v8Sort {A} (compareFn : A → A → option Z) (l : list A) : list A :=
  if decide (length l < 64) then shortArraySort compareFn l
  else sortWith (order compareFn) l.

(** ** Dates and letters to compute with

    [parseDate] reads the format that [toISOString] writes,
    [YYYY-MM-DDTHH:mm:ss.sssZ], and takes any other string for no date;
    [lowerString] lower-cases the ASCII letters. *)

Definition digitValue (c : Ascii.ascii) : option Z :=
  let n := Ascii.nat_of_ascii c in
  if bool_decide (48 ≤ n ≤ 57) then Some (Z.of_nat n - 48)%Z else None.

Fixpoint digits (acc : Z) (s : string) : option Z :=
  match s with
  | EmptyString => Some acc
  | String c s' =>
      match digitValue c with
      | Some d => digits (10 * acc + d)%Z s'
      | None => None
      end
  end.

(** The number written with [len] digits from position [pos] of [s]. *)
Definition field (pos len : nat) (s : string) : option Z :=
  let part := String.substring pos len s in
  if decide (String.length part = len) then digits 0 part else None.

Definition isLeapYear (y : Z) : bool :=
  ((y mod 4 =? 0) && negb (y mod 100 =? 0) || (y mod 400 =? 0))%Z.

Definition daysInMonth (y m : Z) : Z :=
  (if m =? 2 then (if isLeapYear y then 29 else 28)
   else if (m =? 4) || (m =? 6) || (m =? 9) || (m =? 11) then 30 else 31)%Z.

(** Days from 1970-01-01 to the given day of the proleptic Gregorian
    calendar. *)
Definition daysFromCivil (y m d : Z) : Z :=
  (let y' := if m <=? 2 then y - 1 else y in
   let era := y' / 400 in
   let yoe := y' - era * 400 in
   let doy := (153 * (if 2 <? m then m - 3 else m + 9) + 2) / 5 + d - 1 in
   let doe := yoe * 365 + yoe / 4 - yoe / 100 + doy in
   era * 146097 + doe - 719468)%Z.

Definition separatorsOk (s : string) : bool :=
  bool_decide (String.length s = 24
    ∧ String.substring 4 1 s = "-" ∧ String.substring 7 1 s = "-"
    ∧ String.substring 10 1 s = "T" ∧ String.substring 13 1 s = ":"
    ∧ String.substring 16 1 s = ":" ∧ String.substring 19 1 s = "."
    ∧ String.substring 23 1 s = "Z").

Definition parseDate (s : string) : option Z :=
  if separatorsOk s then
    y ← field 0 4 s; mo ← field 5 2 s; d ← field 8 2 s;
    h ← field 11 2 s; mi ← field 14 2 s; se ← field 17 2 s; ms ← field 20 3 s;
    if ((1 <=? mo) && (mo <=? 12) && (1 <=? d) && (d <=? daysInMonth y mo)
        && (h <=? 23) && (mi <=? 59) && (se <=? 59))%Z
    then Some ((((daysFromCivil y mo d * 24 + h) * 60 + mi) * 60 + se) * 1000 + ms)%Z
    else None
  else None.

Definition pad2 (n : nat) : string :=
  if decide (n < 10) then "0" +:+ pretty n else pretty n.

(** The [k]-th second of 2025-06-10, within its first hour. *)
Definition secondOfSampleDay (k : nat) : string :=
  "2025-06-10T00:" +:+ pad2 ((k `div` 60) `mod` 60) +:+ ":" +:+ pad2 (k `mod` 60)
    +:+ ".000Z".

Definition lowerAscii (c : Ascii.ascii) : Ascii.ascii :=
  let n := Ascii.nat_of_ascii c in
  if bool_decide (65 ≤ n ≤ 90) then Ascii.ascii_of_nat (n + 32) else c.

Fixpoint lowerString (s : string) : string :=
  match s with
  | EmptyString => EmptyString
  | String c s' => String (lowerAscii c) (lowerString s')
  end.

Definition emptyStorage : Storage := mkStorage Unset Unset Unset.

(** A quota to compute with: the storage holds at most [limit] characters
    of notification messages in all. *)
Definition messageLoad (st : Storage) : nat :=
  sum_list_with (λ n, String.length (n_message n)) (storedNotifications st).

Definition overLimit (limit : nat) (st : Storage) : bool :=
  bool_decide (limit < messageLoad st).

(** ** App: the handlers

    The handlers act on the same component state; the flags that only
    drive the display (loading, open dialogs) are left out. *)

Definition setAppTasks (l : list Task) (app : App) : App :=
  mkApp (user app) l (notifications app).

Definition setStorage (st : Storage) (w : World) : World :=
  mkWorld st (console w) (draws w).

(** [tasks.find(t => t.id === id)] *)
Definition findTask (id : string) (l : list Task) : option Task :=
  snd <$> list_find (λ t, t_id t = id) l.

Section Handlers.
Context `{Runtime}.

(** Both reads of [loadData]; without a user nothing is loaded. *)
Definition loadData (app : App) (w : World) : App :=
  match user app with
  | None => app
  | Some u =>
      mkApp (user app) (getTasks (u_id u) (storage w))
        (getNotifications (u_id u) (storage w))
  end.

(** [handleSaveTask(text, description, deadline, id?)]: an absent or empty
    [id] is falsy and makes a new task; otherwise status, finish time and
    creation time are taken from the task held under [id], if there is one.
    A fresh value is drawn when an id or a creation time has to be made. *)
Definition handleSaveTask (text description deadline : string) (id : option string)
    (app : App) (w : World) : App * World :=
  match user app with
  | None => (app, w)
  | Some u =>
      let edited :=
        match id with
        | Some i => if decide (i = EmptyString) then None else Some i
        | None => None
        end in
      let held := edited ≫= λ i, findTask i (tasks app) in
      let kept := held ≫= λ t,
        if decide (t_createdAt t = EmptyString) then None else Some (t_createdAt t) in
      let newTask :=
        {| t_id := default (randomUUID (draws w)) edited;
           t_userId := u_id u;
           t_text := text;
           t_description := Some description;
           t_deadline := deadline;
           t_status := default Pending (t_status <$> held);
           t_finishedTime := held ≫= t_finishedTime;
           t_createdAt := default (nowISOString (draws w)) kept |} in
      (setAppTasks (upsert newTask (tasks app)) app,
       mkWorld (saveTask newTask (storage w)).2 (console w)
         (match edited, kept with Some _, Some _ => draws w | _, _ => S (draws w) end))
  end.

Definition handleDelete (id : string) (app : App) (w : World) : App * World :=
  (setAppTasks (filter (λ t, t_id t ≠ id) (tasks app)) app,
   setStorage (deleteTask id (storage w)) w).

Definition handleConfirmDeleteAll (app : App) (w : World) : App * World :=
  match user app with
  | None => (app, w)
  | Some u => (setAppTasks [] app, setStorage (deleteAllTasks (u_id u) (storage w)) w)
  end.

(** [{ ...task, status: newStatus, finishedTime }] *)
Definition toggled (stamp : string) (task : Task) : Task :=
  let newStatus := if decide (t_status task = Pending) then Done else Pending in
  mkTask (t_id task) (t_userId task) (t_text task) (t_description task)
    (t_deadline task) newStatus
    (Some (if decide (newStatus = Done) then Some stamp else None))
    (t_createdAt task).

Definition handleToggleStatus (id : string) (app : App) (w : World) : App * World :=
  match findTask id (tasks app) with
  | None => (app, w)
  | Some task =>
      let updatedTask := toggled (nowISOString (draws w)) task in
      (setAppTasks (map (λ t, if decide (t_id t = id) then updatedTask else t) (tasks app)) app,
       mkWorld (saveTask updatedTask (storage w)).2 (console w)
         (if decide (t_status updatedTask = Done) then S (draws w) else draws w))
  end.

Definition handleMarkRead (id : string) (app : App) (w : World) : App * World :=
  (setAppNotifications
     (map (λ n, if decide (n_id n = id) then setRead n else n) (notifications app)) app,
   setStorage (markNotificationRead id (storage w)) w).

Definition handleMarkAllRead (app : App) (w : World) : App * World :=
  match user app with
  | None => (app, w)
  | Some u =>
      (setAppNotifications (map setRead (notifications app)) app,
       setStorage (markAllNotificationsRead (u_id u) (storage w)) w)
  end.

(** [tasks.filter(t => t.status === 'pending').length] *)
Definition pendingCount (app : App) : nat :=
  length (filter (λ t, t_status t = Pending) (tasks app)).
End Handlers.

(** The theme: [localStorage.getItem('theme') || 'light'] at start,
    [toggleTheme], and whether the effect puts the class [dark] on the
    document. *)
Definition initialTheme (stored : option string) : string :=
  match stored with
  | Some theme => if decide (theme = EmptyString) then "light" else theme
  | None => "light"
  end.

Definition toggleTheme (prev : string) : string :=
  if decide (prev = "light") then "dark" else "light".

Definition darkClass (theme : string) : bool := bool_decide (theme = "dark").

(** What a user does in the component, and what the component does on its
    own after a change of the tasks. *)
Inductive Action :=
  | LoadData
  | CheckDeadlines (now : Z)
  | HandleSaveTask (text description deadline : string) (id : option string)
  | HandleDelete (id : string)
  | HandleConfirmDeleteAll
  | HandleToggleStatus (id : string)
  | HandleMarkRead (id : string)
  | HandleMarkAllRead.

Definition act `{Runtime} (s : App * World) (a : Action) : App * World :=
  match a with
  | LoadData => (loadData s.1 s.2, s.2)
  | CheckDeadlines now => checkDeadlines now s.1 s.2
  | HandleSaveTask text description deadline id =>
      handleSaveTask text description deadline id s.1 s.2
  | HandleDelete id => handleDelete id s.1 s.2
  | HandleConfirmDeleteAll => handleConfirmDeleteAll s.1 s.2
  | HandleToggleStatus id => handleToggleStatus id s.1 s.2
  | HandleMarkRead id => handleMarkRead id s.1 s.2
  | HandleMarkAllRead => handleMarkAllRead s.1 s.2
  end.

Definition actAll `{Runtime} (s : App * World) (l : list Action) : App * World :=
  foldl act s l.

(** ** Vocabulary of the properties *)

(** The key on which [addNotification] refuses a second notification. *)
Definition triple (n : Notification) : string * string * NotificationType :=
  (n_userId n, n_taskId n, n_type n).

Definition uniqueTriples (l : list Notification) : Prop := NoDup (triple <$> l).

(** How many of [l] carry the triple of [n]. *)
Definition countTriple (n : Notification) (l : list Notification) : nat :=
  length (filter (sameTriple n) l).

(** A [SaveTask] is owner-respecting in [st] when every stored task with the
    id of the saved one already has its owner; any other call is. *)
Definition respectsOwner (st : Storage) (op : Operation) : Prop :=
  match op with
  | SaveTask task =>
      ∀ y, y ∈ storedTasks st → t_id y = t_id task → t_userId y = t_userId task
  | _ => True
  end.

Fixpoint respectsOwners `{Runtime} (st : Storage) (ops : list Operation) : Prop :=
  match ops with
  | [] => True
  | op :: ops' => respectsOwner st op ∧ respectsOwners (perform st op) ops'
  end.

(** Some stored task of [st] has the id and the owner of [x]. *)
Definition ownerKept (st : Storage) (x : Task) : Prop :=
  ∃ y, y ∈ storedTasks st ∧ t_id y = t_id x ∧ t_userId y = t_userId x.

Definition idStored (st : Storage) (x : Task) : Prop :=
  ∃ y, y ∈ storedTasks st ∧ t_id y = t_id x.

(** What the two filters of the view let through. *)
Definition searchOk `{Runtime} (searchQuery : string) (t : Task) : Prop :=
  searchQuery = EmptyString ∨ searchMatches (toLowerCase searchQuery) t = true.

Definition statusOk (filter : FilterOption) (t : Task) : Prop :=
  match filter with
  | FilterAll => True
  | FilterPending => t_status t = Pending
  | FilterDone => t_status t = Done
  end.

#[global] Instance searchOk_dec `{Runtime} q t : Decision (searchOk q t).
Proof. unfold searchOk. apply _. Defined.
#[global] Instance statusOk_dec f t : Decision (statusOk f t).
Proof. destruct f; simpl; apply _. Defined.

(** The time a sort option orders by. *)
Definition sortKey `{Runtime} (sortBy : SortOption) (t : Task) : option Z :=
  match sortBy with
  | DeadlineAsc | DeadlineDesc => getTime (t_deadline t)
  | CreatedAsc | CreatedDesc => getTime (t_createdAt t)
  end.

(** The number a sort option orders by when the time is a date: the time,
    negated by the two descending options. *)
Definition sortNumber `{Runtime} (sortBy : SortOption) (t : Task) : Z :=
  let time := default 0%Z (sortKey sortBy t) in
  match sortBy with
  | DeadlineAsc | CreatedAsc => time
  | DeadlineDesc | CreatedDesc => (- time)%Z
  end.

(** The comparison puts [a] before [b] or ranks them equal. *)
Definition notAfter `{Runtime} (sortBy : SortOption) (a b : Task) : Prop :=
  ∃ d, compareTasks sortBy a b = Some d ∧ (d ≤ 0)%Z.

(** The storage takes the array of its notifications with [n] added. *)
Definition accepts `{Runtime} (st : Storage) (n : Notification) : Prop :=
  overQuota (setNotifications (Rows (storedNotifications st ++ [n])) st) = false.

#[global] Instance accepts_dec `{Runtime} st n : Decision (accepts st n).
Proof. unfold accepts. apply _. Defined.

(** No write is ever refused. *)
Definition neverFull `{Runtime} : Prop := ∀ st, overQuota st = false.

(** The notification that the evaluator builds for a classified task from
    the [k]-th fresh values. *)
Definition noticeFor `{Runtime} (u : User) (task : Task) (type : NotificationType)
    (message : string) (k : nat) : Notification :=
  mkNotification (randomUUID k) (u_id u) (t_id task) message type false
    (nowISOString k) true.

(** [addNotification] stores no such notification in [st], whatever values
    are drawn: the entry does not parse or the storage does not take it. *)
Definition refused `{Runtime} (st : Storage) (u : User) (task : Task)
    (type : NotificationType) (message : string) : Prop :=
  parseOrEmpty (notifications_db st) = None
  ∨ ∀ k, ¬ accepts st (noticeFor u task type message k).

(** Every array of [h] is still in [h'], with the same content. *)
Definition preserves (h h' : Heap) : Prop :=
  ∀ r, r ∈ dom h → h' !! r = h !! r.

(** [r] is an array allocated since [h0], it holds [l] in [h], and the
    arrays of [h0] are as they were. *)
Definition allocatedSince (h0 h : Heap) (r : Ref) (l : list Task) : Prop :=
  (r ∉ dom h0) ∧ h !! r = Some l ∧ preserves h0 h.

(** Some stored notification carries this triple. *)
Definition inStore (st : Storage) (userId taskId : string) (type : NotificationType) : Prop :=
  ∃ m, m ∈ storedNotifications st
       ∧ n_userId m = userId ∧ n_taskId m = taskId ∧ n_type m = type.

(** Every notification the component holds has its (task, type) stored for
    the current user, as when the list was read from the storage. *)
Definition backedByStore (app : App) (w : World) : Prop :=
  ∀ u, user app = Some u →
  ∀ n, n ∈ notifications app → inStore (storage w) (u_id u) (n_taskId n) (n_type n).

(** Two runs of the evaluator at the same time [now], the notification list
    being read again from the storage in between: the state before the
    second run, and the state after it. *)
Definition evaluateTwice `{Runtime} (now : Z) (app : App) (w : World)
    : (App * World) * (App * World) :=
  let first := checkDeadlines now app w in
  let app1 := reloadNotifications first.1 first.2 in
  ((app1, first.2), checkDeadlines now app1 first.2).

(** No id is stored twice. *)
Definition uniqueIds (l : list Task) : Prop := NoDup (t_id <$> l).

(** The tasks the component holds are the stored tasks of its user, in
    their stored order. *)
Definition inSync `{Runtime} (app : App) (w : World) : Prop :=
  ∀ u, user app = Some u → tasks app = getTasks (u_id u) (storage w).

(** Every notification of [l] is still at its place in [l'], changed at
    most in its read flag, and still read if it was. *)
Definition keptIn (l l' : list Notification) : Prop :=
  ∀ i n, l !! i = Some n →
    ∃ n', l' !! i = Some n' ∧ setRead n' = setRead n
          ∧ (n_isRead n = true → n_isRead n' = true).

(** The notifications the component holds are what [getNotifications]
    gives for its user. *)
Definition notificationsInSync `{Runtime} (app : App) (w : World) : Prop :=
  ∀ u, user app = Some u → notifications app = getNotifications (u_id u) (storage w).

(** An action keeps the held notifications in step when it is not
    [handleMarkRead], or when no notification id is stored twice. *)
Definition markReadIsExact (s : App * World) (a : Action) : Prop :=
  match a with
  | HandleMarkRead _ => NoDup (n_id <$> storedNotifications (storage s.2))
  | _ => True
  end.

(** The evaluator builds a notification for [task]: it is classified and
    the held list has no notification of that type for it. *)
Definition needsNotice `{Runtime} (now : Z) (held : list Notification) (task : Task) : Prop :=
  match classify now task with
  | Some (type, _) => ¬ alreadyNotified held task type
  | None => False
  end.

#[global] Instance needsNotice_dec `{Runtime} now held task :
  Decision (needsNotice now held task).
Proof. unfold needsNotice. destruct (classify now task) as [[type message]|]; apply _. Defined.

(** ** Sample data *)

Definition taskA : Task :=
  mkTask "a" "alice" "Buy Milk" None "2025-06-10T12:00:00.000Z" Pending None
    "2025-06-01T08:00:00.000Z".
Definition taskB : Task :=
  mkTask "b" "alice" "call mom" (Some "about MILK") "2025-06-09T09:00:00.000Z" Pending
    None "2025-06-02T08:00:00.000Z".
Definition taskC : Task :=
  mkTask "c" "alice" "milk run" None "2025-06-09T09:00:00.000Z" Done
    (Some (Some "2025-06-08T10:00:00.000Z")) "2025-06-03T08:00:00.000Z".
Definition taskD : Task :=
  mkTask "d" "bob" "Taxes" None "2025-06-08T00:00:00.000Z" Pending None
    "2025-06-04T08:00:00.000Z".

(** 2025-06-10T00:00:00.000Z, in milliseconds. *)
Definition sampleNow : Z := 1749513600000.

Definition sampleHeap : Heap := {[ 1%positive := [taskA; taskB; taskC; taskD] ]}.

Definition alice : User :=
  mkUser "alice" "alice" "alice@example.com" None Credentials.

Definition noticeA : Notification :=
  mkNotification "n0" "alice" "a" "late" Overdue true "2025-06-09T00:00:00.000Z" true.

(** * Properties *)

(** ** Lists *)

Lemma filter_none {A} (P : A → Prop) `{∀ x, Decision (P x)} (l : list A) :
  (∀ x, x ∈ l → ¬ P x) → filter P l = [].
Proof.
  induction l as [|x l IH]; intros Hl; [done|].
  rewrite filter_cons_False by (apply Hl; left).
  apply IH. intros y Hy. apply Hl. by right.
Qed.

Lemma filter_all {A} (P : A → Prop) `{∀ x, Decision (P x)} (l : list A) :
  (∀ x, x ∈ l → P x) → filter P l = l.
Proof.
  induction l as [|x l IH]; intros Hl; [done|].
  rewrite filter_cons_True by (apply Hl; left).
  f_equal. apply IH. intros y Hy. apply Hl. by right.
Qed.

Lemma StronglySorted_weaken_in {A} (R R' : A → A → Prop) l :
  (∀ x y, x ∈ l → y ∈ l → R x y → R' x y) → StronglySorted R l → StronglySorted R' l.
Proof.
  intros HR Hs. induction Hs as [|x l Hl IH Hx]; constructor.
  - apply IH. intros a b Ha Hb. apply HR; by right.
  - rewrite Forall_forall in *. intros y Hy. apply HR; [left | by right | by apply Hx].
Qed.

(** ** Array.prototype.sort *)

Section SortFacts.
Context {A : Type} (compareFn : A → A → Z).

Lemma insertSorted_Permutation x l : insertSorted compareFn x l ≡ₚ x :: l.
Proof.
  induction l as [|y l IH]; [done|]. simpl.
  destruct (compareFn x y <=? 0)%Z; [done|].
  rewrite IH. apply Permutation_swap.
Qed.

Lemma sortWith_Permutation l : sortWith compareFn l ≡ₚ l.
Proof.
  induction l as [|x l IH]; [done|]. simpl.
  rewrite insertSorted_Permutation. by f_equiv.
Qed.

Lemma sortWith_elem_of l x : x ∈ sortWith compareFn l ↔ x ∈ l.
Proof. by rewrite sortWith_Permutation. Qed.

(** Stability: tasks that [compareFn] cannot tell apart by their key are
    never moved past one another. *)
Section Stable.
Context {K : Type} `{EqDecision K} (key : A → K).
Hypothesis equal_keys : ∀ x y, key x = key y → (compareFn x y ≤ 0)%Z.

Lemma insertSorted_stable k x l :
  filter (λ y, key y = k) (insertSorted compareFn x l)
  = filter (λ y, key y = k) (x :: l).
Proof using equal_keys.
  induction l as [|y l IH]; [done|]. simpl.
  destruct (compareFn x y <=? 0)%Z eqn:E; [done|].
  apply Z.leb_gt in E.
  assert (key x ≠ key y) as Hne by (intros Heq; apply equal_keys in Heq; lia).
  rewrite (filter_cons _ y), IH, !(filter_cons _ x), (filter_cons _ y l).
  repeat case_decide; congruence.
Qed.

Lemma sortWith_stable k l :
  filter (λ y, key y = k) (sortWith compareFn l) = filter (λ y, key y = k) l.
Proof using equal_keys.
  induction l as [|x l IH]; [done|]. simpl.
  rewrite insertSorted_stable, !(filter_cons _ x), IH. done.
Qed.
End Stable.

(** Order: for a comparison that is total and transitive the result is
    sorted. *)
Section Ordered.
Hypothesis total : ∀ x y, (0 < compareFn x y)%Z → (compareFn y x ≤ 0)%Z.
Hypothesis transitive :
  ∀ x y z, (compareFn x y ≤ 0)%Z → (compareFn y z ≤ 0)%Z → (compareFn x z ≤ 0)%Z.

Let before (x y : A) : Prop := (compareFn x y ≤ 0)%Z.

Lemma insertSorted_sorted x l :
  StronglySorted before l → StronglySorted before (insertSorted compareFn x l).
Proof using total transitive.
  induction 1 as [|y l Hl IH Hy]; simpl.
  - repeat constructor.
  - destruct (compareFn x y <=? 0)%Z eqn:E.
    + apply Z.leb_le in E. constructor; [by constructor|].
      constructor; [done|].
      eapply Forall_impl; [exact Hy|]. intros z Hz. by eapply transitive.
    + apply Z.leb_gt in E. constructor; [done|].
      rewrite insertSorted_Permutation. constructor; [|done].
      by apply total.
Qed.

Lemma sortWith_sorted l : StronglySorted before (sortWith compareFn l).
Proof using total transitive.
  induction l as [|x l IH]; simpl; [constructor | by apply insertSorted_sorted].
Qed.
End Ordered.
End SortFacts.

Lemma insertSorted_map {A B} (cmpA : A → A → Z) (cmpB : B → B → Z) (g : A → B) x l :
  (∀ a b, cmpB (g a) (g b) = cmpA a b) →
  insertSorted cmpB (g x) (map g l) = map g (insertSorted cmpA x l).
Proof.
  intros Hg. induction l as [|y l IH]; [done|]. simpl. rewrite Hg.
  destruct (cmpA x y <=? 0)%Z; [done|]. simpl. by rewrite IH.
Qed.

Lemma sortWith_map {A B} (cmpA : A → A → Z) (cmpB : B → B → Z) (g : A → B) l :
  (∀ a b, cmpB (g a) (g b) = cmpA a b) →
  sortWith cmpB (map g l) = map g (sortWith cmpA l).
Proof.
  intros Hg. induction l as [|x l IH]; [done|]. simpl.
  rewrite IH. by apply insertSorted_map.
Qed.

Lemma insertSorted_ext_in {A} (c1 c2 : A → A → Z) x l :
  (∀ b, b ∈ l → c1 x b = c2 x b) → insertSorted c1 x l = insertSorted c2 x l.
Proof.
  induction l as [|y l IH]; intros Hc; [done|]. simpl.
  rewrite (Hc y) by left. rewrite IH; [done|].
  intros b Hb. apply Hc. by right.
Qed.

Lemma sortWith_ext_in {A} (c1 c2 : A → A → Z) l :
  (∀ a b, a ∈ l → b ∈ l → c1 a b = c2 a b) → sortWith c1 l = sortWith c2 l.
Proof.
  induction l as [|x l IH]; intros Hc; [done|]. simpl.
  rewrite IH by (intros a b Ha Hb; apply Hc; by right).
  apply insertSorted_ext_in. intros b Hb%sortWith_elem_of.
  apply Hc; [left | by right].
Qed.

Lemma StronglySorted_weaken {A} (R R' : A → A → Prop) l :
  (∀ x y, R x y → R' x y) → StronglySorted R l → StronglySorted R' l.
Proof.
  intros HR. induction 1 as [|x l Hl IH Hx]; constructor; [done|].
  eapply Forall_impl; [exact Hx|]. auto.
Qed.

(** *** The stable sort by a key is unique *)

Section KeySort.
Context {A : Type} (key : A → Z).

Let byKey (a b : A) : Z := (key a - key b)%Z.
Let upTo (a b : A) : Prop := (key a ≤ key b)%Z.

Lemma sortWith_byKey_sorted l : StronglySorted upTo (sortWith byKey l).
Proof.
  eapply StronglySorted_weaken; [|apply (sortWith_sorted byKey); unfold byKey; intros; lia].
  unfold byKey, upTo. intros x y. lia.
Qed.

Lemma sortWith_byKey_stable k l :
  filter (λ y, key y = k) (sortWith byKey l) = filter (λ y, key y = k) l.
Proof.
  apply (sortWith_stable byKey key). unfold byKey. intros x y Heq. lia.
Qed.

Lemma filter_key_head x l : filter (λ y, key y = key x) (x :: l) = x :: filter (λ y, key y = key x) l.
Proof. by rewrite filter_cons_True. Qed.

Lemma stable_sorted_unique l1 l2 :
  StronglySorted upTo l1 → StronglySorted upTo l2 →
  (∀ k, filter (λ y, key y = k) l1 = filter (λ y, key y = k) l2) →
  l1 = l2.
Proof.
  intros H1. revert l2. induction H1 as [|x l1 Hs1 IH Hx]; intros l2 H2 Hf.
  - destruct l2 as [|y l2]; [done|].
    specialize (Hf (key y)). rewrite filter_key_head in Hf. done.
  - destruct l2 as [|y l2].
    { specialize (Hf (key x)). rewrite filter_key_head in Hf. done. }
    apply StronglySorted_cons in H2 as [Hy Hs2].
    assert (key x ≤ key y)%Z as Hxy.
    { assert (y ∈ x :: l1) as Hin.
      { eapply (list_elem_of_filter (λ z, key z = key y)). rewrite Hf, filter_key_head. left. }
      apply elem_of_cons in Hin as [->|Hin]; [lia|].
      rewrite Forall_forall in Hx. by apply Hx. }
    assert (key y ≤ key x)%Z as Hyx.
    { assert (x ∈ y :: l2) as Hin.
      { eapply (list_elem_of_filter (λ z, key z = key x)). rewrite <- Hf, filter_key_head. left. }
      apply elem_of_cons in Hin as [->|Hin]; [lia|].
      rewrite Forall_forall in Hy. by apply Hy. }
    assert (x = y) as <-.
    { pose proof (Hf (key x)) as Hk. rewrite filter_key_head in Hk.
      rewrite filter_cons_True in Hk by lia. congruence. }
    f_equal. apply IH; [done|]. intros k. specialize (Hf k).
    rewrite !(filter_cons _ x) in Hf. case_decide; congruence.
Qed.

Lemma sortWith_byKey_unique l out :
  StronglySorted upTo out →
  (∀ k, filter (λ y, key y = k) out = filter (λ y, key y = k) l) →
  out = sortWith byKey l.
Proof.
  intros Hs Hf. apply stable_sorted_unique; [done | apply sortWith_byKey_sorted |].
  intros k. by rewrite sortWith_byKey_stable.
Qed.
End KeySort.

(** *** The short-array sort of V8 *)

Section ShortArrayFacts.
Context {A : Type} (compareFn : A → A → option Z).

Lemma binaryInsert_Permutation work pivot :
  binaryInsert compareFn work pivot ≡ₚ pivot :: work.
Proof.
  unfold binaryInsert. rewrite <- Permutation_middle. by rewrite take_drop.
Qed.

Lemma foldl_binaryInsert_Permutation run rest :
  foldl (binaryInsert compareFn) run rest ≡ₚ run ++ rest.
Proof.
  revert run. induction rest as [|x rest IH]; intros run; simpl.
  - by rewrite app_nil_r.
  - rewrite IH, binaryInsert_Permutation. by rewrite <- Permutation_middle.
Qed.

Lemma countAndMakeRun_Permutation l :
  (countAndMakeRun compareFn l).1 ++ (countAndMakeRun compareFn l).2 ≡ₚ l.
Proof.
  destruct l as [|x [|y l]]; [done..|].
  unfold countAndMakeRun. cbv zeta.
  destruct (order compareFn y x <? 0)%Z; cbn [fst snd];
    rewrite ?reverse_Permutation; by rewrite take_drop.
Qed.

Lemma shortArraySort_Permutation l : shortArraySort compareFn l ≡ₚ l.
Proof.
  unfold shortArraySort.
  pose proof (countAndMakeRun_Permutation l) as Hp.
  destruct (countAndMakeRun compareFn l) as [run rest].
  by rewrite foldl_binaryInsert_Permutation.
Qed.
End ShortArrayFacts.

Section ShortArrayNatural.
Context {A B : Type} (g : A → B).
Context (cmpA : A → A → option Z) (cmpB : B → B → option Z).
Hypothesis cmp_g : ∀ a b, cmpB (g a) (g b) = cmpA a b.

Lemma order_map a b : order cmpB (g a) (g b) = order cmpA a b.
Proof using cmp_g. unfold order. by rewrite cmp_g. Qed.

Lemma binarySearch_map fuel work pivot left right :
  binarySearch cmpB fuel (g <$> work) (g pivot) left right
  = binarySearch cmpA fuel work pivot left right.
Proof using cmp_g.
  revert left right. induction fuel as [|fuel IH]; intros left right; [done|].
  simpl. case_decide; [|done].
  rewrite list_lookup_fmap.
  destruct (work !! _) as [x|]; [|done]. simpl.
  rewrite order_map. by rewrite !IH.
Qed.

Lemma binaryInsert_map work pivot :
  binaryInsert cmpB (g <$> work) (g pivot) = g <$> binaryInsert cmpA work pivot.
Proof using cmp_g.
  unfold binaryInsert. rewrite length_fmap, binarySearch_map.
  by rewrite fmap_app, fmap_cons, fmap_take, fmap_drop.
Qed.

Lemma foldl_binaryInsert_map run rest :
  foldl (binaryInsert cmpB) (g <$> run) (g <$> rest)
  = g <$> foldl (binaryInsert cmpA) run rest.
Proof using cmp_g.
  revert run. induction rest as [|x rest IH]; intros run; [done|].
  simpl. by rewrite binaryInsert_map, IH.
Qed.

Lemma continueRun_map isDescending previousElement l :
  continueRun cmpB isDescending (g previousElement) (g <$> l)
  = continueRun cmpA isDescending previousElement l.
Proof using cmp_g.
  revert previousElement. induction l as [|x l IH]; intros previousElement; [done|].
  simpl. rewrite order_map, IH. done.
Qed.

Lemma countAndMakeRun_map l :
  countAndMakeRun cmpB (g <$> l)
  = (g <$> (countAndMakeRun cmpA l).1, g <$> (countAndMakeRun cmpA l).2).
Proof using cmp_g.
  destruct l as [|x [|y l]]; [done..|].
  unfold countAndMakeRun. rewrite !fmap_cons. cbv zeta.
  rewrite order_map, continueRun_map.
  rewrite <- !fmap_cons.
  destruct (order cmpA y x <? 0)%Z; cbn [fst snd];
    by rewrite ?fmap_reverse, fmap_take, fmap_drop.
Qed.

Lemma shortArraySort_map l :
  shortArraySort cmpB (g <$> l) = g <$> shortArraySort cmpA l.
Proof using cmp_g.
  unfold shortArraySort. rewrite countAndMakeRun_map.
  destruct (countAndMakeRun cmpA l) as [run rest]. cbn [fst snd].
  apply foldl_binaryInsert_map.
Qed.
End ShortArrayNatural.

Lemma StronglySorted_lookup_lt {A} (R : relation A) l i j x y :
  StronglySorted R l → i < j → l !! i = Some x → l !! j = Some y → R x y.
Proof.
  intros Hs. revert i j. induction Hs as [|z l Hs IH Hz]; intros i j Hij Hi Hj; [done|].
  destruct j as [|j]; [lia|]. simpl in Hj.
  destruct i as [|i]; simpl in Hi.
  - injection Hi as ->. rewrite Forall_forall in Hz. apply Hz.
    by eapply list_elem_of_lookup_2.
  - apply (IH i j); [lia|done..].
Qed.

Lemma reverse_short {A} (l : list A) : length l ≤ 1 → reverse l = l.
Proof. destruct l as [|a [|b l]]; simpl; [done..|lia]. Qed.

Section ShortArrayKeyed.
Context {A : Type} (compareFn : A → A → option Z) (key : A → Z) (P : A → Prop).
Hypothesis keyed : ∀ a b, P a → P b → compareFn a b = Some (key a - key b)%Z.

Let upTo (a b : A) : Prop := (key a ≤ key b)%Z.
Let downStrict (a b : A) : Prop := (key b < key a)%Z.

Lemma order_keyed a b : P a → P b → order compareFn a b = (key a - key b)%Z.
Proof using keyed. intros Ha Hb. unfold order. by rewrite keyed. Qed.

Lemma binarySearch_spec fuel work pivot left right :
  StronglySorted upTo work → Forall P work → P pivot →
  left ≤ right → right ≤ length work → right - left ≤ fuel →
  (∀ i x, i < left → work !! i = Some x → (key x ≤ key pivot)%Z) →
  (∀ i x, right ≤ i → work !! i = Some x → (key pivot < key x)%Z) →
  let r := binarySearch compareFn fuel work pivot left right in
  r ≤ length work
  ∧ (∀ i x, i < r → work !! i = Some x → (key x ≤ key pivot)%Z)
  ∧ (∀ i x, r ≤ i → work !! i = Some x → (key pivot < key x)%Z).
Proof using keyed.
  intros Hs HP Hp. revert left right.
  induction fuel as [|fuel IH]; intros left right Hlr Hr Hfuel Hlo Hhi; cbn [binarySearch].
  - split; [lia|]. split; [done|]. intros i x Hi. apply Hhi. lia.
  - case_decide as Hlt; cycle 1.
    { split; [lia|]. split; [done|]. intros i x Hi. apply Hhi. lia. }
    cbv zeta.
    pose proof (Nat.lt_div2 (right - left) ltac:(lia)) as Hdiv.
    set (mid := left + Nat.div2 (right - left)).
    assert (left ≤ mid ∧ mid < right) as [Hm1 Hm2].
    { unfold mid. clear -Hdiv Hlt.
      generalize dependent (Nat.div2 (right - left)). intros; lia. }
    clearbody mid.
    destruct (work !! mid) as [x|] eqn:Hmid; cycle 1.
    { apply lookup_ge_None in Hmid. lia. }
    assert (P x) as Hx.
    { rewrite Forall_forall in HP. apply HP. by eapply list_elem_of_lookup_2. }
    rewrite (order_keyed _ _ Hp Hx).
    destruct (key pivot - key x <? 0)%Z eqn:E.
    + apply Z.ltb_lt in E. apply IH; [lia..|done|].
      intros i y Hi Hy. destruct (decide (i = mid)) as [->|Hne].
      * assert (y = x) as -> by congruence. lia.
      * assert (upTo x y) as Hxy.
        { apply (StronglySorted_lookup_lt upTo work mid i); [done|lia|done..]. }
        unfold upTo in Hxy. lia.
    + apply Z.ltb_ge in E. apply IH; [lia..| |done].
      intros i y Hi Hy. destruct (decide (i = mid)) as [->|Hne].
      * assert (y = x) as -> by congruence. lia.
      * assert (upTo y x) as Hyx.
        { apply (StronglySorted_lookup_lt upTo work i mid); [done|lia|done..]. }
        unfold upTo in Hyx. lia.
Qed.

Lemma binaryInsert_keyed work pivot :
  StronglySorted upTo work → Forall P work → P pivot →
  StronglySorted upTo (binaryInsert compareFn work pivot)
  ∧ ∀ k, filter (λ y, key y = k) (binaryInsert compareFn work pivot)
         = filter (λ y, key y = k) (work ++ [pivot]).
Proof using keyed.
  intros Hs HP Hp. unfold binaryInsert.
  destruct (binarySearch_spec (length work) work pivot 0 (length work))
    as (Hr & Hlo & Hhi); [done..|lia|lia|lia| | |]; cbv zeta.
  { intros i x Hi. lia. }
  { intros i x Hi Hx. apply lookup_lt_Some in Hx. lia. }
  set (r := binarySearch compareFn (length work) work pivot 0 (length work)) in *.
  assert (∀ y, y ∈ drop r work → (key pivot < key y)%Z) as Hdrop.
  { intros y [j Hj]%list_elem_of_lookup. rewrite lookup_drop in Hj.
    apply (Hhi (r + j)); [lia|done]. }
  assert (∀ y, y ∈ take r work → (key y ≤ key pivot)%Z) as Htake.
  { intros y (i & Hi & Hlt)%elem_of_take. by apply (Hlo i). }
  pose proof Hs as Hs'. rewrite <- (take_drop r work) in Hs'.
  apply StronglySorted_app in Hs' as (Hcross & Hs1 & Hs2).
  split.
  - apply StronglySorted_app. split; [|split; [done|]].
    + intros x1 x2 H1 [->|H2]%elem_of_cons; [by apply Htake|].
      by apply Hcross.
    + constructor; [done|]. apply Forall_forall. intros y Hy.
      apply Hdrop in Hy. unfold upTo. lia.
  - intros k. rewrite <- (take_drop r work) at 3.
    rewrite !filter_app, (filter_cons _ pivot), (filter_cons _ pivot []).
    case_decide as Hk.
    + rewrite (filter_none _ (drop r work)).
      * by rewrite app_nil_r.
      * intros y Hy%Hdrop. lia.
    + by rewrite filter_nil, app_nil_r.
Qed.

Lemma foldl_binaryInsert_keyed run rest :
  StronglySorted upTo run → Forall P run → Forall P rest →
  StronglySorted upTo (foldl (binaryInsert compareFn) run rest)
  ∧ ∀ k, filter (λ y, key y = k) (foldl (binaryInsert compareFn) run rest)
         = filter (λ y, key y = k) (run ++ rest).
Proof using keyed.
  revert run. induction rest as [|x rest IH]; intros run Hs HP Hrest.
  - simpl. by rewrite app_nil_r.
  - apply Forall_cons in Hrest as [Hx Hrest]. simpl.
    destruct (binaryInsert_keyed run x Hs HP Hx) as [Hs' Hf'].
    destruct (IH (binaryInsert compareFn run x)) as [Hs'' Hf'']; [done| |done|].
    { rewrite binaryInsert_Permutation. by constructor. }
    split; [done|]. intros k.
    rewrite Hf'', filter_app, Hf', <- filter_app, <- app_assoc. done.
Qed.

Lemma continueRun_ascending previousElement l :
  P previousElement → Forall P l →
  Sorted upTo (previousElement :: take (continueRun compareFn false previousElement l) l).
Proof using keyed.
  revert previousElement. induction l as [|x l IH]; intros previousElement Hp Hl.
  { simpl. repeat constructor. }
  apply Forall_cons in Hl as [Hx Hl]. cbn [continueRun]. cbv zeta.
  rewrite (order_keyed _ _ Hx Hp).
  destruct (key x - key previousElement <? 0)%Z eqn:E.
  - simpl. repeat constructor.
  - apply Z.ltb_ge in E. cbn [take]. constructor; [by apply IH|].
    constructor. unfold upTo. lia.
Qed.

Lemma continueRun_descending previousElement l :
  P previousElement → Forall P l →
  Sorted downStrict (previousElement :: take (continueRun compareFn true previousElement l) l).
Proof using keyed.
  revert previousElement. induction l as [|x l IH]; intros previousElement Hp Hl.
  { simpl. repeat constructor. }
  apply Forall_cons in Hl as [Hx Hl]. cbn [continueRun]. cbv zeta.
  rewrite (order_keyed _ _ Hx Hp).
  destruct (0 <=? key x - key previousElement)%Z eqn:E.
  - simpl. repeat constructor.
  - apply Z.leb_gt in E. cbn [take]. constructor; [by apply IH|].
    constructor. unfold downStrict. lia.
Qed.

Lemma downStrict_filter k l :
  StronglySorted downStrict l → length (filter (λ y, key y = k) l) ≤ 1.
Proof.
  induction 1 as [|x l Hs IH Hx]; [simpl; lia|].
  rewrite filter_cons. case_decide as Hk; [|done].
  rewrite filter_none; [simpl; lia|].
  rewrite Forall_forall in Hx. intros y Hy%Hx. unfold downStrict in Hy. lia.
Qed.

Lemma countAndMakeRun_keyed l :
  Forall P l →
  StronglySorted upTo (countAndMakeRun compareFn l).1
  ∧ ∀ k, filter (λ y, key y = k)
           ((countAndMakeRun compareFn l).1 ++ (countAndMakeRun compareFn l).2)
         = filter (λ y, key y = k) l.
Proof using keyed.
  assert (Transitive upTo) as Hup by (intros x y z; unfold upTo; lia).
  assert (Transitive downStrict) as Hdown by (intros x y z; unfold downStrict; lia).
  intros HP. destruct l as [|x [|y l]].
  { split; [constructor | done]. }
  { split; [repeat constructor | done]. }
  apply Forall_cons in HP as [Hx HP]. apply Forall_cons in HP as [Hy HP].
  unfold countAndMakeRun. cbv zeta. rewrite (order_keyed _ _ Hy Hx).
  set (n := λ d, 2 + continueRun compareFn d y l).
  destruct (key y - key x <? 0)%Z eqn:E; cbn [fst snd].
  - apply Z.ltb_lt in E.
    assert (StronglySorted downStrict (take (n true) (x :: y :: l))) as Hs.
    { apply Sorted_StronglySorted; [done|]. unfold n. cbn [Nat.add take].
      constructor; [by apply continueRun_descending|].
      constructor. unfold downStrict. lia. }
    split.
    + apply (StronglySorted_weaken (flip downStrict)).
      { unfold downStrict, upTo. simpl. intros a b. lia. }
      apply Sorted_StronglySorted; [intros a b c; unfold downStrict; simpl; lia|].
      apply Sorted_reverse. by apply StronglySorted_Sorted.
    + intros k. rewrite filter_app, filter_reverse.
      rewrite reverse_short by (by apply downStrict_filter).
      by rewrite <- filter_app, take_drop.
  - apply Z.ltb_ge in E. split.
    + apply Sorted_StronglySorted; [done|]. unfold n. cbn [Nat.add take].
      constructor; [by apply continueRun_ascending|].
      constructor. unfold upTo. lia.
    + intros k. by rewrite take_drop.
Qed.
End ShortArrayKeyed.

Lemma shortArraySort_keyed {A} (compareFn : A → A → option Z) (key : A → Z) l :
  (∀ a b, a ∈ l → b ∈ l → compareFn a b = Some (key a - key b)%Z) →
  shortArraySort compareFn l = sortWith (λ a b, (key a - key b)%Z) l.
Proof.
  intros Hk. apply (sortWith_byKey_unique key).
  - unfold shortArraySort.
    destruct (countAndMakeRun_keyed compareFn key (.∈ l) Hk l) as [Hs Hf].
    { by apply Forall_forall. }
    pose proof (countAndMakeRun_Permutation compareFn l) as Hp.
    destruct (countAndMakeRun compareFn l) as [run rest]. cbn [fst snd] in *.
    apply (foldl_binaryInsert_keyed compareFn key (.∈ l) Hk); [done| |].
    + apply Forall_forall. intros a Ha. rewrite <- Hp. set_solver.
    + apply Forall_forall. intros a Ha. rewrite <- Hp. set_solver.
  - intros k. unfold shortArraySort.
    destruct (countAndMakeRun_keyed compareFn key (.∈ l) Hk l) as [Hs Hf].
    { by apply Forall_forall. }
    pose proof (countAndMakeRun_Permutation compareFn l) as Hp.
    destruct (countAndMakeRun compareFn l) as [run rest]. cbn [fst snd] in *.
    rewrite <- Hf.
    apply (foldl_binaryInsert_keyed compareFn key (.∈ l) Hk); [done| |].
    + apply Forall_forall. intros a Ha. rewrite <- Hp. set_solver.
    + apply Forall_forall. intros a Ha. rewrite <- Hp. set_solver.
Qed.

(** *** The runtimes used in the examples *)

Section InsertionSort.
Context {A : Type}.

Lemma insertionSort_permutation (compareFn : A → A → option Z) l :
  sortWith (order compareFn) l ≡ₚ l.
Proof. apply sortWith_Permutation. Qed.

Lemma insertionSort_keyed (compareFn : A → A → option Z) (key : A → Z) l :
  (∀ a b, a ∈ l → b ∈ l → compareFn a b = Some (key a - key b)%Z) →
  sortWith (order compareFn) l = sortWith (λ a b, (key a - key b)%Z) l.
Proof.
  intros Hk. apply sortWith_ext_in. intros a b Ha Hb.
  unfold order. by rewrite Hk.
Qed.
End InsertionSort.

Lemma insertionSort_natural {A B} (g : A → B) (cmpA : A → A → option Z)
    (cmpB : B → B → option Z) l :
  (∀ a b, cmpB (g a) (g b) = cmpA a b) →
  sortWith (order cmpB) (map g l) = map g (sortWith (order cmpA) l).
Proof. intros Hg. apply sortWith_map. intros a b. by apply order_map. Qed.

Lemma v8Sort_permutation {A} (compareFn : A → A → option Z) l :
  v8Sort compareFn l ≡ₚ l.
Proof.
  unfold v8Sort. case_decide;
    [apply shortArraySort_Permutation | apply sortWith_Permutation].
Qed.

Lemma v8Sort_keyed {A} (compareFn : A → A → option Z) (key : A → Z) l :
  (∀ a b, a ∈ l → b ∈ l → compareFn a b = Some (key a - key b)%Z) →
  v8Sort compareFn l = sortWith (λ a b, (key a - key b)%Z) l.
Proof.
  intros Hk. unfold v8Sort. case_decide;
    [by apply shortArraySort_keyed | by apply insertionSort_keyed].
Qed.

Lemma v8Sort_natural {A B} (g : A → B) (cmpA : A → A → option Z)
    (cmpB : B → B → option Z) l :
  (∀ a b, cmpB (g a) (g b) = cmpA a b) →
  v8Sort cmpB (map g l) = map g (v8Sort cmpA l).
Proof.
  intros Hg. unfold v8Sort. rewrite length_map. case_decide.
  - by apply (shortArraySort_map g cmpA cmpB).
  - by apply insertionSort_natural.
Qed.

Lemma overLimit_grows limit st l l2 (n n' : Notification) :
  n_message n' = n_message n →
  overLimit limit (setNotifications (Rows (l ++ [n])) st) = true →
  overLimit limit (setNotifications (Rows (l ++ l2 ++ [n'])) st) = true.
Proof.
  unfold overLimit, messageLoad, storedNotifications, rowsOf. simpl.
  intros Hm. rewrite !bool_decide_eq_true, !sum_list_with_app. simpl.
  rewrite Hm. lia.
Qed.

Lemma overLimit_redrawn limit (uuid time : nat → string) st l l2 k k' n :
  overLimit limit
    (setNotifications
       (Rows (l ++ [mkNotification (uuid k) (n_userId n) (n_taskId n) (n_message n)
                      (n_type n) (n_isRead n) (time k) (n_emailSent n)])) st) = true →
  overLimit limit
    (setNotifications
       (Rows (l ++ l2 ++ [mkNotification (uuid k') (n_userId n) (n_taskId n)
                            (n_message n) (n_type n) (n_isRead n) (time k')
                            (n_emailSent n)])) st) = true.
Proof. by apply overLimit_grows. Qed.

(** Dates in the format of [toISOString], a storage without quota, and the
    stable insertion sort. *)
Definition sampleRuntime : Runtime :=
  {| getTime := parseDate;
     toLowerCase := lowerString;
     randomUUID := λ k, "uuid-" +:+ pretty k;
     nowISOString := secondOfSampleDay;
     overQuota := λ _, false;
     overQuota_grows := λ _ _ _ _ _ _ H, H;
     jsSort := λ A compareFn, sortWith (order compareFn);
     jsSort_permutation := @insertionSort_permutation;
     jsSort_keyed := @insertionSort_keyed;
     jsSort_natural := @insertionSort_natural |}.

(** The same with a quota on the stored notifications. *)
Definition quotaRuntime (limit : nat) : Runtime :=
  {| getTime := parseDate;
     toLowerCase := lowerString;
     randomUUID := λ k, "uuid-" +:+ pretty k;
     nowISOString := secondOfSampleDay;
     overQuota := overLimit limit;
     overQuota_grows := overLimit_redrawn limit _ _;
     jsSort := λ A compareFn, sortWith (order compareFn);
     jsSort_permutation := @insertionSort_permutation;
     jsSort_keyed := @insertionSort_keyed;
     jsSort_natural := @insertionSort_natural |}.

(** A storage that has no room left for a notification. *)
Definition fullRuntime : Runtime := quotaRuntime 0.

(** The same as [sampleRuntime] with the sort of V8. *)
Definition v8Runtime : Runtime :=
  {| getTime := parseDate;
     toLowerCase := lowerString;
     randomUUID := λ k, "uuid-" +:+ pretty k;
     nowISOString := secondOfSampleDay;
     overQuota := λ _, false;
     overQuota_grows := λ _ _ _ _ _ _ H, H;
     jsSort := @v8Sort;
     jsSort_permutation := @v8Sort_permutation;
     jsSort_keyed := @v8Sort_keyed;
     jsSort_natural := @v8Sort_natural |}.

(** ** Entries and rows *)

Lemma getTasks_stored userId st :
  getTasks userId st = filter (λ t, t_userId t = userId) (storedTasks st).
Proof.
  unfold getTasks, storedTasks, rowsOf.
  destruct (parseOrEmpty (tasks_db st)) as [[rows|]|]; reflexivity.
Qed.

Lemma saveTask_stored task st :
  storedTasks (saveTask task st).2 = upsert task (storedTasks st).
Proof.
  unfold saveTask, storedTasks at 2, rowsOf. simpl.
  destruct (parseOrEmpty (tasks_db st)) as [[rows|]|]; reflexivity.
Qed.

Lemma deleteTask_stored taskId st :
  storedTasks (deleteTask taskId st) = filter (λ t, t_id t ≠ taskId) (storedTasks st).
Proof.
  unfold deleteTask, storedTasks, rowsOf.
  destruct (parseOrEmpty (tasks_db st)) as [[rows|]|] eqn:E; simpl; rewrite ?E; reflexivity.
Qed.

Lemma deleteAllTasks_stored userId st :
  storedTasks (deleteAllTasks userId st)
  = filter (λ t, t_userId t ≠ userId) (storedTasks st).
Proof.
  unfold deleteAllTasks, storedTasks, rowsOf.
  destruct (parseOrEmpty (tasks_db st)) as [[rows|]|] eqn:E; simpl; rewrite ?E; reflexivity.
Qed.

(** ** upsert *)

Section Upsert.
Variable task : Task.

Let sameId (t : Task) : Prop := t_id t = t_id task.

Lemma upsert_replace l i x :
  list_find sameId l = Some (i, x) → upsert task l = <[i := task]> l.
Proof. unfold upsert. fold sameId. by intros ->. Qed.

Lemma upsert_append l :
  list_find sameId l = None → upsert task l = l ++ [task].
Proof. unfold upsert. fold sameId. by intros ->. Qed.

Lemma upsert_elem l : task ∈ upsert task l.
Proof.
  destruct (list_find sameId l) as [[i x]|] eqn:E.
  - rewrite (upsert_replace _ _ _ E).
    apply list_find_Some in E as (Hi & _ & _).
    apply list_elem_of_lookup. exists i.
    apply list_lookup_insert_eq. by eapply lookup_lt_Some.
  - rewrite (upsert_append _ E). set_solver.
Qed.

Lemma upsert_from l x : x ∈ upsert task l → x = task ∨ x ∈ l.
Proof.
  destruct (list_find sameId l) as [[i y]|] eqn:E.
  - rewrite (upsert_replace _ _ _ E).
    intros [j Hj]%list_elem_of_lookup.
    destruct (decide (i = j)) as [->|Hne].
    + left. apply list_find_Some in E as (Hi & _ & _).
      rewrite list_lookup_insert_eq in Hj by (by eapply lookup_lt_Some).
      congruence.
    + right. rewrite list_lookup_insert_ne in Hj by done.
      by eapply list_elem_of_lookup_2.
  - rewrite (upsert_append _ E).
    intros [?| ->%list_elem_of_singleton]%elem_of_app; auto.
Qed.
End Upsert.

(** C1. After [saveTask task], [getTasks] for the owner of [task] returns a
    list that holds [task] itself, with every field as it was saved, and
    [saveTask] returns [task]; this is so whatever the tasks entry held. *)
Theorem saveTask_roundtrip (task : Task) (st : Storage) :
  (saveTask task st).1 = task
  ∧ task ∈ getTasks (t_userId task) (saveTask task st).2.
Proof.
  split; [reflexivity|].
  rewrite getTasks_stored, saveTask_stored.
  apply list_elem_of_filter. split; [reflexivity | apply upsert_elem].
Qed.

(** C2. When the id of [task] occurs in the stored collection, [saveTask]
    overwrites one entry, the first with that id: the size is unchanged,
    every entry with another id stays where it was, and every position but
    the overwritten one is unchanged. When no entry has the id, [task] is
    appended. *)
Theorem saveTask_upsert (task : Task) (st : Storage) :
  let before := storedTasks st in
  let after := storedTasks (saveTask task st).2 in
  ((∃ x, x ∈ before ∧ t_id x = t_id task) →
     length after = length before
     ∧ (∀ j y, before !! j = Some y → t_id y ≠ t_id task → after !! j = Some y)
     ∧ ∃ i x, before !! i = Some x ∧ t_id x = t_id task
         ∧ after !! i = Some task
         ∧ ∀ j, j ≠ i → after !! j = before !! j)
  ∧ ((∀ x, x ∈ before → t_id x ≠ t_id task) → after = before ++ [task]).
Proof.
  intros before after. subst after. rewrite saveTask_stored. fold before.
  split.
  - intros (x & Hx & Hid).
    destruct (list_find_elem_of (λ t, t_id t = t_id task) before x Hx Hid)
      as [[i y] E].
    rewrite (upsert_replace _ _ _ _ E).
    apply list_find_Some in E as (Hi & Hy & Hfirst).
    split; [apply length_insert|]. split.
    + intros j z Hj Hne. rewrite list_lookup_insert_ne; [done|].
      intros ->. congruence.
    + exists i, y. repeat split; try done.
      * apply list_lookup_insert_eq. by eapply lookup_lt_Some.
      * intros j Hne. by rewrite list_lookup_insert_ne.
  - intros Hnone. apply upsert_append. apply list_find_None.
    apply Forall_forall. intros x Hx. by apply Hnone.
Qed.

(** An entry is overwritten in place; with two entries under one id, the
    first is; a task with a new id goes to the end. *)
Example saveTask_sample :
  let edited := mkTask "b" "alice" "call dad" None "1500" Done (Some None) "20" in
  let st := setTasks (Rows [taskA; taskB; taskC; taskB]) emptyStorage in
  storedTasks (saveTask edited st).2 = [taskA; edited; taskC; taskB]
  ∧ storedTasks (saveTask taskD st).2 = [taskA; taskB; taskC; taskB; taskD]
  ∧ storedTasks (saveTask taskD (setTasks Unparsable emptyStorage)).2 = [taskD]
  ∧ getTasks "bob" (saveTask taskD st).2 = [taskD].
Proof. vm_compute. done. Qed.

(** C6. [deleteAllTasks userId] keeps exactly the stored tasks of the other
    owners, in their order: no task of [userId] is left, what any other
    user reads is unchanged, and the other two entries are not written. *)
Theorem deleteAllTasks_isolation (userId : string) (st : Storage) :
  let st' := deleteAllTasks userId st in
  storedTasks st' = filter (λ t, t_userId t ≠ userId) (storedTasks st)
  ∧ getTasks userId st' = []
  ∧ (∀ other, other ≠ userId → getTasks other st' = getTasks other st)
  ∧ users_db st' = users_db st
  ∧ notifications_db st' = notifications_db st.
Proof.
  intros st'. subst st'.
  split; [apply deleteAllTasks_stored|].
  split; [|split].
  - rewrite getTasks_stored, deleteAllTasks_stored, list_filter_filter.
    apply filter_none. intros t _ [Heq Hne]. by apply Hne.
  - intros other Hne. rewrite !getTasks_stored, deleteAllTasks_stored, list_filter_filter.
    apply list_filter_iff. intros t. split; [tauto|].
    intros Heq. split; [done | congruence].
  - unfold deleteAllTasks.
    destruct (parseOrEmpty (tasks_db st)) as [[rows|]|]; done.
Qed.

(** ** Ownership of stored tasks *)

Lemma perform_tasks `{Runtime} st op x :
  x ∈ storedTasks (perform st op) → x ∈ storedTasks st ∨ op = SaveTask x.
Proof.
  destruct op; cbn [perform]; auto.
  - rewrite saveTask_stored. intros [->|Hx]%upsert_from; auto.
  - rewrite deleteTask_stored. intros [_ Hx]%list_elem_of_filter. auto.
  - rewrite deleteAllTasks_stored. intros [_ Hx]%list_elem_of_filter. auto.
  - unfold addNotification.
    destruct (parseOrEmpty (notifications_db st)) as [all|]; auto.
    destruct (list_find _ _); auto. cbv zeta. destruct (overQuota _); auto.
  - unfold markNotificationRead.
    destruct (parseOrEmpty (notifications_db st)) as [[all|]|]; auto.
    destruct (list_find _ _) as [[idx n]|]; auto.
  - unfold markAllNotificationsRead.
    destruct (parseOrEmpty (notifications_db st)) as [[all|]|]; auto.
  - unfold register. destruct (list_find _ _); auto.
Qed.

Lemma respectsOwners_app `{Runtime} st pre post :
  respectsOwners st (pre ++ post)
  ↔ respectsOwners st pre ∧ respectsOwners (performAll st pre) post.
Proof.
  revert st. induction pre as [|op pre IH]; intros st; simpl; [tauto|].
  rewrite IH. tauto.
Qed.

(** C9 as stated fails: with one stored task of alice, saving a
    task with the same id and owner bob replaces it, and the stored task
    with that id now belongs to bob. *)
Lemma saveTask_changes_owner :
  let mine := mkTask "t1" "alice" "Buy milk" None "1000" Pending None "10" in
  let theirs := mkTask "t1" "bob" "Buy milk" None "1000" Pending None "10" in
  let st := setTasks (Rows [mine]) emptyStorage in
  storedTasks st = [mine]
  ∧ storedTasks (@performAll sampleRuntime st [SaveTask theirs]) = [theirs]
  ∧ t_id theirs = t_id mine
  ∧ t_userId theirs ≠ t_userId mine.
Proof. repeat split; done. Qed.

(** C9, amended. [saveTask] puts its argument in place of the stored entry
    with the same id without looking at the owners. Along any sequence of
    facade calls in which every [saveTask] carries the owner already stored
    under its id, each call leaves every stored task whose id was already
    stored with an owner that id already had; the calls other than
    [saveTask] store no task that was not stored before. *)
Theorem owner_kept_along `{Runtime} (st : Storage) (pre post : list Operation)
    (op : Operation) :
  respectsOwners st (pre ++ op :: post) →
  let s := performAll st pre in
  ∀ x, x ∈ storedTasks (perform s op) →
    ((∀ task, op ≠ SaveTask task) → x ∈ storedTasks s)
    ∧ (idStored s x → ownerKept s x).
Proof.
  intros Hall s x Hx.
  apply respectsOwners_app in Hall as [_ [Hop _]]. fold s in Hop.
  destruct (perform_tasks _ _ _ Hx) as [Hold| ->].
  - split; [done|]. intros _. by exists x.
  - split; [intros Hne; by destruct (Hne x)|].
    intros (y & Hy & Hid). exists y. split; [done|]. split; [done|].
    by apply Hop.
Qed.

Lemma owner_kept_along_witness :
  let mine := mkTask "t1" "alice" "Buy milk" None "1000" Pending None "10" in
  let edited :=
    mkTask "t1" "alice" "Buy oat milk" None "2000" Done (Some (Some "1500")) "10" in
  let other := mkTask "t2" "bob" "Call" None "3000" Pending None "20" in
  let s := @performAll sampleRuntime emptyStorage [SaveTask mine; SaveTask other] in
  storedTasks (@perform sampleRuntime s (SaveTask edited)) = [edited; other]
  ∧ ownerKept s edited.
Proof.
  intros mine edited other s. split; [reflexivity|].
  assert (@respectsOwners sampleRuntime emptyStorage
            ([SaveTask mine; SaveTask other] ++ SaveTask edited :: [DeleteAllTasks "bob"]))
    as Hall.
  { cbn [app respectsOwners respectsOwner].
    repeat split; intros y Hy Hid; vm_compute in Hy;
      repeat (apply elem_of_cons in Hy as [->|Hy]; [done|]);
      by apply elem_of_nil in Hy. }
  apply (@owner_kept_along sampleRuntime emptyStorage [SaveTask mine; SaveTask other]
           [DeleteAllTasks "bob"] (SaveTask edited) Hall edited).
  - left.
  - exists mine. split; [left | reflexivity].
Defined.

(** ** addNotification *)

Lemma sameTriple_triple a b : sameTriple a b ↔ triple b = triple a.
Proof.
  unfold sameTriple, triple. split.
  - intros (-> & -> & ->). done.
  - intros [= -> -> ->]. done.
Qed.

Lemma countTriple_found n l :
  is_Some (list_find (sameTriple n) l) ↔ 0 < countTriple n l.
Proof.
  unfold countTriple. split.
  - intros [[i x] (Hi & Hx & _)%list_find_Some].
    assert (x ∈ filter (sameTriple n) l) as Hin.
    { apply list_elem_of_filter. split; [done|]. by eapply list_elem_of_lookup_2. }
    destruct (filter (sameTriple n) l); [by apply elem_of_nil in Hin | simpl; lia].
  - intros Hpos. destruct (filter (sameTriple n) l) as [|x l'] eqn:E; [simpl in Hpos; lia|].
    assert (x ∈ filter (sameTriple n) l) as [Hx Hin]%list_elem_of_filter
      by (rewrite E; left).
    by eapply list_find_elem_of.
Qed.

Lemma uniqueTriples_count n l : uniqueTriples l → countTriple n l ≤ 1.
Proof.
  unfold uniqueTriples, countTriple. induction l as [|x l IH]; [simpl; lia|].
  rewrite fmap_cons. intros [Hx Hl]%NoDup_cons. rewrite filter_cons.
  case_decide as Hsame; [|by apply IH].
  rewrite filter_none; [simpl; lia|].
  intros y Hy Hy'. apply Hx. apply list_elem_of_fmap. exists y. split; [|done].
  apply sameTriple_triple in Hsame, Hy'. congruence.
Qed.

Section AddNotification.
Context `{Runtime}.

(** Nothing is written when the entry does not parse, or when the storage
    does not take the longer array: the error is caught. *)
Lemma addNotification_unparsable n st :
  parseOrEmpty (notifications_db st) = None → addNotification n st = st.
Proof. unfold addNotification. by intros ->. Qed.

Lemma safeAll_stored st all :
  parseOrEmpty (notifications_db st) = Some all →
  match all with JArray rows => rows | JOther => [] end = storedNotifications st.
Proof. unfold storedNotifications, rowsOf. by intros ->. Qed.

Lemma addNotification_full n st : ¬ accepts st n → addNotification n st = st.
Proof.
  unfold addNotification, accepts. intros Hfull.
  destruct (parseOrEmpty (notifications_db st)) as [all|] eqn:E; [|done].
  rewrite (safeAll_stored st all E).
  destruct (list_find _ _); [done|]. cbv zeta.
  by destruct (overQuota _).
Qed.

Lemma addNotification_others n st :
  tasks_db (addNotification n st) = tasks_db st
  ∧ users_db (addNotification n st) = users_db st.
Proof.
  unfold addNotification.
  destruct (parseOrEmpty (notifications_db st)) as [all|]; [|done].
  destruct (list_find _ _); [done|]. cbv zeta. by destruct (overQuota _).
Qed.

Lemma addNotification_stored n st :
  parseOrEmpty (notifications_db st) ≠ None →
  accepts st n →
  storedNotifications (addNotification n st)
  = match list_find (sameTriple n) (storedNotifications st) with
    | Some _ => storedNotifications st
    | None => storedNotifications st ++ [n]
    end.
Proof.
  unfold addNotification, accepts.
  destruct (parseOrEmpty (notifications_db st)) as [all|] eqn:E; [|done].
  intros _ Hroom. rewrite (safeAll_stored st all E).
  destruct (list_find _ _); [done|]. cbv zeta. by rewrite Hroom.
Qed.

(** Either way: the stored notifications are as before, or the new one is
    appended, and then none with its triple was stored. *)
Lemma addNotification_appends n st :
  addNotification n st = st
  ∨ (storedNotifications (addNotification n st) = storedNotifications st ++ [n]
     ∧ list_find (sameTriple n) (storedNotifications st) = None
     ∧ parseOrEmpty (notifications_db st) ≠ None
     ∧ accepts st n).
Proof.
  destruct (parseOrEmpty (notifications_db st)) as [all|] eqn:E;
    [|left; by rewrite addNotification_unparsable].
  destruct (decide (accepts st n)) as [Hroom|Hfull];
    [|left; by apply addNotification_full].
  destruct (list_find (sameTriple n) (storedNotifications st)) as [p|] eqn:F.
  - left. unfold addNotification. rewrite E, (safeAll_stored st all E). by rewrite F.
  - right. rewrite addNotification_stored by (done || by rewrite E).
    rewrite F. done.
Qed.

Lemma addNotification_parsable n st :
  parseOrEmpty (notifications_db st) ≠ None →
  parseOrEmpty (notifications_db (addNotification n st)) ≠ None.
Proof.
  unfold addNotification.
  destruct (parseOrEmpty (notifications_db st)) as [all|] eqn:E; [|done].
  intros _. destruct (list_find _ _); [by rewrite E |]. cbv zeta.
  destruct (overQuota _); [by rewrite E | done].
Qed.

Lemma addNotification_uniqueTriples n st :
  uniqueTriples (storedNotifications st) →
  uniqueTriples (storedNotifications (addNotification n st)).
Proof.
  intros Huniq.
  destruct (addNotification_appends n st) as [->|(-> & F & _)]; [done|].
  unfold uniqueTriples. rewrite fmap_app. apply NoDup_app.
  split; [done|]. split; [|apply NoDup_singleton].
  intros k [y [-> Hy]]%list_elem_of_fmap [z [Hk Hz]]%list_elem_of_fmap.
  apply list_elem_of_singleton in Hz as ->.
  apply list_find_None in F. rewrite Forall_forall in F.
  apply (F y Hy). by apply sameTriple_triple.
Qed.
End AddNotification.

(** C3 as stated fails: the write of [addNotification] sits in its [try]
    block. When the storage has no room for the notification the error of
    [setItem] is caught, the call resolves and nothing is stored: two calls
    with the same triple leave no stored notification with it. *)
Lemma addNotification_full_none :
  let n := mkNotification "n1" "alice" "t1" "late" Overdue false
             "2025-06-10T00:00:00.000Z" true in
  let n' := mkNotification "n2" "alice" "t1" "late" Overdue false
              "2025-06-10T00:00:01.000Z" true in
  let st := emptyStorage in
  sameTriple n n'
  ∧ uniqueTriples (storedNotifications st)
  ∧ countTriple n
      (storedNotifications
         (@addNotification fullRuntime n' (@addNotification fullRuntime n st))) = 0.
Proof. repeat split; try done. apply NoDup_nil_2. Qed.

(** C3, amended. Provided the notifications entry is unset or parses and
    the storage takes the stored array with the first notification added,
    so that the write of the first call goes through, two calls of
    [addNotification] with the same (userId, taskId, type) leave exactly
    one stored notification with that triple when the stored ones had no
    triple twice; and after any sequence of calls no triple is stored
    twice, provided none was before. *)
Theorem addNotification_one_per_triple `{Runtime} (st : Storage)
    (n1 n2 : Notification) (ns : list Notification) :
  (parseOrEmpty (notifications_db st) ≠ None →
   overQuota (setNotifications (Rows (storedNotifications st ++ [n1])) st) = false →
   sameTriple n1 n2 →
   uniqueTriples (storedNotifications st) →
   countTriple n1 (storedNotifications (addNotification n2 (addNotification n1 st))) = 1)
  ∧ (uniqueTriples (storedNotifications st) →
     uniqueTriples (storedNotifications (foldl (flip addNotification) st ns))).
Proof.
  split.
  - intros Hparse Hroom Hsame Huniq.
    assert (countTriple n1 (storedNotifications (addNotification n1 st)) = 1) as Hone.
    { rewrite addNotification_stored by done.
      destruct (list_find _ _) as [p|] eqn:F.
      - pose proof (uniqueTriples_count n1 _ Huniq).
        assert (0 < countTriple n1 (storedNotifications st))
          by (apply countTriple_found; by rewrite F).
        lia.
      - unfold countTriple. rewrite filter_app, length_app.
        apply list_find_None in F. rewrite Forall_forall in F.
        rewrite (filter_none _ _ F). simpl.
        rewrite filter_cons_True; [done|]. by unfold sameTriple. }
    destruct (addNotification_appends n2 (addNotification n1 st)) as [->|(_ & F & _)];
      [done|].
    assert (is_Some (list_find (sameTriple n2)
              (storedNotifications (addNotification n1 st)))) as [p Hp];
      [|by rewrite Hp in F].
    apply countTriple_found.
    replace (countTriple n2 _) with
      (countTriple n1 (storedNotifications (addNotification n1 st))); [lia|].
    unfold countTriple. f_equal. apply list_filter_iff. intros x.
    rewrite !sameTriple_triple. apply sameTriple_triple in Hsame.
    split; congruence.
  - revert st. induction ns as [|n ns IH]; intros st Huniq; [done|].
    simpl. apply IH. by apply addNotification_uniqueTriples.
Qed.

Lemma addNotification_one_per_triple_witness :
  let n := mkNotification "n1" "alice" "t1" "late" Overdue false
             "2025-06-10T00:00:00.000Z" true in
  let n' := mkNotification "n2" "alice" "t1" "late" Overdue false
              "2025-06-10T00:00:01.000Z" true in
  let m := mkNotification "n3" "alice" "t2" "soon" Upcoming false
             "2025-06-10T00:00:02.000Z" true in
  let st := setNotifications (Rows [m]) emptyStorage in
  countTriple n
    (storedNotifications
       (@addNotification sampleRuntime n' (@addNotification sampleRuntime n st))) = 1
  ∧ uniqueTriples
      (storedNotifications (foldl (flip (@addNotification sampleRuntime)) st [n; m; n'; n])).
Proof.
  intros n n' m st.
  assert (uniqueTriples (storedNotifications st)) as Huniq.
  { apply NoDup_singleton. }
  split.
  - apply (@addNotification_one_per_triple sampleRuntime st n n' []);
      [done|reflexivity|done|exact Huniq].
  - apply (@addNotification_one_per_triple sampleRuntime st n n' [n; m; n'; n]).
    exact Huniq.
Defined.

(** One notification per triple is kept, and the newest comes first. When
    the entry does not parse, the call stores nothing either. *)
Example addNotification_sample :
  let n := mkNotification "n1" "alice" "t1" "late" Overdue false
             "2025-06-10T00:00:00.000Z" true in
  let n' := mkNotification "n2" "alice" "t1" "late" Overdue false
              "2025-06-10T00:00:01.000Z" true in
  let m := mkNotification "n3" "alice" "t2" "soon" Upcoming false
             "2025-06-10T00:00:02.000Z" true in
  let add := flip (@addNotification sampleRuntime) in
  storedNotifications (foldl add emptyStorage [n; n'; m]) = [n; m]
  ∧ @getNotifications sampleRuntime "alice" (foldl add emptyStorage [n; n'; m]) = [m; n]
  ∧ storedNotifications (foldl add (setNotifications Unparsable emptyStorage) [n; n']) = [].
Proof. vm_compute. done. Qed.

(** ** The derived view *)

Lemma preserves_dom (h0 h : Heap) r : preserves h0 h → r ∈ dom h0 → r ∈ dom h.
Proof.
  intros Hp Hr. apply elem_of_dom. rewrite (Hp r Hr). by apply elem_of_dom.
Qed.

Lemma newArray_allocated (h0 h : Heap) l :
  preserves h0 h →
  ∃ r h', newArray l h = (r, h') ∧ allocatedSince h0 h' r l.
Proof.
  intros Hp. eexists _, _. split; [reflexivity|].
  pose proof (is_fresh (dom h)) as Hfresh.
  split; [|split].
  - intros Hin. apply Hfresh. by apply (preserves_dom h0).
  - apply lookup_insert_eq.
  - intros r Hr. rewrite lookup_insert_ne; [by apply Hp|].
    intros <-. apply Hfresh. by apply (preserves_dom h0).
Qed.

Lemma spread_allocated (h : Heap) a l :
  h !! a = Some l →
  ∃ r h', spread a h = (r, h') ∧ allocatedSince h h' r l.
Proof.
  intros Ha. unfold spread, mbind, Js_bind, readArray. rewrite Ha. simpl.
  by apply newArray_allocated.
Qed.

Lemma arrayFilter_allocated (h0 h : Heap) p a l :
  allocatedSince h0 h a l →
  ∃ r h', arrayFilter p a h = (r, h')
    ∧ allocatedSince h0 h' r (filter (λ t, p t = true) l).
Proof.
  intros (_ & Ha & Hp). unfold arrayFilter, mbind, Js_bind, readArray.
  rewrite Ha. simpl. by apply newArray_allocated.
Qed.

Lemma arraySort_allocated `{Runtime} (h0 h : Heap) compareFn a l :
  allocatedSince h0 h a l →
  ∃ h', arraySort compareFn a h = (a, h')
    ∧ allocatedSince h0 h' a (jsSort compareFn l).
Proof.
  intros (Hfresh & Ha & Hp). eexists. split.
  - unfold arraySort, mbind, Js_bind, readArray, writeArray. rewrite Ha. reflexivity.
  - split; [done|]. split; [apply lookup_insert_eq|].
    intros r Hr. rewrite lookup_insert_ne; [by apply Hp|]. by intros <-.
Qed.

Section ViewFacts.
Context `{Runtime}.

Lemma sortKey_sortNumber sortBy x y :
  sortKey sortBy x = sortKey sortBy y → sortNumber sortBy x = sortNumber sortBy y.
Proof. unfold sortNumber. by intros ->. Qed.

(** On tasks whose time is a date the comparison is a difference of
    numbers. *)
Lemma compareTasks_keyed sortBy x y :
  is_Some (sortKey sortBy x) → is_Some (sortKey sortBy y) →
  compareTasks sortBy x y = Some (sortNumber sortBy x - sortNumber sortBy y)%Z.
Proof.
  unfold sortNumber. intros [kx Hx] [ky Hy]. rewrite Hx, Hy.
  destruct sortBy; simpl in *; rewrite Hx, Hy; simpl; f_equal; lia.
Qed.

(** The list the view computes. *)
Lemma filteredAndSortedTasks_run (h : Heap) tasks l searchQuery filter sortBy :
  h !! tasks = Some l →
  ∃ result h',
    filteredAndSortedTasks tasks searchQuery filter sortBy h = (result, h')
    ∧ allocatedSince h h' result
        (jsSort (compareTasks sortBy)
           (base.filter (λ t, searchOk searchQuery t ∧ statusOk filter t) l)).
Proof.
  intros Htasks. unfold filteredAndSortedTasks.
  destruct (spread_allocated h tasks l Htasks) as (r1 & h1 & E1 & A1).
  unfold mbind at 1, Js_bind at 1. rewrite E1.
  assert (∃ r2 h2,
    (if decide (searchQuery = EmptyString) then mret r1
     else arrayFilter (searchMatches (toLowerCase searchQuery)) r1) h1 = (r2, h2)
    ∧ allocatedSince h h2 r2 (base.filter (searchOk searchQuery) l))
    as (r2 & h2 & E2 & A2).
  { case_decide as Hq.
    - exists r1, h1. split; [done|].
      rewrite filter_all; [done|]. intros t _. by left.
    - destruct (arrayFilter_allocated h h1
        (searchMatches (toLowerCase searchQuery)) r1 l A1) as (r2 & h2 & E2 & A2).
      exists r2, h2. split; [done|].
      rewrite (list_filter_iff (searchOk searchQuery)
                 (λ t, searchMatches (toLowerCase searchQuery) t = true)); [done|].
      intros t. unfold searchOk. tauto. }
  unfold mbind at 1, Js_bind at 1. rewrite E2.
  assert (∃ r3 h3,
    match filter with
    | FilterPending => arrayFilter (hasStatus Pending) r2
    | FilterDone => arrayFilter (hasStatus Done) r2
    | FilterAll => mret r2
    end h2 = (r3, h3)
    ∧ allocatedSince h h3 r3
        (base.filter (λ t, searchOk searchQuery t ∧ statusOk filter t) l))
    as (r3 & h3 & E3 & A3).
  { destruct filter.
    - exists r2, h2. split; [done|].
      rewrite (list_filter_iff _ (searchOk searchQuery)); [done|].
      intros t. simpl. tauto.
    - destruct (arrayFilter_allocated h h2 (hasStatus Pending) r2 _ A2)
        as (r3 & h3 & E3 & A3).
      exists r3, h3. split; [done|]. rewrite list_filter_filter in A3.
      rewrite (list_filter_iff _ (λ t, hasStatus Pending t = true ∧ searchOk searchQuery t));
        [done|].
      intros t. unfold hasStatus. simpl. rewrite bool_decide_eq_true. tauto.
    - destruct (arrayFilter_allocated h h2 (hasStatus Done) r2 _ A2)
        as (r3 & h3 & E3 & A3).
      exists r3, h3. split; [done|]. rewrite list_filter_filter in A3.
      rewrite (list_filter_iff _ (λ t, hasStatus Done t = true ∧ searchOk searchQuery t));
        [done|].
      intros t. unfold hasStatus. simpl. rewrite bool_decide_eq_true. tauto. }
  unfold mbind, Js_bind. rewrite E3.
  destruct (arraySort_allocated h h3 (compareTasks sortBy) r3 _ A3) as (h4 & E4 & A4).
  by exists r3, h4.
Qed.

(** When the time of every task to sort is a date, the sort is the stable
    sort by that time. *)
Lemma jsSort_compareTasks sortBy (l : list Task) :
  Forall (λ t, is_Some (sortKey sortBy t)) l →
  jsSort (compareTasks sortBy) l
  = sortWith (λ a b, (sortNumber sortBy a - sortNumber sortBy b)%Z) l.
Proof.
  rewrite Forall_forall. intros Hl. apply jsSort_keyed.
  intros a b Ha Hb. apply compareTasks_keyed; by apply Hl.
Qed.
End ViewFacts.

(** [includes] is the substring test. *)
Lemma prefix_spec sub s :
  String.prefix sub s = true ↔ ∃ post, s = sub +:+ post.
Proof.
  revert sub. induction s as [|d s IH]; intros [|c sub]; simpl.
  - split; [intros _; by exists EmptyString | done].
  - split; [done | by intros [post ?]].
  - split; [intros _; by exists (String d s) | done].
  - destruct (Ascii.ascii_dec c d) as [->|Hne].
    + rewrite IH. split; intros [post Hpost]; exists post;
        [by rewrite Hpost | by injection Hpost].
    + split; [done|]. intros [post [= ? _]]. by destruct Hne.
Qed.
Lemma includes_unfold s sub :
  includes s sub
  = String.prefix sub s ||
    match s with EmptyString => false | String _ s' => includes s' sub end.
Proof. by destruct s. Qed.

Lemma includes_spec s sub :
  includes s sub = true ↔ ∃ pre post, s = pre +:+ sub +:+ post.
Proof.
  induction s as [|c s IH]; rewrite includes_unfold, orb_true_iff, prefix_spec.
  - split.
    + intros [[post Hpost]|]; [|done]. by exists EmptyString, post.
    + intros ([|d pre] & post & Hs); [left; by exists post | done].
  - rewrite IH. split.
    + intros [[post Hpost] | (pre & post & ->)].
      * by exists EmptyString, post.
      * by exists (String c pre), post.
    + intros ([|d pre] & post & Hs).
      * left. by exists post.
      * right. exists pre, post. by injection Hs.
Qed.

Section ViewTheorem.
Context `{Runtime}.

Lemma searchOk_spec searchQuery t :
  searchOk searchQuery t
  ↔ searchQuery = EmptyString
    ∨ includes (toLowerCase (t_text t)) (toLowerCase searchQuery) = true
    ∨ ∃ description, t_description t = Some description
        ∧ description ≠ EmptyString
        ∧ includes (toLowerCase description) (toLowerCase searchQuery) = true.
Proof.
  unfold searchOk, searchMatches. rewrite orb_true_iff.
  destruct (t_description t) as [d|].
  - case_decide as Hd.
    + split.
      * intros [?|[?|?]]; auto; done.
      * intros [?|[?|(d' & [= <-] & Hne & _)]]; auto; done.
    + split.
      * intros [?|[?|?]]; eauto 6.
      * intros [?|[?|(d' & [= <-] & _ & ?)]]; auto.
  - split.
    + intros [?|[?|?]]; auto; done.
    + intros [?|[?|(d' & ? & _)]]; auto; done.
Qed.


End ViewTheorem.


(** The search is case-insensitive and reaches the description; the two
    tasks due at the same time stay in their order. *)
Example filteredAndSortedTasks_sample :
  let '(result, h') :=
    @filteredAndSortedTasks sampleRuntime 1%positive "MiLk" FilterAll DeadlineAsc sampleHeap in
  h' !! result = Some [taskB; taskC; taskA]
  ∧ h' !! 1%positive = Some [taskA; taskB; taskC; taskD].
Proof. vm_compute. done. Qed.

Example filteredAndSortedTasks_sample_desc :
  let '(result, h') :=
    @filteredAndSortedTasks sampleRuntime 1%positive EmptyString FilterPending DeadlineDesc
      sampleHeap in
  h' !! result = Some [taskA; taskB; taskD].
Proof. vm_compute. done. Qed.

(** With dates throughout, the sort of V8 gives the stable order too. *)
Example filteredAndSortedTasks_sample_v8 :
  let '(result, h') :=
    @filteredAndSortedTasks v8Runtime 1%positive EmptyString FilterAll DeadlineAsc
      sampleHeap in
  let '(result', h'') :=
    @filteredAndSortedTasks v8Runtime 1%positive EmptyString FilterAll DeadlineDesc
      sampleHeap in
  h' !! result = Some [taskD; taskB; taskC; taskA]
  ∧ h'' !! result' = Some [taskA; taskB; taskC; taskD].
Proof. vm_compute. done. Qed.

(** ** The deadline evaluator *)

Section EvaluatorFacts.
Context `{Runtime}.

Lemma classify_type (now : Z) (task : Task) :
  fst <$> classify now task
  = if decide (t_status task = Done) then None
    else
      let diff := minus (getTime (t_deadline task)) (Some now) in
      if lessThan diff 0 then Some Overdue
      else if lessThan diff 86400000 then Some Upcoming
      else None.
Proof.
  unfold classify. change oneDay with 86400000%Z. cbv zeta.
  case_decide; [done|].
  destruct (lessThan _ 0); [done|]. by destruct (lessThan _ _).
Qed.

Lemma classify_None (now : Z) (task : Task) :
  classify now task = None ↔ fst <$> classify now task = None.
Proof. by destruct (classify now task). Qed.

(** C5. A task is classified overdue exactly when it is not done and its
    deadline is a date strictly before [now]; upcoming exactly when it is
    not done and its deadline is a date at or after [now] and less than 24
    hours (86400000 ms) away; it is left unclassified exactly when it is
    done, or its deadline is no date, or it is due 24 hours or more from
    [now], and then the evaluator does nothing for it. A done task is never
    classified. *)
Theorem classify_spec (now : Z) (task : Task) :
  let deadline := getTime (t_deadline task) in
  (fst <$> classify now task = Some Overdue
     ↔ t_status task ≠ Done ∧ ∃ d, deadline = Some d ∧ (d < now)%Z)
  ∧ (fst <$> classify now task = Some Upcoming
     ↔ t_status task ≠ Done
       ∧ ∃ d, deadline = Some d ∧ (now ≤ d)%Z ∧ (d - now < 86400000)%Z)
  ∧ (classify now task = None
     ↔ t_status task = Done ∨ deadline = None
       ∨ ∃ d, deadline = Some d ∧ (now + 86400000 ≤ d)%Z)
  ∧ (t_status task = Done → classify now task = None)
  ∧ (classify now task = None →
     ∀ u notifications s, checkTask u now notifications s task = s).
Proof.
  intros deadline. rewrite classify_None, classify_type. fold deadline. cbv zeta.
  split; [|split; [|split; [|split]]].
  - case_decide; [split; [done | by intros [? _]]|].
    destruct deadline as [d|]; simpl; [|split; [done | by intros [_ (d & ? & _)]]].
    destruct (d - now <? 0)%Z eqn:E1.
    + apply Z.ltb_lt in E1. split; [intros _; split; [done|]; exists d; split; [done|lia] | done].
    + apply Z.ltb_ge in E1.
      destruct (_ <? _)%Z; (split; [done | intros [_ (d' & [= <-] & ?)]; lia]).
  - case_decide; [split; [done | by intros [? _]]|].
    destruct deadline as [d|]; simpl; [|split; [done | by intros [_ (d & ? & _)]]].
    destruct (d - now <? 0)%Z eqn:E1.
    + apply Z.ltb_lt in E1. split; [done | intros (_ & d' & [= <-] & ? & _); lia].
    + apply Z.ltb_ge in E1. destruct (d - now <? 86400000)%Z eqn:E2.
      * apply Z.ltb_lt in E2.
        split; [intros _; split; [done|]; exists d; repeat split; (done || lia) | done].
      * apply Z.ltb_ge in E2. split; [done | intros (_ & d' & [= <-] & _ & ?); lia].
  - case_decide; [by split; [left|]|].
    destruct deadline as [d|]; simpl; [|by split; [right; left|]].
    destruct (d - now <? 0)%Z eqn:E1.
    + apply Z.ltb_lt in E1.
      split; [done | intros [?|[?|(d' & [= <-] & ?)]]; [done|done|lia]].
    + apply Z.ltb_ge in E1. destruct (d - now <? 86400000)%Z eqn:E2.
      * apply Z.ltb_lt in E2.
        split; [done | intros [?|[?|(d' & [= <-] & ?)]]; [done|done|lia]].
      * apply Z.ltb_ge in E2.
        split; [intros _; right; right; exists d; split; [done|lia] | done].
  - intros Hdone. by rewrite decide_True.
  - pose proof (classify_type now task) as Htype. cbv zeta in Htype. fold deadline in Htype.
    rewrite <- Htype, <- classify_None. intros Hnone u ns s.
    unfold checkTask. by rewrite Hnone.
Qed.

(** A deadline that is no date is never notified, whatever the time. *)
Example classify_sample :
  let task deadline :=
    mkTask "t" "alice" "Call" None deadline Pending None "2025-06-01T08:00:00.000Z" in
  fst <$> @classify sampleRuntime sampleNow (task "2025-06-09T23:59:59.999Z") = Some Overdue
  ∧ fst <$> @classify sampleRuntime sampleNow (task "2025-06-10T00:00:00.000Z") = Some Upcoming
  ∧ fst <$> @classify sampleRuntime sampleNow (task "2025-06-10T23:59:59.999Z") = Some Upcoming
  ∧ @classify sampleRuntime sampleNow (task "2025-06-11T00:00:00.000Z") = None
  ∧ @classify sampleRuntime sampleNow (task "soon") = None.
Proof. vm_compute. done. Qed.

(** *** getNotifications *)

Lemma getNotifications_elem userId st n :
  n ∈ getNotifications userId st ↔ n ∈ storedNotifications st ∧ n_userId n = userId.
Proof.
  unfold getNotifications, storedNotifications, rowsOf.
  destruct (parseOrEmpty (notifications_db st)) as [[all|]|].
  - rewrite jsSort_permutation, list_elem_of_filter. tauto.
  - split; [by intros ?%elem_of_nil | by intros [?%elem_of_nil _]].
  - split; [by intros ?%elem_of_nil | by intros [?%elem_of_nil _]].
Qed.

Lemma inStore_alreadyNotified u st task type :
  inStore st (u_id u) (t_id task) type →
  alreadyNotified (getNotifications (u_id u) st) task type.
Proof.
  intros (m & Hm & Hu & Ht & Hty). apply Exists_exists. exists m.
  split; [|done]. by apply getNotifications_elem.
Qed.

(** *** addNotification and the stored triples *)

Lemma addNotification_inStore n st :
  parseOrEmpty (notifications_db st) ≠ None → accepts st n →
  inStore (addNotification n st) (n_userId n) (n_taskId n) (n_type n).
Proof.
  intros Hp Hroom. unfold inStore. rewrite addNotification_stored by done.
  destruct (list_find _ _) as [[i m]|] eqn:F.
  - apply list_find_Some in F as (Hi & (? & ? & ?) & _).
    exists m. split; [by eapply list_elem_of_lookup_2 | done].
  - exists n. split; [|done]. apply elem_of_app. right. by left.
Qed.

Lemma addNotification_keeps n st userId taskId type :
  inStore st userId taskId type → inStore (addNotification n st) userId taskId type.
Proof.
  intros (m & Hm & Hrest). exists m. split; [|done].
  destruct (addNotification_appends n st) as [->|(-> & _)]; [done|].
  apply elem_of_app. by left.
Qed.

(** *** One step of the loop *)

Lemma checkTask_cases u now ns s task :
  checkTask u now ns s task = s
  ∨ ∃ n message,
      classify now task = Some (n_type n, message)
      ∧ ¬ alreadyNotified ns task (n_type n)
      ∧ n_userId n = u_id u ∧ n_taskId n = t_id task
      ∧ storage (world (checkTask u now ns s task))
        = addNotification n (storage (world s)).
Proof.
  unfold checkTask. destruct (classify now task) as [[type message]|]; [|by left].
  case_decide as Hn; [by left|]. right.
  eexists (mkNotification _ _ _ _ _ _ _ _), message. simpl. done.
Qed.

Lemma checkTask_parsable u now ns s task :
  parseOrEmpty (notifications_db (storage (world s))) ≠ None →
  parseOrEmpty (notifications_db (storage (world (checkTask u now ns s task)))) ≠ None.
Proof.
  intros Hp. destruct (checkTask_cases u now ns s task) as [->|(n & m & _ & _ & _ & _ & ->)];
    [done | by apply addNotification_parsable].
Qed.

Lemma checkTask_keeps u now ns s task userId taskId type :
  inStore (storage (world s)) userId taskId type →
  inStore (storage (world (checkTask u now ns s task))) userId taskId type.
Proof.
  intros Hin. destruct (checkTask_cases u now ns s task) as [->|(n & m & _ & _ & _ & _ & ->)];
    [done | by apply addNotification_keeps].
Qed.

Lemma checkTask_unparsable u now ns s task :
  parseOrEmpty (notifications_db (storage (world s))) = None →
  storage (world (checkTask u now ns s task)) = storage (world s).
Proof.
  intros Hp. destruct (checkTask_cases u now ns s task) as [->|(n & m & _ & _ & _ & _ & ->)];
    [done | by apply addNotification_unparsable].
Qed.

(** *** The whole pass *)

Lemma scan_unparsable u now ns l s :
  parseOrEmpty (notifications_db (storage (world s))) = None →
  storage (world (foldl (checkTask u now ns) s l)) = storage (world s).
Proof.
  revert s. induction l as [|t l IH]; intros s Hp; simpl; [done|].
  rewrite IH; rewrite checkTask_unparsable; done.
Qed.

Lemma scan_parsable u now ns l s :
  parseOrEmpty (notifications_db (storage (world s))) ≠ None →
  parseOrEmpty (notifications_db (storage (world (foldl (checkTask u now ns) s l)))) ≠ None.
Proof.
  revert s. induction l as [|t l IH]; intros s Hp; simpl; [done|].
  by apply IH, checkTask_parsable.
Qed.

Lemma scan_keeps u now ns l s userId taskId type :
  inStore (storage (world s)) userId taskId type →
  inStore (storage (world (foldl (checkTask u now ns) s l))) userId taskId type.
Proof.
  revert s. induction l as [|t l IH]; intros s Hin; simpl; [done|].
  by apply IH, checkTask_keeps.
Qed.

Lemma scan_nothing_new u now ns l s :
  (∀ task type message,
     task ∈ l → classify now task = Some (type, message) →
     alreadyNotified ns task type) →
  foldl (checkTask u now ns) s l = s.
Proof.
  revert s. induction l as [|t l IH]; intros s Hall; simpl; [done|].
  assert (checkTask u now ns s t = s) as ->.
  { unfold checkTask. destruct (classify now t) as [[type message]|] eqn:Hc; [|done].
    rewrite decide_True; [done|]. eapply Hall; [left | done]. }
  apply IH. intros task type message Hin. apply Hall. by right.
Qed.

Lemma checkDeadlines_no_user now app w :
  user app = None → checkDeadlines now app w = (app, w).
Proof. unfold checkDeadlines. by intros ->. Qed.

Lemma checkDeadlines_user now app w u :
  user app = Some u →
  checkDeadlines now app w
  = let s := foldl (checkTask u now (notifications app)) (mkScan w false) (tasks app) in
    (if hasNewNotification s
     then setAppNotifications (getNotifications (u_id u) (storage (world s))) app
     else app, world s).
Proof. unfold checkDeadlines. intros ->. simpl. by destruct (hasNewNotification _). Qed.

Lemma reload_after_check now app w u :
  user app = Some u →
  reloadNotifications (checkDeadlines now app w).1 (checkDeadlines now app w).2
  = setAppNotifications
      (getNotifications (u_id u) (storage (checkDeadlines now app w).2)) app.
Proof.
  intros Hu. rewrite (checkDeadlines_user _ _ _ _ Hu). cbn zeta.
  unfold reloadNotifications. destruct (hasNewNotification _); simpl; by rewrite Hu.
Qed.
End EvaluatorFacts.

(** ** Authentication *)

Lemma credentialsMatch_spec credentials a :
  credentialsMatch credentials a
  ↔ ∃ c, credentials = Some c
         ∧ cr_username c = a_username a ∧ cr_password c = Some (a_password a).
Proof.
  unfold credentialsMatch. destruct credentials as [c|]; simpl.
  - split.
    + intros [[= ->] ->]. by exists c.
    + intros (c' & [= <-] & -> & ->). done.
  - split; [by intros [? _] | by intros (c & ? & _)].
Qed.

(** The password path of [login]. *)
Lemma login_password_path provider credentials st :
  provider ≠ "google" → provider ≠ "github" →
  login provider credentials st
  = match list_find (credentialsMatch credentials) (getSafeUsers st) with
    | None => Rejected InvalidCredentials
    | Some (_, found) => Resolved (publicUser found)
    end.
Proof. intros Hg Hh. unfold login. by rewrite !decide_False. Qed.

Lemma login_password_cases provider credentials st :
  provider ≠ "google" → provider ≠ "github" →
  (login provider credentials st = Rejected InvalidCredentials
   ∧ ∀ a, a ∈ getSafeUsers st → ¬ credentialsMatch credentials a)
  ∨ ∃ a, a ∈ getSafeUsers st ∧ credentialsMatch credentials a
         ∧ login provider credentials st = Resolved (publicUser a).
Proof.
  intros Hg Hh. rewrite login_password_path by done.
  destruct (list_find _ _) as [[i a]|] eqn:F.
  - right. apply list_find_Some in F as (Hi & Ha & _).
    exists a. split; [by eapply list_elem_of_lookup_2 | done].
  - left. split; [done|]. apply list_find_None in F.
    by rewrite Forall_forall in F.
Qed.

Lemma register_cases now username password st :
  ((register now username password st).1 = Rejected UsernameTaken
   ∧ (register now username password st).2 = st
   ∧ ∃ a, a ∈ getSafeUsers st ∧ a_username a = username)
  ∨ ((∀ a, a ∈ getSafeUsers st → a_username a ≠ username)
     ∧ (register now username password st).1
       = Resolved
           {| u_id := "user_cred_" +:+ pretty now;
              u_name := username;
              u_email := username +:+ "@example.com";
              u_avatar := Some ("https://ui-avatars.com/api/?name=" +:+ username
                                +:+ "&background=random&color=fff&background=6366f1");
              u_provider := Credentials |}
     ∧ getSafeUsers (register now username password st).2
       = getSafeUsers st
         ++ [ {| a_id := "user_cred_" +:+ pretty now;
                 a_username := username;
                 a_password := password;
                 a_name := username;
                 a_email := username +:+ "@example.com";
                 a_avatar := "https://ui-avatars.com/api/?name=" +:+ username
                              +:+ "&background=random&color=fff&background=6366f1";
                 a_provider := Credentials |} ]).
Proof.
  unfold register. destruct (list_find _ _) as [[i a]|] eqn:F.
  - left. apply list_find_Some in F as (Hi & Ha & _).
    repeat split. exists a. split; [by eapply list_elem_of_lookup_2 | done].
  - right. apply list_find_None in F. rewrite Forall_forall in F.
    repeat split. exact F.
Qed.

(** C8. [register] is rejected with the duplicate-username error exactly
    when a stored account has the username, and then writes nothing;
    otherwise it resolves to the public view of the new account, a [User],
    which has no password field and is the same whatever password was
    given. [login] with the provider "credentials" is rejected with the
    invalid-credentials error exactly when no stored account has both the
    given username and the given password; otherwise it resolves to the
    public view of a stored account that has both. *)
Theorem register_login_spec (now : Z) (username password : string)
    (credentials : option LoginCredentials) (st : Storage) :
  ((register now username password st).1 = Rejected UsernameTaken
     ↔ ∃ a, a ∈ getSafeUsers st ∧ a_username a = username)
  ∧ (∀ e, (register now username password st).1 = Rejected e →
       e = UsernameTaken ∧ (register now username password st).2 = st)
  ∧ (∀ u, (register now username password st).1 = Resolved u →
       u_name u = username ∧ u_provider u = Credentials
       ∧ (∀ password', (register now username password' st).1 = Resolved u)
       ∧ ∃ a, getSafeUsers (register now username password st).2 = getSafeUsers st ++ [a]
              ∧ a_username a = username ∧ a_password a = password ∧ u = publicUser a)
  ∧ (login "credentials" credentials st = Rejected InvalidCredentials
     ↔ ¬ ∃ a c, a ∈ getSafeUsers st ∧ credentials = Some c
               ∧ cr_username c = a_username a ∧ cr_password c = Some (a_password a))
  ∧ (∀ e, login "credentials" credentials st = Rejected e → e = InvalidCredentials)
  ∧ (∀ u, login "credentials" credentials st = Resolved u →
       ∃ a c, a ∈ getSafeUsers st ∧ credentials = Some c
              ∧ cr_username c = a_username a ∧ cr_password c = Some (a_password a)
              ∧ u = publicUser a).
Proof.
  split; [|split; [|split; [|split; [|split]]]].
  - destruct (register_cases now username password st)
      as [(-> & _ & Hex)|(Hno & -> & _)]; [done|].
    split; [done|]. intros (a & Ha & Hname). by destruct (Hno a Ha).
  - intros e. destruct (register_cases now username password st)
      as [(-> & -> & _)|(_ & -> & _)]; [by intros [= <-] | done].
  - intros u. destruct (register_cases now username password st)
      as [(-> & _ & _)|(Hno & -> & ->)]; [done|].
    intros [= <-]. repeat split.
    + intros password'. destruct (register_cases now username password' st)
        as [(_ & _ & a & Ha & Hname)|(_ & -> & _)]; [by destruct (Hno a Ha) | done].
    + eexists. split; [reflexivity|]. done.
  - destruct (login_password_cases "credentials" credentials st)
      as [(-> & Hno)|(a & Ha & Hm & ->)]; [done|done| |].
    + split; [|done]. intros _ (a & c & Ha & Hc).
      apply (Hno a Ha). apply credentialsMatch_spec. by exists c.
    + split; [done|]. intros Hno. destruct Hno.
      apply credentialsMatch_spec in Hm as (c & Hc). by exists a, c.
  - intros e. destruct (login_password_cases "credentials" credentials st)
      as [(-> & _)|(a & _ & _ & ->)]; [done|done| |]; [by intros [= <-] | done].
  - intros u. destruct (login_password_cases "credentials" credentials st)
      as [(-> & _)|(a & Ha & Hm & ->)]; [done|done|done|].
    intros [= <-]. apply credentialsMatch_spec in Hm as (c & Hc & Hname & Hpw).
    exists a, c. repeat split; done.
Qed.

(** The scenario of the specification. *)
Example register_login_scenario :
  let st := (register 1700000000000 "alice" "pw1" emptyStorage).2 in
  (register 1700000000001 "alice" "other" st).1 = Rejected UsernameTaken
  ∧ login "credentials" (Some (mkLoginCredentials "alice" (Some "wrong"))) st
    = Rejected InvalidCredentials
  ∧ login "credentials" (Some (mkLoginCredentials "alice" (Some "pw1"))) st
    = Resolved (mkUser "user_cred_1700000000000" "alice" "alice@example.com"
        (Some "https://ui-avatars.com/api/?name=alice&background=random&color=fff&background=6366f1")
        Credentials)
  ∧ login "credentials" None st = Rejected InvalidCredentials
  ∧ login "google" None st = Resolved googleUser.
Proof. vm_compute. done. Qed.

(** The account [login] finds is the first that matches. *)
Lemma login_password_first provider credentials st u :
  provider ≠ "google" → provider ≠ "github" →
  login provider credentials st = Resolved u
  ↔ ∃ i a, getSafeUsers st !! i = Some a
           ∧ credentialsMatch credentials a
           ∧ (∀ j b, getSafeUsers st !! j = Some b → j < i →
                ¬ credentialsMatch credentials b)
           ∧ u = publicUser a.
Proof.
  intros Hg Hh. rewrite login_password_path by done.
  destruct (list_find _ _) as [[i a]|] eqn:F.
  - pose proof F as (Hi & Ha & Hfirst)%list_find_Some. split.
    + intros [= <-]. by exists i, a.
    + intros (i' & a' & Hi' & Ha' & Hfirst' & ->).
      destruct (Nat.lt_trichotomy i i') as [Hlt|[->|Hlt]].
      * by destruct (Hfirst' i a).
      * congruence.
      * by destruct (Hfirst i' a').
  - apply list_find_None in F. rewrite Forall_forall in F. split; [done|].
    intros (i & a & Hi & Ha & _). destruct (F a); [|done].
    by eapply list_elem_of_lookup_2.
Qed.



(** An unknown provider logs in with the password, and is refused with a
    wrong one. *)
Example login_other_provider_sample :
  let st := (register 1700000000000 "alice" "pw1" emptyStorage).2 in
  login "facebook" (Some (mkLoginCredentials "alice" (Some "pw1"))) st
    = Resolved (mkUser "user_cred_1700000000000" "alice" "alice@example.com"
        (Some "https://ui-avatars.com/api/?name=alice&background=random&color=fff&background=6366f1")
        Credentials)
  ∧ login "facebook" (Some (mkLoginCredentials "alice" (Some "pw2"))) st
    = Rejected InvalidCredentials
  ∧ login EmptyString (Some (mkLoginCredentials "alice" None)) st
    = Rejected InvalidCredentials.
Proof. vm_compute. done. Qed.

(** * Further properties of the facade *)

(** ** Tasks *)

Lemma upsert_nil task : upsert task [] = [task].
Proof. reflexivity. Qed.

Lemma upsert_cons task x l :
  upsert task (x :: l)
  = if decide (t_id x = t_id task) then task :: l else x :: upsert task l.
Proof.
  unfold upsert. simpl. case_decide; [done|].
  destruct (list_find _ l) as [[i y]|]; reflexivity.
Qed.

Lemma upsert_upsert t1 t2 l :
  t_id t1 = t_id t2 → upsert t2 (upsert t1 l) = upsert t2 l.
Proof.
  intros Hid. induction l as [|x l IH].
  - rewrite upsert_nil, upsert_cons. by rewrite decide_True.
  - rewrite (upsert_cons t1), (upsert_cons t2). rewrite Hid.
    case_decide as Hx.
    + rewrite upsert_cons. by rewrite decide_True.
    + rewrite upsert_cons, decide_False by done. by rewrite IH.
Qed.

Lemma upsert_filter_out (P : Task → Prop) `{∀ t, Decision (P t)} task l :
  ¬ P task → (∀ y, y ∈ l → t_id y = t_id task → ¬ P y) →
  filter P (upsert task l) = filter P l.
Proof.
  intros Hno. induction l as [|x l IH]; intros Hl.
  - rewrite upsert_nil. by rewrite filter_cons_False.
  - rewrite upsert_cons. case_decide as Hx.
    + rewrite filter_cons_False by done.
      rewrite (filter_cons_False _ x); [done|]. apply Hl; [left | done].
    + rewrite !(filter_cons _ x). rewrite IH; [done|].
      intros y Hy. apply Hl. by right.
Qed.

Lemma upsert_filter_in (P : Task → Prop) `{∀ t, Decision (P t)} task l :
  P task → (∀ y, y ∈ l → t_id y = t_id task → P y) →
  filter P (upsert task l) = upsert task (filter P l).
Proof.
  intros Hyes. induction l as [|x l IH]; intros Hl.
  - rewrite filter_nil, upsert_nil. by rewrite filter_cons_True.
  - rewrite upsert_cons. case_decide as Hx.
    + rewrite filter_cons_True by done.
      rewrite (filter_cons_True _ x) by (apply Hl; [left | done]).
      rewrite upsert_cons. by rewrite decide_True.
    + rewrite !(filter_cons _ x). case_decide.
      * rewrite upsert_cons, decide_False by done.
        rewrite IH; [done|]. intros y Hy. apply Hl. by right.
      * apply IH. intros y Hy. apply Hl. by right.
Qed.

Lemma upsert_uniqueIds task l : uniqueIds l → uniqueIds (upsert task l).
Proof.
  unfold uniqueIds. induction l as [|x l IH]; intros Hl.
  - rewrite upsert_nil. apply NoDup_singleton.
  - rewrite upsert_cons. apply NoDup_cons in Hl as [Hx Hl].
    case_decide as Hid.
    + rewrite fmap_cons, <- Hid. by apply NoDup_cons.
    + rewrite fmap_cons. apply NoDup_cons. split; [|by apply IH].
      intros [y [Hy [->|Hin]%upsert_from]]%list_elem_of_fmap; [done|].
      apply Hx. apply list_elem_of_fmap. by exists y.
Qed.

Lemma filter_uniqueIds (P : Task → Prop) `{∀ t, Decision (P t)} l :
  uniqueIds l → uniqueIds (filter P l).
Proof.
  unfold uniqueIds. intros Hl.
  apply (sublist_NoDup _ (t_id <$> l)); [exact Hl|].
  apply fmap_sublist, sublist_filter.
Qed.

Lemma deleteTask_others taskId st :
  users_db (deleteTask taskId st) = users_db st
  ∧ notifications_db (deleteTask taskId st) = notifications_db st.
Proof.
  unfold deleteTask. by destruct (parseOrEmpty (tasks_db st)) as [[rows|]|].
Qed.


(** An entry that is no array is not written; an absent one is. *)
Example deleteTask_sample :
  deleteTask "a" (setTasks Unparsable emptyStorage) = setTasks Unparsable emptyStorage
  ∧ deleteTask "a" (setTasks NonArray emptyStorage) = setTasks NonArray emptyStorage
  ∧ deleteTask "a" emptyStorage = setTasks (Rows []) emptyStorage
  ∧ deleteTask "a" (setTasks (Rows [taskA; taskB; taskA]) emptyStorage)
    = setTasks (Rows [taskB]) emptyStorage.
Proof. vm_compute. done. Qed.

(** X2. The last write wins: saving two tasks with the same id, one after
    the other, stores what saving the second alone stores. *)
Theorem saveTask_last_wins (t1 t2 : Task) (st : Storage) :
  t_id t1 = t_id t2 →
  storedTasks (saveTask t2 (saveTask t1 st).2).2 = storedTasks (saveTask t2 st).2.
Proof. intros Hid. rewrite !saveTask_stored. by apply upsert_upsert. Qed.

Lemma saveTask_last_wins_witness :
  let edited := mkTask "b" "alice" "call dad" None "1500" Done (Some None) "20" in
  let st := setTasks (Rows [taskA; taskB; taskC]) emptyStorage in
  storedTasks (saveTask edited (saveTask taskB st).2).2 = storedTasks (saveTask edited st).2.
Proof.
  intros edited st. apply (saveTask_last_wins taskB edited st). reflexivity.
Defined.

(** X3. Deleting the id of a task just saved leaves the tasks that were
    stored under other ids, in their order; when the id was not stored
    before, the stored tasks are those from before the save. *)
Theorem saveTask_then_deleteTask (task : Task) (st : Storage) :
  let st' := deleteTask (t_id task) (saveTask task st).2 in
  storedTasks st' = filter (λ t, t_id t ≠ t_id task) (storedTasks st)
  ∧ ((∀ t, t ∈ storedTasks st → t_id t ≠ t_id task) → storedTasks st' = storedTasks st).
Proof.
  intros st'. subst st'. rewrite deleteTask_stored, saveTask_stored.
  assert (filter (λ t, t_id t ≠ t_id task) (upsert task (storedTasks st))
          = filter (λ t, t_id t ≠ t_id task) (storedTasks st)) as ->.
  { apply upsert_filter_out; [by intros Hne | by intros y _ Hid Hne]. }
  split; [done|]. intros Hnone. by apply filter_all.
Qed.

Lemma perform_uniqueIds `{Runtime} st op :
  uniqueIds (storedTasks st) → uniqueIds (storedTasks (perform st op)).
Proof.
  intros Hu. destruct op; cbn [perform]; try done.
  - rewrite saveTask_stored. by apply upsert_uniqueIds.
  - rewrite deleteTask_stored. by apply filter_uniqueIds.
  - rewrite deleteAllTasks_stored. by apply filter_uniqueIds.
  - unfold storedTasks. by rewrite (proj1 (addNotification_others _ _)).
  - unfold markNotificationRead.
    destruct (parseOrEmpty (notifications_db st)) as [[all|]|]; try done.
    by destruct (list_find _ _) as [[idx n]|].
  - unfold markAllNotificationsRead.
    by destruct (parseOrEmpty (notifications_db st)) as [[all|]|].
  - unfold register. by destruct (list_find _ _).
Qed.

(** X4. Ids stay unique: when no id is stored twice, no sequence of facade
    calls stores an id twice. *)
Theorem performAll_uniqueIds `{Runtime} (st : Storage) (ops : list Operation) :
  uniqueIds (storedTasks st) → uniqueIds (storedTasks (performAll st ops)).
Proof.
  revert st. induction ops as [|op ops IH]; intros st Hu; [done|].
  simpl. apply IH. by apply perform_uniqueIds.
Qed.

Lemma performAll_uniqueIds_witness :
  uniqueIds
    (storedTasks
       (@performAll sampleRuntime (setTasks (Rows [taskA; taskB]) emptyStorage)
          [SaveTask taskC; SaveTask taskB; DeleteTask "a"; SaveTask taskD;
           DeleteAllTasks "bob"; SaveTask taskA])).
Proof.
  apply (@performAll_uniqueIds sampleRuntime
           (setTasks (Rows [taskA; taskB]) emptyStorage)).
  unfold uniqueIds. vm_compute. apply NoDup_cons. split.
  - intros [[=]|Hin]%elem_of_cons. by apply elem_of_nil in Hin.
  - apply NoDup_singleton.
Defined.

(** X5. Saving a task does not change what another user reads, provided no
    stored task of that user has the saved id. *)
Theorem saveTask_other_user (task : Task) (other : string) (st : Storage) :
  t_userId task ≠ other →
  (∀ y, y ∈ storedTasks st → t_id y = t_id task → t_userId y ≠ other) →
  getTasks other (saveTask task st).2 = getTasks other st.
Proof.
  intros Hne Hids. rewrite !getTasks_stored, saveTask_stored.
  by apply upsert_filter_out.
Qed.

Lemma saveTask_other_user_witness :
  getTasks "alice" (saveTask taskD (setTasks (Rows [taskA; taskD; taskB]) emptyStorage)).2
  = getTasks "alice" (setTasks (Rows [taskA; taskD; taskB]) emptyStorage).
Proof.
  apply (saveTask_other_user taskD "alice"); [done|].
  intros y Hy Hid. vm_compute in Hy.
  repeat (apply elem_of_cons in Hy as [->|Hy]; [done|]).
  by apply elem_of_nil in Hy.
Defined.

(** ** Notifications *)

Lemma setRead_setRead n : setRead (setRead n) = setRead n.
Proof. reflexivity. Qed.

Lemma triple_setRead n : triple (setRead n) = triple n.
Proof. reflexivity. Qed.

Lemma triples_of_setRead (l l' : list Notification) :
  setRead <$> l' = setRead <$> l → triple <$> l' = triple <$> l.
Proof.
  intros Heq.
  assert (∀ k : list Notification, triple <$> k = triple <$> (setRead <$> k)) as Hk.
  { intros k. rewrite <- list_fmap_compose. by apply list_fmap_ext. }
  by rewrite (Hk l'), (Hk l), Heq.
Qed.

Lemma markNotificationRead_stored notificationId st :
  storedNotifications (markNotificationRead notificationId st)
  = match list_find (λ n, n_id n = notificationId) (storedNotifications st) with
    | Some (idx, n) => <[idx := setRead n]> (storedNotifications st)
    | None => storedNotifications st
    end.
Proof.
  unfold markNotificationRead, storedNotifications, rowsOf.
  destruct (parseOrEmpty (notifications_db st)) as [[all|]|] eqn:E;
    [|by rewrite E..].
  destruct (list_find _ all) as [[idx n]|]; [done | by rewrite E].
Qed.

Lemma markAllNotificationsRead_stored userId st :
  storedNotifications (markAllNotificationsRead userId st)
  = map (λ n, if decide (n_userId n = userId) then setRead n else n)
      (storedNotifications st).
Proof.
  unfold markAllNotificationsRead, storedNotifications, rowsOf.
  destruct (parseOrEmpty (notifications_db st)) as [[all|]|] eqn:E;
    [done | by rewrite E..].
Qed.

Lemma markNotificationRead_others notificationId st :
  tasks_db (markNotificationRead notificationId st) = tasks_db st
  ∧ users_db (markNotificationRead notificationId st) = users_db st.
Proof.
  unfold markNotificationRead.
  destruct (parseOrEmpty (notifications_db st)) as [[all|]|]; try done.
  by destruct (list_find _ all) as [[idx n]|].
Qed.

Lemma markAllNotificationsRead_others userId st :
  tasks_db (markAllNotificationsRead userId st) = tasks_db st
  ∧ users_db (markAllNotificationsRead userId st) = users_db st.
Proof.
  unfold markAllNotificationsRead.
  by destruct (parseOrEmpty (notifications_db st)) as [[all|]|].
Qed.

Lemma markNotificationRead_flags notificationId st :
  setRead <$> storedNotifications (markNotificationRead notificationId st)
  = setRead <$> storedNotifications st.
Proof.
  rewrite markNotificationRead_stored.
  destruct (list_find _ _) as [[idx m]|] eqn:F; [|done].
  apply list_find_Some in F as (Hm & _ & _).
  rewrite list_fmap_insert, setRead_setRead.
  apply list_insert_id. by rewrite list_lookup_fmap, Hm.
Qed.

Lemma markAllNotificationsRead_flags userId st :
  setRead <$> storedNotifications (markAllNotificationsRead userId st)
  = setRead <$> storedNotifications st.
Proof.
  rewrite markAllNotificationsRead_stored, <- list_fmap_compose.
  apply list_fmap_ext. intros i n _. simpl. by case_decide.
Qed.

Section NotificationReads.
Context `{Runtime}.

Lemma jsSort_nil {A} (compareFn : A → A → option Z) : jsSort compareFn [] = [].
Proof. apply Permutation_nil_r, jsSort_permutation. Qed.

Lemma getNotifications_stored userId st :
  getNotifications userId st
  = jsSort newestFirst (filter (λ n, n_userId n = userId) (storedNotifications st)).
Proof.
  unfold getNotifications, storedNotifications, rowsOf.
  destruct (parseOrEmpty (notifications_db st)) as [[all|]|];
    [done | by rewrite filter_nil, jsSort_nil..].
Qed.

(** The number [newestFirst] orders by when the creation time is a date. *)
Let age (n : Notification) : Z := (- default 0 (getTime (n_createdAt n)))%Z.

Lemma newestFirst_keyed a b :
  is_Some (getTime (n_createdAt a)) → is_Some (getTime (n_createdAt b)) →
  newestFirst a b = Some (age a - age b)%Z.
Proof.
  unfold newestFirst, age. intros [ta ->] [tb ->]. simpl. f_equal. lia.
Qed.

(** X6. [getNotifications userId] returns the stored notifications of
    [userId], each as often as it is stored and no other; when the creation
    time of each of them is a date, the most recent comes first and
    notifications created at the same time keep their stored order; an
    entry that is not an array gives the empty list. *)
Theorem getNotifications_newest_first (userId : string) (st : Storage) :
  let mine := filter (λ n, n_userId n = userId) (storedNotifications st) in
  let out := getNotifications userId st in
  out ≡ₚ mine
  ∧ (Forall (λ n, is_Some (getTime (n_createdAt n))) mine →
       StronglySorted
         (λ a b, ∃ ta tb, getTime (n_createdAt a) = Some ta
                          ∧ getTime (n_createdAt b) = Some tb ∧ (tb ≤ ta)%Z) out
       ∧ ∀ k, filter (λ n, getTime (n_createdAt n) = k) out
              = filter (λ n, getTime (n_createdAt n) = k) mine)
  ∧ ((∀ rows, notifications_db st ≠ Rows rows) → out = []).
Proof.
  intros mine out. subst out. rewrite getNotifications_stored. fold mine.
  split; [apply jsSort_permutation|]. split.
  - intros Hdates. rewrite Forall_forall in Hdates.
    rewrite (jsSort_keyed _ newestFirst age mine)
      by (intros a b Ha Hb; apply newestFirst_keyed; by apply Hdates).
    split.
    + eapply StronglySorted_weaken_in; [|apply sortWith_sorted; intros; lia].
      intros a b Ha%sortWith_elem_of Hb%sortWith_elem_of Hle.
      destruct (Hdates a Ha) as [ta Hta], (Hdates b Hb) as [tb Htb].
      exists ta, tb. split; [done|]. split; [done|].
      unfold age in Hle. rewrite Hta, Htb in Hle. simpl in Hle. lia.
    + intros k. apply sortWith_stable. intros a b Hab. unfold age. rewrite Hab. lia.
  - intros Hrows. unfold mine, storedNotifications, rowsOf.
    destruct (notifications_db st) as [| | |rows]; simpl;
      [by rewrite ?filter_nil, jsSort_nil.. |]. by destruct (Hrows rows).
Qed.
End NotificationReads.

(** X7. [markNotificationRead id] sets the read flag of the first stored
    notification with that id and changes nothing else: the number of
    notifications, every other position and every other field are as
    before; when no stored notification has the id the storage is not
    written; tasks and users are not written. *)
Theorem markNotificationRead_first (notificationId : string) (st : Storage) :
  let before := storedNotifications st in
  let st' := markNotificationRead notificationId st in
  let after := storedNotifications st' in
  length after = length before
  ∧ setRead <$> after = setRead <$> before
  ∧ (∀ n, n ∈ before → n_id n = notificationId →
       ∃ i m, before !! i = Some m ∧ n_id m = notificationId
              ∧ (∀ j k, j < i → before !! j = Some k → n_id k ≠ notificationId)
              ∧ after !! i = Some (setRead m)
              ∧ ∀ j, j ≠ i → after !! j = before !! j)
  ∧ ((∀ n, n ∈ before → n_id n ≠ notificationId) → st' = st)
  ∧ tasks_db st' = tasks_db st ∧ users_db st' = users_db st.
Proof.
  intros before st' after. subst after st'.
  rewrite markNotificationRead_stored. fold before.
  split; [|split; [|split; [|split]]].
  - destruct (list_find _ before) as [[idx m]|]; [apply length_insert | done].
  - unfold before. rewrite <- markNotificationRead_stored.
    apply markNotificationRead_flags.
  - intros n Hn Hid.
    destruct (list_find_elem_of (λ n, n_id n = notificationId) before n Hn Hid)
      as [[i m] F].
    rewrite F. apply list_find_Some in F as (Hm & Hmid & Hfirst).
    exists i, m. repeat split; try done.
    + intros j k Hj Hk. by apply (Hfirst j k).
    + apply list_lookup_insert_eq. by eapply lookup_lt_Some.
    + intros j Hne. by apply list_lookup_insert_ne.
  - intros Hnone. unfold markNotificationRead, before, storedNotifications, rowsOf in *.
    destruct (parseOrEmpty (notifications_db st)) as [[all|]|]; try done.
    destruct (list_find _ all) as [[idx m]|] eqn:F; [|done].
    apply list_find_Some in F as (Hm & Hmid & _).
    destruct (Hnone m); [by eapply list_elem_of_lookup_2 | done].
  - apply markNotificationRead_others.
Qed.

Lemma filter_map_unchanged {A} (P : A → Prop) `{∀ x, Decision (P x)} (f : A → A) l :
  (∀ x, P (f x) ↔ P x) → (∀ x, P x → f x = x) →
  filter P (map f l) = filter P l.
Proof.
  intros Hiff Hid. induction l as [|x l IH]; [done|]. simpl.
  rewrite !filter_cons, IH. destruct (decide (P x)) as [Hx|Hx].
  - rewrite decide_True by (by apply Hiff). by rewrite Hid.
  - by rewrite decide_False by (by rewrite Hiff).
Qed.

(** X8. After [markAllNotificationsRead userId] every stored notification
    of [userId] is read; the notifications of the other users are what they
    were; nothing but read flags differs from before; a second call changes
    nothing more; tasks and users are not written. *)
Theorem markAllNotificationsRead_all (userId : string) (st : Storage) :
  let before := storedNotifications st in
  let st' := markAllNotificationsRead userId st in
  let after := storedNotifications st' in
  (∀ n, n ∈ after → n_userId n = userId → n_isRead n = true)
  ∧ filter (λ n, n_userId n ≠ userId) after = filter (λ n, n_userId n ≠ userId) before
  ∧ (∀ i n, before !! i = Some n → n_userId n ≠ userId → after !! i = Some n)
  ∧ setRead <$> after = setRead <$> before
  ∧ storedNotifications (markAllNotificationsRead userId st') = after
  ∧ tasks_db st' = tasks_db st ∧ users_db st' = users_db st.
Proof.
  intros before st' after. subst after st'.
  rewrite !markAllNotificationsRead_stored. fold before.
  split; [|split; [|split; [|split; [|split]]]].
  - intros n [m [-> Hm]]%list_elem_of_fmap. by case_decide.
  - apply filter_map_unchanged; intros n; case_decide; simpl; tauto.
  - intros i n Hn Hne. rewrite list_lookup_fmap, Hn. simpl. by rewrite decide_False.
  - unfold before. rewrite <- markAllNotificationsRead_stored.
    apply markAllNotificationsRead_flags.
  - rewrite <- list_fmap_compose. apply list_fmap_ext. intros i n _. simpl.
    destruct (decide (n_userId n = userId)) as [Hu|Hu]; simpl.
    + by rewrite decide_True.
    + by rewrite decide_False.
  - apply markAllNotificationsRead_others.
Qed.

(** ** The three entries *)

Lemma saveTask_others task st :
  users_db (saveTask task st).2 = users_db st
  ∧ notifications_db (saveTask task st).2 = notifications_db st.
Proof. done. Qed.

Lemma deleteAllTasks_others userId st :
  users_db (deleteAllTasks userId st) = users_db st
  ∧ notifications_db (deleteAllTasks userId st) = notifications_db st.
Proof.
  unfold deleteAllTasks. by destruct (parseOrEmpty (tasks_db st)) as [[rows|]|].
Qed.

Lemma register_others now username password st :
  tasks_db (register now username password st).2 = tasks_db st
  ∧ notifications_db (register now username password st).2 = notifications_db st.
Proof. unfold register. by destruct (list_find _ _). Qed.

Lemma perform_notifications `{Runtime} st op :
  storedNotifications (perform st op)
  = match op with
    | AddNotification n => storedNotifications (addNotification n st)
    | MarkNotificationRead id => storedNotifications (markNotificationRead id st)
    | MarkAllNotificationsRead userId =>
        storedNotifications (markAllNotificationsRead userId st)
    | _ => storedNotifications st
    end.
Proof.
  unfold storedNotifications. destruct op; cbn [perform]; try done.
  - f_equal. apply deleteTask_others.
  - f_equal. apply deleteAllTasks_others.
  - f_equal. apply register_others.
Qed.

(** X9. The three collections are independent: only [saveTask],
    [deleteTask] and [deleteAllTasks] can change the tasks entry, only
    [addNotification] and the two mark-read calls the notifications entry,
    and only [register] the users entry. *)
Theorem perform_frame `{Runtime} (st : Storage) (op : Operation) :
  match op with
  | SaveTask _ | DeleteTask _ | DeleteAllTasks _ =>
      users_db (perform st op) = users_db st
      ∧ notifications_db (perform st op) = notifications_db st
  | AddNotification _ | MarkNotificationRead _ | MarkAllNotificationsRead _ =>
      tasks_db (perform st op) = tasks_db st
      ∧ users_db (perform st op) = users_db st
  | Register _ _ _ =>
      tasks_db (perform st op) = tasks_db st
      ∧ notifications_db (perform st op) = notifications_db st
  | GetTasks _ | GetNotifications _ | Login _ _ => perform st op = st
  end.
Proof.
  destruct op; cbn [perform]; try done.
  - apply deleteTask_others.
  - apply deleteAllTasks_others.
  - apply addNotification_others.
  - apply markNotificationRead_others.
  - apply markAllNotificationsRead_others.
  - apply register_others.
Qed.

Lemma perform_uniqueTriples `{Runtime} st op :
  uniqueTriples (storedNotifications st) →
  uniqueTriples (storedNotifications (perform st op)).
Proof.
  intros Hu. rewrite perform_notifications. destruct op; try done.
  - by apply addNotification_uniqueTriples.
  - unfold uniqueTriples.
    by rewrite (triples_of_setRead _ _ (markNotificationRead_flags _ st)).
  - unfold uniqueTriples.
    by rewrite (triples_of_setRead _ _ (markAllNotificationsRead_flags _ st)).
Qed.

(** X10. One notification per (user, task, type) is an invariant of the
    whole facade: when no triple is stored twice, no sequence of facade
    calls stores a triple twice. *)
Theorem performAll_uniqueTriples `{Runtime} (st : Storage) (ops : list Operation) :
  uniqueTriples (storedNotifications st) →
  uniqueTriples (storedNotifications (performAll st ops)).
Proof.
  revert st. induction ops as [|op ops IH]; intros st Hu; [done|].
  simpl. apply IH. by apply perform_uniqueTriples.
Qed.

Lemma performAll_uniqueTriples_witness :
  uniqueTriples
    (storedNotifications
       (@performAll sampleRuntime (setNotifications (Rows [noticeA]) emptyStorage)
          [AddNotification noticeA; MarkAllNotificationsRead "alice";
           AddNotification (mkNotification "n9" "alice" "a" "late" Overdue false "1" true);
           AddNotification (mkNotification "n8" "alice" "a" "soon" Upcoming false "2" true);
           MarkNotificationRead "n8"; SaveTask taskA])).
Proof.
  apply (@performAll_uniqueTriples sampleRuntime
           (setNotifications (Rows [noticeA]) emptyStorage)).
  apply NoDup_singleton.
Defined.

Lemma keptIn_refl l : keptIn l l.
Proof. intros i n Hn. by exists n. Qed.

Lemma keptIn_trans l1 l2 l3 : keptIn l1 l2 → keptIn l2 l3 → keptIn l1 l3.
Proof.
  intros H12 H23 i n Hn.
  destruct (H12 i n Hn) as (n2 & Hn2 & Heq2 & Hr2).
  destruct (H23 i n2 Hn2) as (n3 & Hn3 & Heq3 & Hr3).
  exists n3. split; [done|]. split; [congruence | auto].
Qed.

Lemma addNotification_keptIn `{Runtime} n st :
  keptIn (storedNotifications st) (storedNotifications (addNotification n st)).
Proof.
  destruct (addNotification_appends n st) as [->|[-> _]]; [apply keptIn_refl|].
  intros i m Hm. exists m. split; [by apply lookup_app_l_Some | done].
Qed.

Lemma markNotificationRead_keptIn id st :
  keptIn (storedNotifications st) (storedNotifications (markNotificationRead id st)).
Proof.
  rewrite markNotificationRead_stored.
  destruct (list_find _ _) as [[idx m]|] eqn:F; [|apply keptIn_refl].
  apply list_find_Some in F as (Hm & _ & _).
  intros i n Hn. destruct (decide (i = idx)) as [->|Hne].
  - exists (setRead m). rewrite list_lookup_insert_eq by (by eapply lookup_lt_Some).
    split; [done|]. split; [|done]. rewrite setRead_setRead. congruence.
  - exists n. by rewrite list_lookup_insert_ne.
Qed.

Lemma markAllNotificationsRead_keptIn userId st :
  keptIn (storedNotifications st)
    (storedNotifications (markAllNotificationsRead userId st)).
Proof.
  rewrite markAllNotificationsRead_stored. intros i n Hn.
  eexists. rewrite list_lookup_fmap, Hn. simpl. split; [reflexivity|].
  case_decide; done.
Qed.

Lemma perform_keptIn `{Runtime} st op :
  keptIn (storedNotifications st) (storedNotifications (perform st op)).
Proof.
  rewrite perform_notifications.
  destruct op; try apply keptIn_refl.
  - apply addNotification_keptIn.
  - apply markNotificationRead_keptIn.
  - apply markAllNotificationsRead_keptIn.
Qed.

(** X11. Notifications are never removed: after any sequence of facade
    calls every notification that was stored is still stored at the same
    position, changed at most in its read flag, and a notification that
    was read is still read. *)
Theorem performAll_keeps_notifications `{Runtime} (st : Storage) (ops : list Operation) :
  keptIn (storedNotifications st) (storedNotifications (performAll st ops)).
Proof.
  revert st. induction ops as [|op ops IH]; intros st; [apply keptIn_refl|].
  simpl. eapply keptIn_trans; [apply perform_keptIn | apply IH].
Qed.

(** ** Accounts *)

Lemma perform_users `{Runtime} st op :
  ∃ added, getSafeUsers (perform st op) = getSafeUsers st ++ added.
Proof.
  assert (∀ st', users_db st' = users_db st →
            ∃ added, getSafeUsers st' = getSafeUsers st ++ added) as Hsame.
  { intros st' Heq. exists []. unfold getSafeUsers. by rewrite Heq, app_nil_r. }
  destruct op; cbn [perform]; try (by apply Hsame).
  - apply Hsame, deleteTask_others.
  - apply Hsame, deleteAllTasks_others.
  - apply Hsame, addNotification_others.
  - apply Hsame, markNotificationRead_others.
  - apply Hsame, markAllNotificationsRead_others.
  - destruct (register_cases now username password st)
      as [(_ & -> & _)|(_ & _ & ->)]; [by exists [] ; rewrite app_nil_r | by eexists].
Qed.

Lemma performAll_users `{Runtime} st ops :
  ∃ added, getSafeUsers (performAll st ops) = getSafeUsers st ++ added.
Proof.
  revert st. induction ops as [|op ops IH]; intros st.
  - exists []. by rewrite app_nil_r.
  - simpl. destruct (IH (perform st op)) as [more ->].
    destruct (perform_users st op) as [added ->].
    exists (added ++ more). by rewrite app_assoc.
Qed.

(** X12. Registering and then logging in with the same username and
    password resolves to the user that [register] returned; with that
    username and another password, or none, the login is rejected. *)
Theorem register_then_login (now : Z) (username password : string)
    (st : Storage) (u : User) :
  (register now username password st).1 = Resolved u →
  let st' := (register now username password st).2 in
  login "credentials" (Some (mkLoginCredentials username (Some password))) st'
    = Resolved u
  ∧ (∀ password', password' ≠ password →
       login "credentials" (Some (mkLoginCredentials username (Some password'))) st'
       = Rejected InvalidCredentials)
  ∧ login "credentials" (Some (mkLoginCredentials username None)) st'
    = Rejected InvalidCredentials.
Proof.
  intros Hreg st'. subst st'.
  destruct (register_cases now username password st)
    as [(Hrej & _ & _)|(Hno & Hres & Husers)]; [congruence|].
  rewrite Hres in Hreg. injection Hreg as <-.
  assert (∀ c, cr_username c = username →
            list_find (credentialsMatch (Some c)) (getSafeUsers st) = None) as Hold.
  { intros c Hc. apply list_find_None, Forall_forall. intros a Ha [[= Hname] _].
    apply (Hno a Ha). congruence. }
  rewrite !login_password_path by done. rewrite Husers.
  split; [|split].
  - rewrite list_find_app_r by (by apply Hold). simpl.
    rewrite decide_True by done. reflexivity.
  - intros password' Hne. rewrite login_password_path by done. rewrite Husers.
    rewrite list_find_app_r by (by apply Hold). simpl.
    rewrite decide_False; [done|]. intros [_ [= Hpw]]. by apply Hne.
  - rewrite list_find_app_r by (by apply Hold). simpl.
    rewrite decide_False; [done|]. by intros [_ ?].
Qed.

Lemma register_then_login_witness :
  let st' := (register 1700000000000 "alice" "pw1" emptyStorage).2 in
  let u := mkUser "user_cred_1700000000000" "alice" "alice@example.com"
    (Some "https://ui-avatars.com/api/?name=alice&background=random&color=fff&background=6366f1")
    Credentials in
  login "credentials" (Some (mkLoginCredentials "alice" (Some "pw1"))) st' = Resolved u
  ∧ (∀ password', password' ≠ "pw1" →
       login "credentials" (Some (mkLoginCredentials "alice" (Some password'))) st'
       = Rejected InvalidCredentials)
  ∧ login "credentials" (Some (mkLoginCredentials "alice" None)) st'
    = Rejected InvalidCredentials.
Proof.
  intros st' u.
  apply (register_then_login 1700000000000 "alice" "pw1" emptyStorage u).
  reflexivity.
Defined.

(** X13. Accounts are never removed or changed: after any sequence of
    facade calls the accounts read before are the first accounts read, a
    login that resolved resolves to the same user, and a username that was
    taken is still taken. *)
Theorem performAll_keeps_accounts `{Runtime} (st : Storage) (ops : list Operation) :
  (∃ added, getSafeUsers (performAll st ops) = getSafeUsers st ++ added)
  ∧ (∀ provider credentials u,
       login provider credentials st = Resolved u →
       login provider credentials (performAll st ops) = Resolved u)
  ∧ (∀ now now' username password password',
       (register now username password st).1 = Rejected UsernameTaken →
       (register now' username password' (performAll st ops)).1 = Rejected UsernameTaken).
Proof.
  destruct (performAll_users st ops) as [added Husers].
  split; [by exists added|]. split.
  - intros provider credentials u. unfold login.
    repeat case_decide; try done. rewrite Husers.
    destruct (list_find _ (getSafeUsers st)) as [[i a]|] eqn:F; [|done].
    by rewrite (list_find_app_l _ _ _ _ _ F).
  - intros now now' username password password'. unfold register. rewrite Husers.
    destruct (list_find _ (getSafeUsers st)) as [[i a]|] eqn:F; [|done].
    by rewrite (list_find_app_l _ _ _ _ _ F).
Qed.

(** * Further properties of the component *)

Lemma inStore_triples st userId taskId type :
  inStore st userId taskId type
  ↔ (userId, taskId, type) ∈ triple <$> storedNotifications st.
Proof.
  unfold inStore, triple. rewrite list_elem_of_fmap. split.
  - intros (m & Hm & <- & <- & <-). by exists m.
  - intros (m & [= -> -> ->] & Hm). by exists m.
Qed.

Lemma inStore_same_triples st st' userId taskId type :
  triple <$> storedNotifications st' = triple <$> storedNotifications st →
  inStore st userId taskId type → inStore st' userId taskId type.
Proof. intros Heq. rewrite !inStore_triples. by rewrite Heq. Qed.

Lemma addNotification_added `{Runtime} n st :
  ∃ added, storedNotifications (addNotification n st) = storedNotifications st ++ added
           ∧ ∀ m, m ∈ added → m = n.
Proof.
  destruct (addNotification_appends n st) as [->|[-> _]].
  - exists []. rewrite app_nil_r. split; [done|]. by intros m ?%elem_of_nil.
  - exists [n]. split; [done|]. by intros m ->%list_elem_of_singleton.
Qed.

Section ComponentFacts.
Context `{Runtime}.

(** X14. After [loadData] the component holds exactly the stored tasks of
    its user, and only notifications of its user, each of them stored: the
    check the evaluator makes on the held list then agrees with the
    storage. Without a user nothing is loaded: the component keeps the
    tasks and the notifications it held. *)
Theorem loadData_mirrors (app : App) (w : World) :
  let app' := loadData app w in
  user app' = user app
  ∧ inSync app' w
  ∧ backedByStore app' w
  ∧ (∀ u, user app = Some u →
       (∀ t, t ∈ tasks app' ↔ t ∈ storedTasks (storage w) ∧ t_userId t = u_id u)
       ∧ (∀ n, n ∈ notifications app'
               ↔ n ∈ storedNotifications (storage w) ∧ n_userId n = u_id u))
  ∧ (user app = None → app' = app).
Proof.
  intros app'. subst app'. unfold loadData.
  destruct (user app) as [u|] eqn:Hu; simpl.
  - split; [done|]. split; [by intros u' [= <-]|]. split; [|split; [|done]].
    + intros u' [= <-] n [Hn Hid]%getNotifications_elem. by exists n.
    + intros u' [= <-]. split.
      * intros t. rewrite getTasks_stored, list_elem_of_filter. tauto.
      * intros n. apply getNotifications_elem.
  - split; [done|]. split; [by intros u; rewrite Hu|].
    split; [by intros u; rewrite Hu | done].
Qed.

(** *** What a run of the evaluator stores *)

Lemma checkTask_appends u now ns s task :
  ∃ added,
    storedNotifications (storage (world (checkTask u now ns s task)))
    = storedNotifications (storage (world s)) ++ added
    ∧ ∀ m, m ∈ added →
        n_userId m = u_id u ∧ n_taskId m = t_id task
        ∧ classify now task = Some (n_type m, n_message m)
        ∧ ¬ alreadyNotified ns task (n_type m)
        ∧ n_isRead m = false ∧ n_emailSent m = true.
Proof.
  assert (∃ added : list Notification,
            storedNotifications (storage (world s))
            = storedNotifications (storage (world s)) ++ added
            ∧ ∀ m, m ∈ added →
                n_userId m = u_id u ∧ n_taskId m = t_id task
                ∧ classify now task = Some (n_type m, n_message m)
                ∧ ¬ alreadyNotified ns task (n_type m)
                ∧ n_isRead m = false ∧ n_emailSent m = true) as Hnone.
  { exists []. rewrite app_nil_r. split; [done|]. by intros m ?%elem_of_nil. }
  unfold checkTask.
  destruct (classify now task) as [[type message]|] eqn:Hc; [|exact Hnone].
  case_decide as Hn; [exact Hnone|]. simpl.
  destruct (addNotification_added
              (mkNotification (randomUUID (draws (world s))) (u_id u) (t_id task)
                 message type false (nowISOString (draws (world s))) true)
              (storage (world s))) as (added & -> & Hadded).
  exists added. split; [done|]. intros m ->%Hadded. done.
Qed.

Lemma checkTask_entries u now ns s task :
  tasks_db (storage (world (checkTask u now ns s task))) = tasks_db (storage (world s))
  ∧ users_db (storage (world (checkTask u now ns s task))) = users_db (storage (world s)).
Proof.
  destruct (checkTask_cases u now ns s task) as [->|(n & m & _ & _ & _ & _ & ->)];
    [done | apply addNotification_others].
Qed.

Lemma checkTask_uniqueTriples u now ns s task :
  uniqueTriples (storedNotifications (storage (world s))) →
  uniqueTriples (storedNotifications (storage (world (checkTask u now ns s task)))).
Proof.
  intros Hu. destruct (checkTask_cases u now ns s task)
    as [->|(n & m & _ & _ & _ & _ & ->)];
    [done | by apply addNotification_uniqueTriples].
Qed.

Lemma scan_appends u now ns l s :
  ∃ added,
    storedNotifications (storage (world (foldl (checkTask u now ns) s l)))
    = storedNotifications (storage (world s)) ++ added
    ∧ ∀ m, m ∈ added →
        n_userId m = u_id u
        ∧ ∃ task, task ∈ l ∧ n_taskId m = t_id task
            ∧ classify now task = Some (n_type m, n_message m)
            ∧ ¬ alreadyNotified ns task (n_type m)
            ∧ n_isRead m = false ∧ n_emailSent m = true.
Proof.
  revert s. induction l as [|t l IH]; intros s; simpl.
  - exists []. rewrite app_nil_r. split; [done|]. by intros m ?%elem_of_nil.
  - destruct (IH (checkTask u now ns s t)) as (more & -> & Hmore).
    destruct (checkTask_appends u now ns s t) as (added & -> & Hadded).
    exists (added ++ more). rewrite app_assoc. split; [done|].
    intros m [Hm|Hm]%elem_of_app.
    + destruct (Hadded m Hm) as (? & ? & ? & ? & ? & ?).
      split; [done|]. exists t. repeat split; try done. by left.
    + destruct (Hmore m Hm) as (? & task & ? & ?).
      split; [done|]. exists task. split; [by right | done].
Qed.

Lemma scan_entries u now ns l s :
  tasks_db (storage (world (foldl (checkTask u now ns) s l))) = tasks_db (storage (world s))
  ∧ users_db (storage (world (foldl (checkTask u now ns) s l)))
    = users_db (storage (world s)).
Proof.
  revert s. induction l as [|t l IH]; intros s; simpl; [done|].
  destruct (IH (checkTask u now ns s t)) as [-> ->]. apply checkTask_entries.
Qed.

Lemma scan_uniqueTriples u now ns l s :
  uniqueTriples (storedNotifications (storage (world s))) →
  uniqueTriples (storedNotifications (storage (world (foldl (checkTask u now ns) s l)))).
Proof.
  revert s. induction l as [|t l IH]; intros s Hu; simpl; [done|].
  by apply IH, checkTask_uniqueTriples.
Qed.

Lemma checkDeadlines_world now app w u :
  user app = Some u →
  (checkDeadlines now app w).2
  = world (foldl (checkTask u now (notifications app)) (mkScan w false) (tasks app)).
Proof. intros Hu. by rewrite (checkDeadlines_user _ _ _ _ Hu). Qed.

(** *** Refused writes *)

Lemma refused_addNotification st u task type message k :
  refused st u task type message →
  addNotification (noticeFor u task type message k) st = st.
Proof.
  intros [Hp|Hfull]; [by apply addNotification_unparsable | by apply addNotification_full].
Qed.

(** A notification that does not fit with the values drawn does not fit
    with any others. *)
Lemma refused_redrawn st u task type message k :
  ¬ accepts st (noticeFor u task type message k) → refused st u task type message.
Proof.
  unfold accepts. intros Hfull%not_false_iff_true. right. intros k' Hroom.
  pose proof (overQuota_grows st (storedNotifications st) [] k k'
                (noticeFor u task type message k) Hfull) as Hgrown.
  unfold accepts in Hroom. simpl in Hgrown. unfold noticeFor in Hroom.
  by rewrite Hgrown in Hroom.
Qed.

(** What is refused stays refused when more notifications are stored. *)
Lemma refused_grows st st' u task type message added :
  refused st u task type message →
  tasks_db st' = tasks_db st → users_db st' = users_db st →
  (parseOrEmpty (notifications_db st) = None → st' = st) →
  storedNotifications st' = storedNotifications st ++ added →
  refused st' u task type message.
Proof.
  intros [Hp|Hfull] Ht Hu Hsame Hadded.
  - left. by rewrite (Hsame Hp).
  - right. intros k Hroom. pose proof (Hfull k) as Hk%not_false_iff_true.
    pose proof (overQuota_grows st (storedNotifications st) added k k
                  (noticeFor u task type message k) Hk) as Hgrown.
    unfold accepts in Hroom. rewrite Hadded, <- app_assoc in Hroom.
    unfold setNotifications in *. rewrite Ht, Hu in Hroom.
    simpl in Hgrown. unfold noticeFor in Hroom. by rewrite Hgrown in Hroom.
Qed.

Lemma checkTask_covers u now ns s task type message :
  classify now task = Some (type, message) →
  alreadyNotified ns task type
  ∨ inStore (storage (world (checkTask u now ns s task))) (u_id u) (t_id task) type
  ∨ (refused (storage (world s)) u task type message
     ∧ storage (world (checkTask u now ns s task)) = storage (world s)).
Proof.
  intros Hc. unfold checkTask. rewrite Hc.
  case_decide as Hn; [by left|]. right. cbn [world storage].
  fold (noticeFor u task type message (draws (world s))).
  set (n := noticeFor u task type message (draws (world s))).
  destruct (parseOrEmpty (notifications_db (storage (world s)))) as [all|] eqn:E;
    [|right; split; [by left | by apply addNotification_unparsable]].
  destruct (decide (accepts (storage (world s)) n)) as [Hroom|Hfull].
  - left. apply (addNotification_inStore n); [by rewrite E | done].
  - right. split; [by eapply refused_redrawn | by apply addNotification_full].
Qed.

(** After the pass every classified task was notified before, or has its
    notification stored, or the storage refuses it. *)
Lemma scan_covers u now ns l s :
  let s' := foldl (checkTask u now ns) s l in
  ∀ task type message,
    task ∈ l → classify now task = Some (type, message) →
    alreadyNotified ns task type
    ∨ inStore (storage (world s')) (u_id u) (t_id task) type
    ∨ refused (storage (world s')) u task type message.
Proof.
  revert s. induction l as [|t l IH]; intros s s' task type message Hin Hc.
  { by apply elem_of_nil in Hin. }
  apply elem_of_cons in Hin as [->|Hin]; [|by apply (IH (checkTask u now ns s t))].
  destruct (checkTask_covers u now ns s t type message Hc) as [?|[Hstored|[Href Hsame]]].
  - by left.
  - right. left. unfold s'. simpl. by apply scan_keeps.
  - right. right. unfold s'. simpl.
    destruct (scan_appends u now ns l (checkTask u now ns s t)) as (added & Hadded & _).
    destruct (scan_entries u now ns l (checkTask u now ns s t)) as [Ht Hu].
    apply (refused_grows (storage (world (checkTask u now ns s t))) _ u t type message
             added); [by rewrite Hsame | done | done | | done].
    intros Hp. by apply scan_unparsable.
Qed.

(** A pass whose notifications are all refused stores nothing. *)
Lemma scan_refused u now ns l s :
  (∀ task type message,
     task ∈ l → classify now task = Some (type, message) →
     alreadyNotified ns task type ∨ refused (storage (world s)) u task type message) →
  storage (world (foldl (checkTask u now ns) s l)) = storage (world s).
Proof.
  revert s. induction l as [|t l IH]; intros s Hall; simpl; [done|].
  assert (storage (world (checkTask u now ns s t)) = storage (world s)) as Hstep.
  { unfold checkTask. destruct (classify now t) as [[type message]|] eqn:Hc; [|done].
    case_decide as Hn; [done|]. cbn [world storage].
    destruct (Hall t type message) as [?|Href]; [by left|done|done|].
    by apply (refused_addNotification _ u t type message). }
  rewrite IH; [done|]. intros task type message Hin Hc. rewrite Hstep.
  apply Hall; [by right | done].
Qed.

(** Two runs from a state whose held notifications are all stored. *)
Lemma evaluateTwice_backed now app w :
  backedByStore app w →
  let r := evaluateTwice now app w in
  storage r.2.2 = storage r.1.2
  ∧ notifications r.2.1 = notifications r.1.1
  ∧ tasks r.2.1 = tasks app
  ∧ (parseOrEmpty (notifications_db (storage r.1.2)) ≠ None → neverFull → r.2 = r.1).
Proof.
  intros Hbacked. unfold evaluateTwice. cbn zeta. cbn [fst snd].
  destruct (user app) as [u|] eqn:Hu.
  2:{ rewrite (checkDeadlines_no_user _ _ _ Hu). simpl.
      unfold reloadNotifications. rewrite Hu.
      by rewrite (checkDeadlines_no_user _ _ _ Hu). }
  rewrite (reload_after_check _ _ _ _ Hu).
  pose proof (checkDeadlines_world now app w u Hu) as Hw1.
  set (w1 := (checkDeadlines now app w).2) in *.
  set (ns1 := getNotifications (u_id u) (storage w1)).
  rewrite (checkDeadlines_user now (setAppNotifications ns1 app) w1 u Hu).
  cbn zeta. cbn [tasks notifications setAppNotifications].
  set (s2 := foldl (checkTask u now ns1) (mkScan w1 false) (tasks app)).
  assert (∀ task type message,
            task ∈ tasks app → classify now task = Some (type, message) →
            alreadyNotified ns1 task type ∨ refused (storage w1) u task type message)
    as Hcover.
  { intros task type message Hin Hc.
    pose proof (scan_covers u now (notifications app) (tasks app) (mkScan w false)
                  task type message Hin Hc) as Hpass.
    cbv zeta in Hpass. rewrite <- Hw1 in Hpass.
    destruct Hpass as [Hold|[Hnew|Href]].
    - left. apply inStore_alreadyNotified.
      apply Exists_exists in Hold as (n & Hn & <- & <-).
      rewrite Hw1. apply scan_keeps. simpl. by apply Hbacked.
    - left. by apply inStore_alreadyNotified.
    - by right. }
  assert (storage (world s2) = storage w1) as Hs2.
  { apply (scan_refused u now ns1 (tasks app) (mkScan w1 false)). exact Hcover. }
  split; [by destruct (hasNewNotification s2)|].
  split; [destruct (hasNewNotification s2); simpl; by rewrite ?Hs2|].
  split; [by destruct (hasNewNotification s2)|].
  intros Hparse Hnever.
  assert (s2 = mkScan w1 false) as ->; [|done].
  apply scan_nothing_new. intros task type message Hin Hc.
  destruct (Hcover task type message Hin Hc) as [?|[Hp|Hfull]]; [done|done|].
  destruct (Hfull 0). apply Hnever.
Qed.

(** X15. A run of the evaluator only adds notifications, at the end of the
    stored ones, and each added one is an unread notification of the
    current user for a task of the list that is not done, with the type and
    the message of its classification at [now], and for which the held list
    had no notification of that type. The tasks and users entries, the held
    tasks and the user are unchanged. *)
Theorem checkDeadlines_adds_only_classified (now : Z) (app : App) (w : World) :
  let r := checkDeadlines now app w in
  user r.1 = user app ∧ tasks r.1 = tasks app
  ∧ tasks_db (storage r.2) = tasks_db (storage w)
  ∧ users_db (storage r.2) = users_db (storage w)
  ∧ ∃ added,
      storedNotifications (storage r.2) = storedNotifications (storage w) ++ added
      ∧ ∀ m, m ∈ added →
          ∃ u task, user app = Some u ∧ n_userId m = u_id u
            ∧ task ∈ tasks app ∧ n_taskId m = t_id task
            ∧ t_status task ≠ Done
            ∧ classify now task = Some (n_type m, n_message m)
            ∧ ¬ alreadyNotified (notifications app) task (n_type m)
            ∧ n_isRead m = false ∧ n_emailSent m = true.
Proof.
  intros r. subst r. destruct (user app) as [u|] eqn:Hu.
  - rewrite (checkDeadlines_user _ _ _ _ Hu). cbn zeta.
    set (s := foldl _ _ _).
    split; [by destruct (hasNewNotification s)|].
    split; [by destruct (hasNewNotification s)|]. cbn [snd].
    destruct (scan_entries u now (notifications app) (tasks app) (mkScan w false))
      as [Ht Husers].
    split; [exact Ht|]. split; [exact Husers|].
    destruct (scan_appends u now (notifications app) (tasks app) (mkScan w false))
      as (added & Hadded & Hprops).
    exists added. split; [exact Hadded|]. intros m Hm.
    destruct (Hprops m Hm) as (Hid & task & Hin & Htask & Hc & Hrest).
    exists u, task. repeat split; try done; try apply Hrest.
    intros Hdone. unfold classify in Hc. by rewrite decide_True in Hc.
  - rewrite (checkDeadlines_no_user _ _ _ Hu). simpl.
    repeat split; try done. exists []. rewrite app_nil_r. split; [done|].
    by intros m ?%elem_of_nil.
Qed.

End ComponentFacts.


(** ** The held notifications stay backed by the storage *)

Section Backed.
Context `{Runtime}.

Lemma backedByStore_step (app app' : App) (w w' : World) :
  user app' = user app →
  (∀ n', n' ∈ notifications app' →
     ∃ n, n ∈ notifications app ∧ n_taskId n = n_taskId n' ∧ n_type n = n_type n') →
  (∀ userId taskId type,
     inStore (storage w) userId taskId type → inStore (storage w') userId taskId type) →
  backedByStore app w → backedByStore app' w'.
Proof.
  intros Huser Hheld Hstore Hb u Hu n' Hn'. rewrite Huser in Hu.
  destruct (Hheld n' Hn') as (n & Hn & <- & <-).
  by apply Hstore, Hb.
Qed.

Lemma loadData_backed app w : backedByStore (loadData app w) w.
Proof.
  unfold loadData. destruct (user app) as [u|] eqn:Hu.
  - intros u' [= <-] n [Hn Hid]%getNotifications_elem. by exists n.
  - intros u. simpl. by rewrite Hu.
Qed.

Lemma checkDeadlines_backed now app w :
  backedByStore app w →
  backedByStore (checkDeadlines now app w).1 (checkDeadlines now app w).2.
Proof.
  intros Hb. destruct (user app) as [u|] eqn:Hu.
  - rewrite (checkDeadlines_user _ _ _ _ Hu). cbn zeta.
    set (s := foldl _ _ _). destruct (hasNewNotification s); cbn [fst snd].
    + intros u' Hu' n [Hn Hid]%getNotifications_elem.
      simpl in Hu'. rewrite Hu in Hu'. injection Hu' as <-. by exists n.
    + intros u' Hu' n Hn. unfold s.
      apply (scan_keeps u now _ _ (mkScan w false)). simpl. by apply Hb.
  - by rewrite (checkDeadlines_no_user _ _ _ Hu).
Qed.

Lemma handleSaveTask_notifications text description deadline id app w :
  let r := handleSaveTask text description deadline id app w in
  user r.1 = user app ∧ notifications r.1 = notifications app
  ∧ notifications_db (storage r.2) = notifications_db (storage w)
  ∧ users_db (storage r.2) = users_db (storage w).
Proof.
  cbv zeta. unfold handleSaveTask.
  destruct (user app) eqn:Hu; repeat split; exact Hu.
Qed.

Lemma handleDelete_notifications id app w :
  let r := handleDelete id app w in
  user r.1 = user app ∧ notifications r.1 = notifications app
  ∧ notifications_db (storage r.2) = notifications_db (storage w)
  ∧ users_db (storage r.2) = users_db (storage w).
Proof.
  cbv zeta. unfold handleDelete. cbn [fst snd storage setStorage].
  destruct (deleteTask_others id (storage w)) as [-> ->]. repeat split.
Qed.

Lemma handleConfirmDeleteAll_notifications app w :
  let r := handleConfirmDeleteAll app w in
  user r.1 = user app ∧ notifications r.1 = notifications app
  ∧ notifications_db (storage r.2) = notifications_db (storage w)
  ∧ users_db (storage r.2) = users_db (storage w).
Proof.
  cbv zeta. unfold handleConfirmDeleteAll.
  destruct (user app) as [u|] eqn:Hu; [|repeat split; exact Hu].
  cbn [fst snd storage setStorage].
  destruct (deleteAllTasks_others (u_id u) (storage w)) as [-> ->]. repeat split.
  exact Hu.
Qed.

Lemma handleToggleStatus_notifications id app w :
  let r := handleToggleStatus id app w in
  user r.1 = user app ∧ notifications r.1 = notifications app
  ∧ notifications_db (storage r.2) = notifications_db (storage w)
  ∧ users_db (storage r.2) = users_db (storage w).
Proof.
  cbv zeta. unfold handleToggleStatus.
  destruct (findTask id (tasks app)); repeat split.
Qed.

Lemma backedByStore_same_entry (app app' : App) (w w' : World) :
  user app' = user app → notifications app' = notifications app →
  notifications_db (storage w') = notifications_db (storage w) →
  backedByStore app w → backedByStore app' w'.
Proof.
  intros Huser Hheld Hentry. apply backedByStore_step; [done| |].
  - intros n' Hn'. rewrite Hheld in Hn'. by exists n'.
  - intros userId taskId type. unfold inStore, storedNotifications. by rewrite Hentry.
Qed.

Lemma act_backed s a : backedByStore s.1 s.2 → backedByStore (act s a).1 (act s a).2.
Proof.
  intros Hb. destruct a; cbn [act].
  - apply loadData_backed.
  - by apply checkDeadlines_backed.
  - destruct (handleSaveTask_notifications text description deadline id s.1 s.2)
      as (? & ? & ? & _). by apply (backedByStore_same_entry s.1 _ s.2 _).
  - destruct (handleDelete_notifications id s.1 s.2) as (? & ? & ? & _).
    by apply (backedByStore_same_entry s.1 _ s.2 _).
  - destruct (handleConfirmDeleteAll_notifications s.1 s.2) as (? & ? & ? & _).
    by apply (backedByStore_same_entry s.1 _ s.2 _).
  - destruct (handleToggleStatus_notifications id s.1 s.2) as (? & ? & ? & _).
    by apply (backedByStore_same_entry s.1 _ s.2 _).
  - unfold handleMarkRead. cbn [fst snd].
    apply (backedByStore_step s.1 _ s.2 _); [done| | |exact Hb].
    + simpl. intros n' [n [-> Hn]]%list_elem_of_fmap. exists n.
      split; [done|]. by case_decide.
    + intros userId taskId type. simpl. apply inStore_same_triples.
      apply triples_of_setRead, markNotificationRead_flags.
  - unfold handleMarkAllRead. destruct (user s.1) as [u|] eqn:Hu; [|done].
    cbn [fst snd]. apply (backedByStore_step s.1 _ s.2 _); [done| | |exact Hb].
    + simpl. intros n' [n [-> Hn]]%list_elem_of_fmap. by exists n.
    + intros userId taskId type. simpl. apply inStore_same_triples.
      apply triples_of_setRead, markAllNotificationsRead_flags.
Qed.

(** X17. Once every held notification is backed by the storage, it stays
    so through loading, runs of the evaluator and every handler of the
    tasks and of the notifications, in any order. *)
Theorem actAll_backed (s : App * World) (l : list Action) :
  backedByStore s.1 s.2 → backedByStore (actAll s l).1 (actAll s l).2.
Proof.
  revert s. induction l as [|a l IH]; intros s Hb; [done|].
  simpl. apply IH. by apply act_backed.
Qed.
End Backed.

Lemma actAll_backed_witness :
  let s := (mkApp (Some alice) [] [], mkWorld emptyStorage [] 0) in
  let l := [HandleSaveTask "Buy milk" "2 l" "2025-06-09T09:00:00.000Z" None;
            CheckDeadlines sampleNow;
            HandleMarkAllRead; HandleToggleStatus "uuid-0"; LoadData;
            CheckDeadlines (sampleNow + 1000); HandleMarkRead "uuid-1";
            HandleDelete "uuid-0"] in
  backedByStore (@actAll sampleRuntime s l).1 (@actAll sampleRuntime s l).2.
Proof.
  intros s l. apply (@actAll_backed sampleRuntime s l).
  intros u _ n Hn. by apply elem_of_nil in Hn.
Defined.

(** The run of that witness: the task is saved, notified once, toggled and
    deleted; the notification stays, read. *)
Example actAll_sample :
  let s := (mkApp (Some alice) [] [], mkWorld emptyStorage [] 0) in
  let l := [HandleSaveTask "Buy milk" "2 l" "2025-06-09T09:00:00.000Z" None;
            CheckDeadlines sampleNow;
            HandleMarkAllRead; HandleToggleStatus "uuid-0"; LoadData;
            CheckDeadlines (sampleNow + 1000); HandleMarkRead "uuid-1";
            HandleDelete "uuid-0"] in
  let r := @actAll sampleRuntime s l in
  tasks r.1 = [] ∧ storedTasks (storage r.2) = []
  ∧ map (λ n, (triple n, n_isRead n)) (notifications r.1)
    = [(("alice", "uuid-0", Overdue), true)]
  ∧ map (λ n, (triple n, n_isRead n)) (storedNotifications (storage r.2))
    = [(("alice", "uuid-0", Overdue), true)].
Proof. vm_compute. done. Qed.

(** ** Two runs of the evaluator *)

Section Idempotence.
Context `{Runtime}.

(** A component that starts with no notification holds only stored ones. *)
Lemma actAll_from_empty app0 w0 actions :
  notifications app0 = [] →
  backedByStore (actAll (app0, w0) actions).1 (actAll (app0, w0) actions).2.
Proof.
  intros Hnone.
  assert (backedByStore (app0, w0).1 (app0, w0).2) as Hstart.
  { intros u _ n Hn. simpl in Hn. rewrite Hnone in Hn. by apply elem_of_nil in Hn. }
  revert Hstart. generalize (app0, w0). clear Hnone.
  induction actions as [|a actions IH]; intros s Hb; [done|].
  simpl. apply IH. by apply act_backed.
Qed.

(** C4. Take any state that the component reaches from holding no
    notification, as it does when a user logs in, through loading, runs of
    the evaluator and the handlers in any order. Of two runs of the
    evaluator at the same time [now], on the same tasks, with the
    notification list read again from the storage after the first run, the
    second creates no notification: the storage and the held list are what
    they were after the first run. The second run does not even build one
    (nothing is logged, no fresh value is drawn) when the notifications
    entry parses after the first run and the storage refuses no write. *)
Theorem checkDeadlines_idempotent (now : Z) (app0 : App) (w0 : World)
    (actions : list Action) :
  notifications app0 = [] →
  let s := actAll (app0, w0) actions in
  let r := evaluateTwice now s.1 s.2 in
  storage r.2.2 = storage r.1.2
  ∧ notifications r.2.1 = notifications r.1.1
  ∧ tasks r.2.1 = tasks s.1
  ∧ (parseOrEmpty (notifications_db (storage r.1.2)) ≠ None →
     (∀ st, overQuota st = false) → r.2 = r.1).
Proof.
  intros Hnone s r.
  exact (evaluateTwice_backed now s.1 s.2 (actAll_from_empty app0 w0 actions Hnone)).
Qed.
End Idempotence.

Lemma checkDeadlines_idempotent_witness :
  let app0 := mkApp (Some alice) [] [] in
  let w0 := mkWorld (setTasks (Rows [taskA; taskB; taskC; taskD]) emptyStorage) [] 0 in
  let actions := [LoadData; CheckDeadlines (sampleNow - 86400000); HandleMarkAllRead;
                  HandleSaveTask "Pay rent" "cash" "2025-06-10T18:00:00.000Z" None] in
  let s := @actAll sampleRuntime (app0, w0) actions in
  let r := @evaluateTwice sampleRuntime sampleNow s.1 s.2 in
  notifications app0 = []
  ∧ storage r.2.2 = storage r.1.2
  ∧ notifications r.2.1 = notifications r.1.1
  ∧ tasks r.2.1 = tasks s.1
  ∧ (parseOrEmpty (notifications_db (storage r.1.2)) ≠ None →
     (∀ st, @overQuota sampleRuntime st = false) → r.2 = r.1).
Proof.
  intros app0 w0 actions s r. split; [reflexivity|].
  apply (@checkDeadlines_idempotent sampleRuntime sampleNow app0 w0 actions).
  reflexivity.
Defined.

(** On that state the first run stores a notification for each of the three
    classified tasks that has none of that type yet, and the second run
    does nothing. When the storage has no room, no run stores anything. *)
Example checkDeadlines_sample :
  let app0 := mkApp (Some alice) [] [] in
  let w0 := mkWorld (setTasks (Rows [taskA; taskB; taskC; taskD]) emptyStorage) [] 0 in
  let actions := [LoadData; CheckDeadlines (sampleNow - 86400000); HandleMarkAllRead;
                  HandleSaveTask "Pay rent" "cash" "2025-06-10T18:00:00.000Z" None] in
  let s := @actAll sampleRuntime (app0, w0) actions in
  let r := @evaluateTwice sampleRuntime sampleNow s.1 s.2 in
  let s' := @actAll fullRuntime (app0, w0) actions in
  let r' := @evaluateTwice fullRuntime sampleNow s'.1 s'.2 in
  map triple (storedNotifications (storage s.2)) = [("alice", "b", Upcoming)]
  ∧ map triple (storedNotifications (storage r.1.2))
    = [("alice", "b", Upcoming); ("alice", "a", Upcoming); ("alice", "b", Overdue);
       ("alice", "uuid-1", Upcoming)]
  ∧ r.2 = r.1
  ∧ storedNotifications (storage r'.2.2) = []
  ∧ notifications r'.2.1 = []
  ∧ length (console r'.1.2) = 4 ∧ length (console r'.2.2) = 7.
Proof. vm_compute. done. Qed.

(** With room for 60 characters of messages, the notification of the task
    with the long title is refused and the other one stored; the second run
    tries the refused one again, in vain. *)
Example checkDeadlines_sample_quota :
  let task id text :=
    mkTask id "alice" text None "2025-06-10T12:00:00.000Z" Pending None
      "2025-06-01T08:00:00.000Z" in
  let long := task "l" "Prepare the quarterly report for the board" in
  let short := task "s" "Call" in
  let app := mkApp (Some alice) [long; short] [] in
  let w := mkWorld (setTasks (Rows [long; short]) emptyStorage) [] 0 in
  let r := @evaluateTwice (quotaRuntime 60) sampleNow app w in
  map triple (storedNotifications (storage r.1.2)) = [("alice", "s", Upcoming)]
  ∧ storage r.2.2 = storage r.1.2
  ∧ notifications r.2.1 = notifications r.1.1
  ∧ length (console r.1.2) = 2 ∧ length (console r.2.2) = 3.
Proof. vm_compute. done. Qed.

(** ** The held tasks stay in step with the storage *)

Lemma uniqueIds_same_id l x y :
  uniqueIds l → x ∈ l → y ∈ l → t_id x = t_id y → x = y.
Proof.
  unfold uniqueIds. induction l as [|z l IH]; intros Hl Hx Hy Hid.
  - by apply elem_of_nil in Hx.
  - rewrite fmap_cons in Hl. apply NoDup_cons in Hl as [Hz Hl].
    apply elem_of_cons in Hx as [->|Hx]; apply elem_of_cons in Hy as [->|Hy].
    + done.
    + destruct Hz. rewrite Hid. by apply list_elem_of_fmap_2.
    + destruct Hz. rewrite <- Hid. by apply list_elem_of_fmap_2.
    + by apply IH.
Qed.

Lemma replace_upsert updated l :
  uniqueIds l → (∃ x, x ∈ l ∧ t_id x = t_id updated) →
  map (λ t, if decide (t_id t = t_id updated) then updated else t) l = upsert updated l.
Proof.
  unfold uniqueIds. induction l as [|z l IH]; intros Hl (x & Hx & Hid).
  - by apply elem_of_nil in Hx.
  - rewrite fmap_cons in Hl. apply NoDup_cons in Hl as [Hz Hl].
    rewrite upsert_cons. simpl. case_decide as Hzid.
    + f_equal. rewrite <- (list_fmap_id l) at 2. apply list_fmap_ext.
      intros i t Ht. simpl. rewrite decide_False; [done|].
      intros Htid. apply Hz. rewrite Hzid, <- Htid.
      apply list_elem_of_fmap_2. by eapply list_elem_of_lookup_2.
    + f_equal. apply IH; [done|]. exists x. split; [|done].
      apply elem_of_cons in Hx as [->|Hx]; done.
Qed.

Lemma findTask_Some id l task :
  findTask id l = Some task → task ∈ l ∧ t_id task = id.
Proof.
  unfold findTask. destruct (list_find _ l) as [[i t]|] eqn:F; [|done].
  intros [= <-]. apply list_find_Some in F as (Hi & Ht & _).
  split; [by eapply list_elem_of_lookup_2 | done].
Qed.

Lemma toggled_status stamp task :
  t_status (toggled stamp task)
  = match t_status task with Pending => Done | Done => Pending end.
Proof. unfold toggled. simpl. by destruct (t_status task). Qed.

Lemma toggled_finishedTime stamp task :
  t_finishedTime (toggled stamp task)
  = match t_status task with Pending => Some (Some stamp) | Done => Some None end.
Proof. unfold toggled. simpl. by destruct (t_status task). Qed.

Section Sync.
Context `{Runtime}.

(** X18. [handleSaveTask] does nothing without a user. With a user it
    saves one task, owned by that user and carrying the given text,
    description and deadline, in the storage and in the held list alike.
    Under a given non-empty id the task keeps the status and the finish
    time of the held task with that id (and its creation time, unless
    empty); without an id it is a new pending task under a fresh id. The
    held list stays in step with the storage provided no other user's
    stored task has the saved id. *)
Theorem handleSaveTask_saves (text description deadline : string) (id : option string)
    (app : App) (w : World) :
  let r := handleSaveTask text description deadline id app w in
  (user app = None → r = (app, w))
  ∧ ∀ u, user app = Some u →
      ∃ newTask,
        user r.1 = Some u
        ∧ tasks r.1 = upsert newTask (tasks app)
        ∧ storedTasks (storage r.2) = upsert newTask (storedTasks (storage w))
        ∧ t_userId newTask = u_id u ∧ t_text newTask = text
        ∧ t_description newTask = Some description ∧ t_deadline newTask = deadline
        ∧ (∀ i, id = Some i → i ≠ EmptyString →
             t_id newTask = i
             ∧ ∀ held, findTask i (tasks app) = Some held →
                 t_status newTask = t_status held
                 ∧ t_finishedTime newTask = t_finishedTime held
                 ∧ (t_createdAt held ≠ EmptyString →
                    t_createdAt newTask = t_createdAt held))
        ∧ (id = None ∨ id = Some EmptyString →
             t_id newTask = randomUUID (draws w)
             ∧ t_status newTask = Pending ∧ t_finishedTime newTask = None
             ∧ t_createdAt newTask = nowISOString (draws w))
        ∧ (inSync app w →
           (∀ y, y ∈ storedTasks (storage w) → t_id y = t_id newTask →
                 t_userId y = u_id u) →
           inSync r.1 r.2).
Proof.
  intros r. subst r. unfold handleSaveTask. split; [by intros ->|].
  intros u Hu. rewrite Hu. eexists. cbn [fst snd storage tasks setAppTasks].
  split; [exact Hu|]. split; [reflexivity|].
  split; [apply saveTask_stored|].
  cbn [t_userId t_text t_description t_deadline t_id t_status t_finishedTime t_createdAt].
  split; [done|]. split; [done|]. split; [done|]. split; [done|].
  split; [|split].
  - intros i -> Hi. rewrite decide_False by done. simpl. split; [done|].
    intros held ->. simpl. split; [done|]. split; [done|].
    intros Hc. by rewrite decide_False.
  - intros [->| ->]; [done|]. by rewrite decide_True.
  - intros Hsync Hown u' Hu'. cbn [user setAppTasks] in Hu'.
    rewrite Hu in Hu'. injection Hu' as <-.
    rewrite (Hsync u Hu), !getTasks_stored.
    cbn [storage]. rewrite saveTask_stored.
    symmetry. by apply upsert_filter_in.
Qed.

(** X19. [handleDelete] leaves no task with the id in the held list or in
    the storage, and a held list that was in step with the storage stays in
    step. *)
Theorem handleDelete_inSync (id : string) (app : App) (w : World) :
  let r := handleDelete id app w in
  (∀ t, t ∈ tasks r.1 → t_id t ≠ id)
  ∧ (∀ t, t ∈ storedTasks (storage r.2) → t_id t ≠ id)
  ∧ (inSync app w → inSync r.1 r.2).
Proof.
  intros r. subst r. unfold handleDelete. cbn [fst snd tasks setAppTasks storage setStorage].
  split; [|split].
  - by intros t [? _]%list_elem_of_filter.
  - rewrite deleteTask_stored. by intros t [? _]%list_elem_of_filter.
  - intros Hsync u Hu. cbn [fst snd user tasks setAppTasks storage setStorage] in Hu |- *.
    rewrite (Hsync u Hu), !getTasks_stored, deleteTask_stored, !list_filter_filter.
    apply list_filter_iff. intros t. tauto.
Qed.

(** X20. [handleConfirmDeleteAll] does nothing without a user; with one it
    empties the held list and removes exactly that user's tasks from the
    storage, so that the held list is in step with the storage whatever it
    held before. *)
Theorem handleConfirmDeleteAll_inSync (app : App) (w : World) :
  let r := handleConfirmDeleteAll app w in
  (user app = None → r = (app, w))
  ∧ (∀ u, user app = Some u →
       tasks r.1 = []
       ∧ storedTasks (storage r.2)
         = filter (λ t, t_userId t ≠ u_id u) (storedTasks (storage w))
       ∧ inSync r.1 r.2).
Proof.
  intros r. subst r. unfold handleConfirmDeleteAll. split; [by intros ->|].
  intros u Hu. rewrite Hu. cbn [fst snd tasks setAppTasks storage setStorage].
  split; [done|]. split; [apply deleteAllTasks_stored|].
  intros u' Hu'. cbn [fst snd user tasks setAppTasks storage setStorage] in Hu' |- *.
  rewrite Hu in Hu'. injection Hu' as <-.
  rewrite getTasks_stored, deleteAllTasks_stored, list_filter_filter.
  symmetry. apply filter_none. intros t _ [Heq Hne]. by apply Hne.
Qed.

(** X21. [handleToggleStatus] does nothing when no held task has the id.
    Otherwise it flips the status of the first held task with the id, stamps
    the finish time when the task becomes done and sets it to null when it
    becomes pending, puts the result in place of every held task with the
    id and saves it; the other held tasks are untouched. Toggling again
    gives back the status. The held list stays in step with the storage
    provided no id is stored twice. *)
Theorem handleToggleStatus_flips (id : string) (app : App) (w : World) :
  let r := handleToggleStatus id app w in
  (findTask id (tasks app) = None → r = (app, w))
  ∧ (∀ task, findTask id (tasks app) = Some task →
       let updated := toggled (nowISOString (draws w)) task in
       (t_status updated = Done ↔ t_status task = Pending)
       ∧ (t_status updated = Pending ↔ t_status task = Done)
       ∧ (t_status updated = Done →
          t_finishedTime updated = Some (Some (nowISOString (draws w))))
       ∧ (t_status updated = Pending → t_finishedTime updated = Some None)
       ∧ (∀ stamp, t_status (toggled stamp updated) = t_status task)
       ∧ length (tasks r.1) = length (tasks app)
       ∧ (∀ i t, tasks app !! i = Some t →
            tasks r.1 !! i = Some (if decide (t_id t = id) then updated else t))
       ∧ storedTasks (storage r.2) = upsert updated (storedTasks (storage w))
       ∧ (inSync app w → uniqueIds (storedTasks (storage w)) → inSync r.1 r.2)).
Proof.
  intros r. subst r. unfold handleToggleStatus. split; [by intros ->|].
  intros task Hfind. rewrite Hfind. cbv zeta.
  set (updated := toggled (nowISOString (draws w)) task).
  cbn [fst snd tasks setAppTasks storage].
  destruct (findTask_Some _ _ _ Hfind) as [Hin Hid].
  split; [|split; [|split; [|split; [|split; [|split; [|split; [|split]]]]]]].
  - unfold updated. rewrite toggled_status. by destruct (t_status task).
  - unfold updated. rewrite toggled_status. by destruct (t_status task).
  - unfold updated. rewrite toggled_status, toggled_finishedTime.
    by destruct (t_status task).
  - unfold updated. rewrite toggled_status, toggled_finishedTime.
    by destruct (t_status task).
  - intros stamp. unfold updated. rewrite !toggled_status. by destruct (t_status task).
  - apply length_map.
  - intros i t Ht. by rewrite list_lookup_fmap, Ht.
  - apply saveTask_stored.
  - intros Hsync Huniq u Hu. cbn [fst snd user tasks setAppTasks storage] in Hu |- *.
    rewrite getTasks_stored, saveTask_stored.
    pose proof (Hsync u Hu) as Hheld. rewrite getTasks_stored in Hheld.
    assert (task ∈ storedTasks (storage w) ∧ t_userId task = u_id u) as [Hstored Howner].
    { rewrite Hheld in Hin. apply list_elem_of_filter in Hin. tauto. }
    assert (t_id updated = id) as Hupd by exact Hid.
    rewrite upsert_filter_in.
    + rewrite <- Hheld, <- Hupd. apply replace_upsert.
      * rewrite Hheld. by apply filter_uniqueIds.
      * exists task. split; [done | by rewrite Hupd].
    + exact Howner.
    + intros y Hy Hyid.
      rewrite (uniqueIds_same_id _ y task Huniq Hy Hstored); [done|].
      by rewrite Hyid, Hupd.
Qed.
End Sync.

Lemma initialTheme_cases stored :
  initialTheme stored ≠ EmptyString
  ∧ (initialTheme stored = "light"
     ↔ stored = None ∨ stored = Some EmptyString ∨ stored = Some "light").
Proof.
  unfold initialTheme. destruct stored as [s|].
  - destruct (decide (s = EmptyString)) as [->|Hs].
    + split; [done|]. split; [auto | done].
    + split; [done|]. split.
      * intros ->. auto.
      * intros [?|[[= ?]|[= ?]]]; done.
  - split; [done|]. split; [auto | done].
Qed.

Lemma toggleTheme_cases theme :
  (theme = "light" ∧ toggleTheme theme = "dark")
  ∨ (theme = "dark" ∧ toggleTheme theme = "light")
  ∨ (theme ≠ "light" ∧ theme ≠ "dark" ∧ toggleTheme theme = "light").
Proof.
  unfold toggleTheme. destruct (decide (theme = "light")) as [->|Hl]; [by left|].
  right. destruct (decide (theme = "dark")) as [->|Hd]; [by left | by right].
Qed.

(** X22. [toggleTheme] always gives "light" or "dark"; two toggles give the
    theme back, and one toggle changes whether the page is dark, exactly
    when the theme is one of the two: from any other stored theme the first
    toggle gives "light", which shows as before. The theme read at start is
    never empty. *)
Theorem toggleTheme_two_values (theme : string) (stored : option string) :
  (toggleTheme theme = "light" ∨ toggleTheme theme = "dark")
  ∧ (toggleTheme (toggleTheme theme) = theme ↔ theme = "light" ∨ theme = "dark")
  ∧ (darkClass (toggleTheme theme) = negb (darkClass theme)
     ↔ theme = "light" ∨ theme = "dark")
  ∧ (theme ≠ "light" → theme ≠ "dark" →
     toggleTheme theme = "light" ∧ darkClass (toggleTheme theme) = darkClass theme)
  ∧ initialTheme stored ≠ EmptyString
  ∧ (initialTheme stored = "light"
     ↔ stored = None ∨ stored = Some EmptyString ∨ stored = Some "light").
Proof.
  split; [|split; [|split; [|split; [|apply initialTheme_cases]]]].
  - destruct (toggleTheme_cases theme) as [[_ ->]|[[_ ->]|(_ & _ & ->)]]; auto.
  - destruct (toggleTheme_cases theme) as [[-> ->]|[[-> ->]|(Hl & Hd & ->)]].
    + split; [auto | done].
    + split; [auto | done].
    + split; [|by intros [?|?]]. intros Heq. by destruct Hd.
  - destruct (toggleTheme_cases theme) as [[-> ->]|[[-> ->]|(Hl & Hd & ->)]].
    + split; [auto | done].
    + split; [auto | done].
    + unfold darkClass. rewrite (bool_decide_eq_false_2 (theme = "dark")) by done.
      split; [done | by intros [?|?]].
  - intros Hl Hd.
    destruct (toggleTheme_cases theme) as [[? _]|[[? _]|(_ & _ & ->)]]; [done|done|].
    split; [done|]. unfold darkClass.
    by rewrite (bool_decide_eq_false_2 (theme = "dark")).
Qed.

(** ** The counter of pending tasks *)

Section Counter.
Context `{Runtime}.

Lemma replace_at_split updated (l1 l2 : list Task) task :
  t_id task = t_id updated →
  (∀ t, t ∈ l1 → t_id t ≠ t_id updated) → (∀ t, t ∈ l2 → t_id t ≠ t_id updated) →
  map (λ t, if decide (t_id t = t_id updated) then updated else t) (l1 ++ task :: l2)
  = l1 ++ updated :: l2.
Proof.
  intros Hid H1 H2.
  assert (∀ l : list Task, (∀ t, t ∈ l → t_id t ≠ t_id updated) →
            map (λ t, if decide (t_id t = t_id updated) then updated else t) l = l)
    as Hsame.
  { intros l Hl. rewrite <- (list_fmap_id l) at 2. apply list_fmap_ext.
    intros i t Ht. simpl. rewrite decide_False; [done|].
    apply Hl. by eapply list_elem_of_lookup_2. }
  rewrite map_app. simpl. rewrite decide_True by done.
  by rewrite (Hsame l1 H1), (Hsame l2 H2).
Qed.

(** X23. When no id is held twice, toggling a held task changes the
    counter of pending tasks by exactly one: down when the task was
    pending, up when it was done. *)
Theorem handleToggleStatus_counter (id : string) (app : App) (w : World) (task : Task) :
  uniqueIds (tasks app) →
  findTask id (tasks app) = Some task →
  let r := handleToggleStatus id app w in
  match t_status task with
  | Pending => S (pendingCount r.1) = pendingCount app
  | Done => pendingCount r.1 = S (pendingCount app)
  end.
Proof.
  intros Huniq Hfind r. subst r. unfold handleToggleStatus. rewrite Hfind. cbv zeta.
  set (updated := toggled (nowISOString (draws w)) task).
  unfold pendingCount. cbn [fst tasks setAppTasks].
  destruct (findTask_Some _ _ _ Hfind) as [Hin Hid].
  assert (t_id updated = id) as Hupd by exact Hid.
  apply list_elem_of_split in Hin as (l1 & l2 & Hl).
  rewrite Hl in Huniq |- *. unfold uniqueIds in Huniq.
  rewrite fmap_app, fmap_cons in Huniq.
  apply NoDup_app in Huniq as (_ & Hdisj & [Hnot2 _]%NoDup_cons).
  rewrite <- Hupd.
  rewrite (replace_at_split updated l1 l2 task).
  - rewrite !filter_app, !length_app, !(filter_cons _ _ l2).
    pose proof (toggled_status (nowISOString (draws w)) task) as Hst.
    fold updated in Hst. destruct (t_status task) eqn:E; rewrite Hst; simpl; lia.
  - by rewrite Hupd.
  - intros t Ht Htid. apply (Hdisj (t_id t)); [by apply list_elem_of_fmap_2|].
    rewrite Htid, Hupd, <- Hid. left.
  - intros t Ht Htid. apply Hnot2. rewrite Hid, <- Hupd, <- Htid.
    by apply list_elem_of_fmap_2.
Qed.
End Counter.

Lemma handleToggleStatus_counter_witness :
  let app := mkApp (Some alice) [taskA; taskB; taskC] [] in
  let w := mkWorld (setTasks (Rows [taskA; taskB; taskC]) emptyStorage) [] 0 in
  S (@pendingCount (@handleToggleStatus sampleRuntime "b" app w).1) = @pendingCount app.
Proof.
  intros app w.
  apply (@handleToggleStatus_counter sampleRuntime "b" app w taskB); [|reflexivity].
  unfold uniqueIds. simpl. repeat (apply NoDup_cons; split); try apply NoDup_nil_2;
    intros Hin; repeat (apply elem_of_cons in Hin as [[=]|Hin]);
    by apply elem_of_nil in Hin.
Defined.

(** ** The held notifications stay in step with the storage *)

Lemma filter_map_commute {A} (P : A → Prop) `{∀ x, Decision (P x)} (g : A → A) l :
  (∀ x, P (g x) ↔ P x) → filter P (map g l) = map g (filter P l).
Proof.
  intros Hg. induction l as [|x l IH]; [done|]. simpl.
  rewrite !filter_cons, IH. destruct (decide (P x)) as [Hx|Hx].
  - by rewrite decide_True by (by apply Hg).
  - by rewrite decide_False by (by rewrite Hg).
Qed.

Lemma markRead_first_is_all id (l : list Notification) :
  NoDup (n_id <$> l) →
  match list_find (λ n, n_id n = id) l with
  | Some (idx, m) => <[idx := setRead m]> l
  | None => l
  end = map (λ n, if decide (n_id n = id) then setRead n else n) l.
Proof.
  induction l as [|x l IH]; [done|].
  rewrite fmap_cons. intros [Hx Hl]%NoDup_cons. simpl.
  destruct (decide (n_id x = id)) as [Hid|Hid]; simpl.
  - f_equal. rewrite <- (list_fmap_id l) at 1. apply list_fmap_ext.
    intros i n Hn. simpl. rewrite decide_False; [done|].
    intros Hnid. apply Hx. rewrite Hid, <- Hnid.
    apply list_elem_of_fmap_2. by eapply list_elem_of_lookup_2.
  - specialize (IH Hl). destruct (list_find _ l) as [[idx m]|]; simpl; by rewrite <- IH.
Qed.

Section NotificationSync.
Context `{Runtime}.

Lemma getNotifications_entry userId st st' :
  notifications_db st' = notifications_db st →
  getNotifications userId st' = getNotifications userId st.
Proof. unfold getNotifications. by intros ->. Qed.

Lemma getNotifications_map g userId st st' :
  storedNotifications st' = map g (storedNotifications st) →
  (∀ n, n_userId (g n) = n_userId n) →
  (∀ n, n_createdAt (g n) = n_createdAt n) →
  getNotifications userId st' = map g (getNotifications userId st).
Proof.
  intros Hstored Huser Htime. rewrite !getNotifications_stored, Hstored.
  rewrite filter_map_commute by (intros n; by rewrite Huser).
  apply jsSort_natural. intros a b. unfold newestFirst. by rewrite !Htime.
Qed.

Lemma scan_hasNew_true u now ns l s :
  hasNewNotification s = true →
  hasNewNotification (foldl (checkTask u now ns) s l) = true.
Proof.
  revert s. induction l as [|t l IH]; intros s Hs; simpl; [done|].
  apply IH. unfold checkTask. destruct (classify now t) as [[type message]|]; [|done].
  by case_decide.
Qed.

Lemma scan_hasNew_false u now ns l s :
  hasNewNotification (foldl (checkTask u now ns) s l) = false →
  foldl (checkTask u now ns) s l = s.
Proof.
  revert s. induction l as [|t l IH]; intros s Hs; simpl in *; [done|].
  assert (hasNewNotification (checkTask u now ns s t) = true
          ∨ checkTask u now ns s t = s) as [Htrue|Hstep].
  { unfold checkTask. destruct (classify now t) as [[type message]|]; [|by right].
    case_decide; [by right | by left]. }
  - by rewrite scan_hasNew_true in Hs.
  - rewrite Hstep in *. by apply IH.
Qed.

(** X24. The held notifications, once equal to what [getNotifications]
    gives for the user, stay equal through loading, runs of the evaluator,
    the task handlers and [handleMarkAllRead]; through [handleMarkRead]
    they do provided no notification id is stored twice (the storage marks
    the first notification with the id, the component every held one). *)
Theorem act_notificationsInSync (s : App * World) (a : Action) :
  notificationsInSync s.1 s.2 → markReadIsExact s a →
  notificationsInSync (act s a).1 (act s a).2.
Proof.
  intros Hsync Hexact. destruct a; cbn [act].
  - unfold loadData. destruct (user s.1) as [u|] eqn:Hu; cbn [fst snd].
    + by intros u' [= <-].
    + intros u. by rewrite Hu.
  - destruct (user s.1) as [u|] eqn:Hu.
    + rewrite (checkDeadlines_user _ _ _ _ Hu). cbn zeta.
      destruct (hasNewNotification _) eqn:Hnew; cbn [fst snd].
      * intros u' Hu'. cbn [user setAppNotifications] in Hu'.
        rewrite Hu in Hu'. by injection Hu' as <-.
      * rewrite (scan_hasNew_false _ _ _ _ _ Hnew). exact Hsync.
    + by rewrite (checkDeadlines_no_user _ _ _ Hu).
  - destruct (handleSaveTask_notifications text description deadline id s.1 s.2)
      as (Hu & Hn & He & _).
    intros u Hu'. rewrite Hu in Hu'. rewrite Hn, (getNotifications_entry _ _ _ He).
    by apply Hsync.
  - destruct (handleDelete_notifications id s.1 s.2) as (Hu & Hn & He & _).
    intros u Hu'. rewrite Hu in Hu'. rewrite Hn, (getNotifications_entry _ _ _ He).
    by apply Hsync.
  - destruct (handleConfirmDeleteAll_notifications s.1 s.2) as (Hu & Hn & He & _).
    intros u Hu'. rewrite Hu in Hu'. rewrite Hn, (getNotifications_entry _ _ _ He).
    by apply Hsync.
  - destruct (handleToggleStatus_notifications id s.1 s.2) as (Hu & Hn & He & _).
    intros u Hu'. rewrite Hu in Hu'. rewrite Hn, (getNotifications_entry _ _ _ He).
    by apply Hsync.
  - unfold handleMarkRead. intros u Hu.
    cbn [fst snd user notifications setAppNotifications storage setStorage] in Hu |- *.
    rewrite (Hsync u Hu). symmetry. apply getNotifications_map; [|by intros n; case_decide..].
    rewrite markNotificationRead_stored. by apply markRead_first_is_all.
  - unfold handleMarkAllRead. destruct (user s.1) as [u|] eqn:Hu; [|exact Hsync].
    intros u' Hu'.
    cbn [fst snd user notifications setAppNotifications storage setStorage] in Hu' |- *.
    rewrite Hu in Hu'. injection Hu' as <-.
    rewrite (getNotifications_map
               (λ n, if decide (n_userId n = u_id u) then setRead n else n)
               _ (storage s.2));
      [|apply markAllNotificationsRead_stored | by intros n; case_decide..].
    rewrite (Hsync u Hu). apply list_fmap_ext. intros i n Hn. simpl.
    rewrite decide_True; [done|].
    apply list_elem_of_lookup_2, getNotifications_elem in Hn. tauto.
Qed.
End NotificationSync.

Lemma act_notificationsInSync_witness :
  let s := (mkApp (Some alice) [taskA] [noticeA],
            mkWorld (setNotifications (Rows [noticeA]) emptyStorage) [] 0) in
  @notificationsInSync sampleRuntime
    (@act sampleRuntime s (HandleMarkRead "n0")).1
    (@act sampleRuntime s (HandleMarkRead "n0")).2.
Proof.
  intros s. apply (@act_notificationsInSync sampleRuntime s (HandleMarkRead "n0")).
  - intros u [= <-]. reflexivity.
  - apply NoDup_singleton.
Defined.

(** ** The e-mails of the evaluator *)

Lemma addNotification_length `{Runtime} n st :
  length (storedNotifications (addNotification n st))
  ≤ S (length (storedNotifications st)).
Proof.
  destruct (addNotification_appends n st) as [->|[-> _]]; [lia|].
  rewrite length_app. simpl. lia.
Qed.

Section Emails.
Context `{Runtime}.

Lemma checkTask_emails u now ns s task :
  let s' := checkTask u now ns s task in
  let k := length (filter (needsNotice now ns) [task]) in
  length (console (world s')) = length (console (world s)) + k
  ∧ draws (world s') = draws (world s) + k
  ∧ length (storedNotifications (storage (world s')))
    ≤ length (storedNotifications (storage (world s))) + k.
Proof.
  cbv zeta. destruct (decide (needsNotice now ns task)) as [Hyes|Hno].
  - rewrite filter_cons_True, filter_nil by done.
    unfold needsNotice in Hyes. unfold checkTask.
    destruct (classify now task) as [[type message]|]; [|done].
    rewrite decide_False by done. cbn [world console draws storage length].
    rewrite length_app. simpl.
    pose proof (addNotification_length
      (mkNotification (randomUUID (draws (world s))) (u_id u) (t_id task) message
         type false (nowISOString (draws (world s))) true) (storage (world s))).
    lia.
  - rewrite filter_cons_False, filter_nil by done.
    assert (checkTask u now ns s task = s) as ->; [|simpl; lia].
    unfold needsNotice in Hno. unfold checkTask.
    destruct (classify now task) as [[type message]|]; [|done].
    case_decide; [done | by destruct Hno].
Qed.

Lemma scan_emails u now ns l s :
  let s' := foldl (checkTask u now ns) s l in
  let k := length (filter (needsNotice now ns) l) in
  length (console (world s')) = length (console (world s)) + k
  ∧ draws (world s') = draws (world s) + k
  ∧ length (storedNotifications (storage (world s')))
    ≤ length (storedNotifications (storage (world s))) + k.
Proof.
  cbv zeta. revert s. induction l as [|t l IH]; intros s.
  - simpl. lia.
  - cbn [foldl]. destruct (IH (checkTask u now ns s t)) as (Hc & Hd & Hs).
    destruct (checkTask_emails u now ns s t) as (Hc1 & Hd1 & Hs1).
    change (t :: l) with ([t] ++ l). rewrite filter_app, length_app. lia.
Qed.

(** X25. A run of the evaluator logs one e-mail line, and draws one fresh
    id and time, for every task of the list that is classified at [now] and
    has no notification of that type in the held list, whether or not the
    storage takes the notification; it stores at most that many
    notifications. *)
Theorem checkDeadlines_emails (now : Z) (app : App) (w : World) :
  let r := checkDeadlines now app w in
  (user app = None → r = (app, w))
  ∧ (user app ≠ None →
     let k := length (filter (needsNotice now (notifications app)) (tasks app)) in
     length (console r.2) = length (console w) + k
     ∧ draws r.2 = draws w + k
     ∧ length (storedNotifications (storage r.2))
       ≤ length (storedNotifications (storage w)) + k).
Proof.
  cbv zeta. split; [apply checkDeadlines_no_user|].
  destruct (user app) as [u|] eqn:Hu; [intros _ | done].
  rewrite (checkDeadlines_world _ _ _ _ Hu).
  apply (scan_emails u now (notifications app) (tasks app) (mkScan w false)).
Qed.
End Emails.

(** When the notifications entry cannot be parsed, or the storage is full,
    every run logs the e-mail again and stores nothing. *)
Example checkDeadlines_emails_sample :
  let app := mkApp (Some alice) [taskA; taskB; taskC] [] in
  let w := mkWorld (setNotifications Unparsable emptyStorage) [] 0 in
  let r := @evaluateTwice sampleRuntime sampleNow app w in
  let r' := @evaluateTwice fullRuntime sampleNow app (mkWorld emptyStorage [] 0) in
  length (console r.1.2) = 2 ∧ length (console r.2.2) = 4
  ∧ storedNotifications (storage r.2.2) = []
  ∧ length (console r'.1.2) = 2 ∧ length (console r'.2.2) = 4
  ∧ storedNotifications (storage r'.2.2) = [].
Proof. vm_compute. done. Qed.
